(** * Verification of the game logic of [project_team]

    The repository bundles two browser games and the Chromium error page
    runtime they sit on:

    - [src/unnamed/part_000]: the [LoadTimeData] singleton and the T-Rex
      runner ([CollisionBox], [Obstacle], [Horizon], [Runner.update],
      [checkForCollision]);
    - [src/toxiroff_488/java12.js]: a grid Snake game.

    The development is a shallow embedding.  JavaScript numbers that are
    integers in every table of the source (pixel coordinates, grid cells,
    key codes) are [Z]; numbers that are fractional (speeds, gap
    coefficients, [Math.random()]) are exact rationals [Q], and the speed
    ramp is given a second time over IEEE binary64 ([PrimFloat]), which is
    what a JavaScript engine computes with.  [Math.random()] is an explicit
    stream of draws threaded through the code; a call that has not returned
    when the stream ends is [Pending], a JavaScript exception is [Raised]. *)

From stdpp Require Import gmap strings list.
From Stdlib Require Import ZArith QArith Qround Lia Floats.
From Stdlib Require Import Lqa Ascii.

Local Open Scope Z_scope.

(** ** JavaScript primitives *)

Module JS.

(** [Math.floor] and [Math.round] on exact rationals.  [Math.round]
    rounds halves towards plus infinity. *)
Definition Math_floor (q : Q) : Z := Qfloor q.
Definition Math_round (q : Q) : Z := Qfloor (q + (1 # 2))%Q.

(** Exceptions the embedded code can raise. *)
Inductive exn : Type :=
| Error (message : string)
| TypeError (message : string).

(** Outcome of a computation that consumes [Math.random()] draws. *)
Inductive outcome (A : Type) : Type :=
| Done (a : A) (rest : list Q)
| Pending
| Raised (e : exn).
Arguments Done {A} a rest.
Arguments Pending {A}.
Arguments Raised {A} e.

Definition Rand (A : Type) : Type := list Q -> outcome A.

#[export] Instance rand_ret : MRet Rand := fun A a rs => Done a rs.

#[export] Instance rand_bind : MBind Rand := fun A B k m rs =>
  match m rs with
  | Done a rest => k a rest
  | Pending => Pending
  | Raised e => Raised e
  end.

Definition throw {A} (e : exn) : Rand A := fun _ => Raised e.

(** [Math.random()]: the next draw of the stream. *)
Definition Math_random : Rand Q :=
  fun rs =>
    match rs with
    | [] => Pending
    | r :: rest => Done r rest
    end.

(** The contract of [Math.random()]: a number in [[0, 1)]. *)
Definition unit_draw (r : Q) : Prop := (0 <= r)%Q /\ (r < 1)%Q.

(** part_000, line 250:
    [return Math.floor(Math.random() * (max - min + 1)) + min;] *)
Definition randomNumOf (r : Q) (min max : Z) : Z :=
  Math_floor (r * inject_Z (max - min + 1)) + min.

Definition getRandomNum (min max : Z) : Rand Z :=
  r ← Math_random; mret (randomNumOf r min max).

(** A computation that returns or is still waiting for draws, but does not
    throw. *)
Definition quiet {A} (o : outcome A) : Prop :=
  match o with Raised _ => False | _ => True end.

(** A computation that returns whenever at least [k] draws are left, and
    takes at most [k] of them. *)
Definition within {A} (k : nat) (m : Rand A) : Prop :=
  forall rs, (k <= length rs)%nat ->
             exists a rest, m rs = Done a rest /\
                            (length rs <= length rest + k)%nat.

End JS.

(** ** The T-Rex runner (src/unnamed/part_000) *)

Module TRex.
Import JS.

(** *** Collision boxes (part_000, line 631) *)

Record CollisionBox : Type := mkCollisionBox {
  box_x : Z;
  box_y : Z;
  box_width : Z;
  box_height : Z
}.

(** part_000, line 4087: the axis-aligned bounding box test. *)
Definition boxCompare (tRexBox obstacleBox : CollisionBox) : bool :=
  let obstacleBoxX := box_x obstacleBox in
  (box_x tRexBox <? obstacleBoxX + box_width obstacleBox)
  && (box_x tRexBox + box_width tRexBox >? obstacleBoxX)
  && (box_y tRexBox <? box_y obstacleBox + box_height obstacleBox)
  && (box_height tRexBox + box_y tRexBox >? box_y obstacleBox).

(** part_000, line 4078. *)
Definition createAdjustedCollisionBox (box adjustment : CollisionBox)
  : CollisionBox :=
  mkCollisionBox (box_x box + box_x adjustment) (box_y box + box_y adjustment)
                 (box_width box) (box_height box).

(** *** Obstacle types (the [OBSTACLES] tables, part_000, line 697) *)

(** [yPos] is a number, or an array of heights with a mobile variant. *)
Inductive YPos : Type :=
| FixedY (y : Z)
| VariableY (yPos yPosMobile : list Z).

Record ObstacleType : Type := mkObstacleType {
  type_name : string;            (* [type] *)
  type_width : Z;
  type_height : Z;
  type_yPos : YPos;
  multipleSpeed : Q;
  minGap : Q;
  minSpeed : Q;
  type_collisionBoxes : list CollisionBox;
  type_speedOffset : Q           (* [0] when the table has no [speedOffset] *)
}.

Definition CACTUS_SMALL : ObstacleType :=
  mkObstacleType "CACTUS_SMALL" 17 35 (FixedY 105) 4 120 0
    [mkCollisionBox 0 7 5 27; mkCollisionBox 4 0 6 34; mkCollisionBox 10 4 7 14]
    0.

Definition CACTUS_LARGE : ObstacleType :=
  mkObstacleType "CACTUS_LARGE" 25 50 (FixedY 90) 7 120 0
    [mkCollisionBox 0 12 7 38; mkCollisionBox 8 0 7 49;
     mkCollisionBox 13 10 10 38]
    0.

Definition PTERODACTYL : ObstacleType :=
  mkObstacleType "PTERODACTYL" 46 40 (VariableY [100; 75; 50] [100; 50])
    999 150 8.5
    [mkCollisionBox 15 15 16 5; mkCollisionBox 18 21 24 6;
     mkCollisionBox 2 14 4 3; mkCollisionBox 6 10 4 7;
     mkCollisionBox 10 8 6 9]
    0.8.

Definition COLLECTABLE : ObstacleType :=
  mkObstacleType "COLLECTABLE" 31 24 (FixedY 104) 1000 9999 0
    [mkCollisionBox 0 0 32 25]
    0.

(** [spriteDefinitionByType.original.OBSTACLES]. *)
Definition original_OBSTACLES : list ObstacleType :=
  [CACTUS_SMALL; CACTUS_LARGE; PTERODACTYL; COLLECTABLE].

(** *** Globals read by the obstacle code *)

Record Env : Type := mkEnv {
  Obstacle_types : list ObstacleType;      (* [Obstacle.types] *)
  MAX_OBSTACLE_LENGTH : Z;                 (* [Obstacle.MAX_OBSTACLE_LENGTH] *)
  MAX_OBSTACLE_DUPLICATION : Z;            (* [Runner.config] *)
  slowDown : bool;                         (* [Runner.slowDown] *)
  audioCues : bool;                        (* [Runner.audioCues] *)
  IS_MOBILE : bool;
  isAltGameModeEnabled : bool;             (* [Runner.isAltGameModeEnabled()] *)
  alt_TREX_COLLISION_BOXES : list CollisionBox
    (* [Runner.spriteDefinition.TREX.COLLISION_BOXES] *)
}.

(** part_000, line 2394: [Obstacle.MAX_GAP_COEFFICIENT = 1.5]; both sprite
    definitions that can overwrite it carry the same value. *)
Definition MAX_GAP_COEFFICIENT : Q := 1.5.

(** The globals as the script leaves them after loading. *)
Definition defaultEnv : Env :=
  mkEnv original_OBSTACLES 3 2 false false false false [].

(** *** The player *)

Record TrexConfig : Type := mkTrexConfig { WIDTH : Z; HEIGHT : Z }.

Record Trex : Type := mkTrex {
  tRex_xPos : Z;
  tRex_yPos : Z;
  tRex_config : TrexConfig;
  ducking : bool
}.

(** part_000, line 1368 and line 1397. *)
Definition Trex_config : TrexConfig := mkTrexConfig 44 47.

Definition Trex_collisionBoxes_DUCKING : list CollisionBox :=
  [mkCollisionBox 1 18 55 25].

Definition Trex_collisionBoxes_RUNNING : list CollisionBox :=
  [mkCollisionBox 22 0 17 16; mkCollisionBox 1 18 30 9;
   mkCollisionBox 10 35 14 8; mkCollisionBox 1 24 29 5;
   mkCollisionBox 5 30 21 4; mkCollisionBox 9 34 15 4].

(** *** Obstacles (part_000, line 2228) *)

Record Obstacle : Type := mkObstacle {
  typeConfig : ObstacleType;
  gapCoefficient : Q;
  size : Z;
  remove : bool;
  xPos : Z;
  yPos : Z;
  width : Z;
  collisionBoxes : list CollisionBox;
  gap : Z;
  speedOffset : Q;
  followingObstacleCreated : bool
}.

(** *** checkForCollision (part_000, line 4050) *)

Definition tRexBox_of (tRex : Trex) : CollisionBox :=
  mkCollisionBox (tRex_xPos tRex + 1) (tRex_yPos tRex + 1)
                 (WIDTH (tRex_config tRex) - 2) (HEIGHT (tRex_config tRex) - 2).

Definition obstacleBox_of (obstacle : Obstacle) : CollisionBox :=
  mkCollisionBox (xPos obstacle + 1) (yPos obstacle + 1)
                 (type_width (typeConfig obstacle) * size obstacle - 2)
                 (type_height (typeConfig obstacle) - 2).

Definition tRexCollisionBoxes_of (env : Env) (tRex : Trex)
  : list CollisionBox :=
  if isAltGameModeEnabled env then alt_TREX_COLLISION_BOXES env
  else if ducking tRex then Trex_collisionBoxes_DUCKING
       else Trex_collisionBoxes_RUNNING.

(** The inner loop over the obstacle's boxes, for one box of the player. *)
Fixpoint scanObstacleBoxes (tRexBox obstacleBox tBox : CollisionBox)
  (boxes : list CollisionBox) : option (CollisionBox * CollisionBox) :=
  match boxes with
  | [] => None
  | oBox :: boxes' =>
      let adjTrexBox := createAdjustedCollisionBox tBox tRexBox in
      let adjObstacleBox := createAdjustedCollisionBox oBox obstacleBox in
      if boxCompare adjTrexBox adjObstacleBox
      then Some (adjTrexBox, adjObstacleBox)
      else scanObstacleBoxes tRexBox obstacleBox tBox boxes'
  end.

(** The outer loop over the player's boxes. *)
Fixpoint scanTrexBoxes (tRexBox obstacleBox : CollisionBox)
  (tBoxes oBoxes : list CollisionBox) : option (CollisionBox * CollisionBox) :=
  match tBoxes with
  | [] => None
  | tBox :: tBoxes' =>
      match scanObstacleBoxes tRexBox obstacleBox tBox oBoxes with
      | Some hit => Some hit
      | None => scanTrexBoxes tRexBox obstacleBox tBoxes' oBoxes
      end
  end.

(** The function returns the pair of boxes that touch, or [undefined]
    ([None]); callers only test the result for truthiness. *)
Definition checkForCollision (env : Env) (obstacle : Obstacle) (tRex : Trex)
  : option (CollisionBox * CollisionBox) :=
  let tRexBox := tRexBox_of tRex in
  let obstacleBox := obstacleBox_of obstacle in
  if boxCompare tRexBox obstacleBox
  then scanTrexBoxes tRexBox obstacleBox
         (tRexCollisionBoxes_of env tRex) (collisionBoxes obstacle)
  else None.

(** *** Obstacle construction (part_000, lines 2228-2320) *)

(** JavaScript [<] and [>] on numbers. *)
Definition Qltb (a b : Q) : bool := negb (Qle_bool b a).
Definition Qgtb (a b : Q) : bool := Qltb b a.

(** Array read at a numeric index; [None] is [undefined]. *)
Definition at_index {A} (l : list A) (i : Z) : option A :=
  if i <? 0 then None else l !! Z.to_nat i.

(** part_000, line 2368: [getGap], as a function of the draw taken by
    [getRandomNum]. *)
Definition minGap_of (width : Z) (ty : ObstacleType) (gapCoefficient speed : Q)
  : Z :=
  Math_round (inject_Z width * speed + minGap ty * gapCoefficient).

Definition maxGap_of (minGap : Z) : Z :=
  Math_round (inject_Z minGap * MAX_GAP_COEFFICIENT).

Definition getGap (o : Obstacle) (gapCoefficient speed : Q) : Rand Z :=
  let minGap := minGap_of (width o) (typeConfig o) gapCoefficient speed in
  let maxGap := maxGap_of minGap in
  getRandomNum minGap maxGap.

(** The adjustment of the middle and last collision boxes of a grouped
    obstacle (part_000, lines 2299-2303).  Reading a box that the type does
    not have is a [TypeError] in JavaScript. *)
Definition adjustCollisionBoxes (width : Z) (boxes : list CollisionBox)
  : option (list CollisionBox) :=
  match boxes !! 0%nat, boxes !! 1%nat, boxes !! 2%nat with
  | Some b0, Some b1, Some b2 =>
      let b1' := mkCollisionBox (box_x b1) (box_y b1)
                   (width - box_width b0 - box_width b2) (box_height b1) in
      let b2' := mkCollisionBox (width - box_width b2) (box_y b2)
                   (box_width b2) (box_height b2) in
      Some (<[2%nat := b2']> (<[1%nat := b1']> boxes))
  | _, _, _ => None
  end.

(** The random height of an obstacle whose type lists several.  For a draw
    in [[0, 1)] and a non-empty list the index is in range; outside that,
    JavaScript leaves [yPos] [undefined], which the model renders as [0]. *)
Definition pick_yPos (env : Env) (ty : ObstacleType) : Rand Z :=
  match type_yPos ty with
  | FixedY y => mret y
  | VariableY desktop mobile =>
      let yPosConfig := if IS_MOBILE env then mobile else desktop in
      i ← getRandomNum 0 (Z.of_nat (length yPosConfig) - 1);
      mret (default 0 (at_index yPosConfig i))
  end.

Definition pick_speedOffset (ty : ObstacleType) : Rand Q :=
  if Qeq_bool (type_speedOffset ty) 0 then mret 0%Q
  else r ← Math_random;
       mret (if Qgtb r 0.5 then type_speedOffset ty
             else (- type_speedOffset ty)%Q).

(** [new Obstacle(canvasCtx, type, spriteImgPos, dimensions, gapCoefficient,
    speed, opt_xOffset, opt_isAltGameMode)]: the constructor followed by
    [init(speed)].  Drawing is left out. *)
Definition new_Obstacle (env : Env) (type : ObstacleType) (dimensions_WIDTH : Z)
  (gapCoefficient speed : Q) (opt_xOffset : Z) : Rand Obstacle :=
  let gapCoefficient :=
    if slowDown env then (gapCoefficient * 2)%Q else gapCoefficient in
  size ← getRandomNum 1 (MAX_OBSTACLE_LENGTH env);
  let xPos := dimensions_WIDTH + opt_xOffset in
  (* init(speed) *)
  let boxes := type_collisionBoxes type in
  let size := if (size >? 1) && Qgtb (multipleSpeed type) speed then 1 else size in
  let width := type_width type * size in
  yPos ← pick_yPos env type;
  boxes ← (if size >? 1
            then match adjustCollisionBoxes width boxes with
                 | Some boxes' => mret boxes'
                 | None => throw (TypeError "collisionBoxes")
                 end
            else mret boxes);
  speedOffset ← pick_speedOffset type;
  let this := mkObstacle type gapCoefficient size false xPos yPos width boxes
                0 speedOffset false in
  gap ← getGap this gapCoefficient speed;
  let gap := if audioCues env then gap * 2 else gap in
  mret (mkObstacle type gapCoefficient size false xPos yPos width boxes
          gap speedOffset false).

(** *** The horizon (part_000, line 2407) *)

Record Horizon : Type := mkHorizon {
  obstacles : list Obstacle;
  obstacleHistory : list string;
  horizon_gapCoefficient : Q;
  dimensions_WIDTH : Z;
  altGameModeActive : bool
}.

(** The horizon as its constructor leaves it: no obstacles, an empty
    history. *)
Definition new_Horizon (dimensions_WIDTH : Z) (gapCoefficient : Q) : Horizon :=
  mkHorizon [] [] gapCoefficient dimensions_WIDTH false.

(** part_000, line 2627. *)
Definition duplicateObstacleCheck (env : Env) (h : Horizon)
  (nextObstacleType : string) : bool :=
  let duplicateCount :=
    fold_left (fun duplicateCount t =>
                 if String.eqb t nextObstacleType
                 then duplicateCount + 1 else 0)
              (obstacleHistory h) 0 in
  duplicateCount >=? MAX_OBSTACLE_DUPLICATION env.

(** [Array.prototype.splice(start)]: drop everything from [start] on. *)
Definition splice_from {A} (start : Z) (l : list A) : list A :=
  if start <? 0
  then take (Z.to_nat (Z.max 0 (Z.of_nat (length l) + start))) l
  else take (Z.to_nat start) l.

(** The last index a type may be drawn from (the source calls it
    [obstacleCount]); [None] when [Obstacle.types] is empty, where the
    source dereferences [undefined]. *)
Definition obstacleCount_of (env : Env) (h : Horizon) : option Z :=
  let n := Z.of_nat (length (Obstacle_types env)) in
  match at_index (Obstacle_types env) (n - 1) with
  | None => None
  | Some lastType =>
      Some (if negb (String.eqb (type_name lastType) "COLLECTABLE")
               || (isAltGameModeEnabled env && negb (altGameModeActive h)
                   || altGameModeActive h)
            then n - 1 else n - 2)
  end.

(** Whether a candidate type is turned down (part_000, lines 2609-2610). *)
Definition rejected (env : Env) (h : Horizon) (obstacleCount : Z)
  (currentSpeed : Q) (obstacleType : ObstacleType) : bool :=
  ((obstacleCount >? 0) && duplicateObstacleCheck env h (type_name obstacleType))
  || Qltb currentSpeed (minSpeed obstacleType).

(** The [else] branch of [addNewObstacle]: build the obstacle, push it, and
    record its type. *)
Definition placeObstacle (env : Env) (h : Horizon) (currentSpeed : Q)
  (obstacleType : ObstacleType) : Rand Horizon :=
  o ← new_Obstacle env obstacleType (dimensions_WIDTH h)
        (horizon_gapCoefficient h) currentSpeed (type_width obstacleType);
  let history := type_name obstacleType :: obstacleHistory h in
  let history :=
    if Z.of_nat (length history) >? 1
    then splice_from (MAX_OBSTACLE_DUPLICATION env) history else history in
  mret (mkHorizon (obstacles h ++ [o]) history (horizon_gapCoefficient h)
          (dimensions_WIDTH h) (altGameModeActive h)).

(** part_000, line 2599.  The function calls itself until a candidate is
    accepted.  Each attempt with [obstacleCount > 0] takes one draw, so the
    recursion is on the stream of draws: a stream that ends before a
    candidate is accepted leaves the call [Pending].  With
    [obstacleCount <= 0] an attempt takes no draw and is repeated
    unchanged, so a rejection there never returns. *)
Fixpoint addNewObstacle (env : Env) (h : Horizon) (currentSpeed : Q)
  (rs : list Q) {struct rs} : outcome Horizon :=
  match obstacleCount_of env h with
  | None => Raised (TypeError "Obstacle.types")
  | Some obstacleCount =>
      if obstacleCount >? 0 then
        match rs with
        | [] => Pending
        | r :: rest =>
            let obstacleTypeIndex := randomNumOf r 0 obstacleCount in
            match at_index (Obstacle_types env) obstacleTypeIndex with
            | None => Raised (TypeError "obstacleType")
            | Some obstacleType =>
                if rejected env h obstacleCount currentSpeed obstacleType
                then addNewObstacle env h currentSpeed rest
                else placeObstacle env h currentSpeed obstacleType rest
            end
        end
      else
        match at_index (Obstacle_types env) 0 with
        | None => Raised (TypeError "obstacleType")
        | Some obstacleType =>
            if rejected env h obstacleCount currentSpeed obstacleType
            then Pending
            else placeObstacle env h currentSpeed obstacleType rs
        end
  end.

(** part_000, line 2593 and line 2639: the other writers of [obstacles];
    neither touches the history. *)
Definition removeFirstObstacle (h : Horizon) : Horizon :=
  mkHorizon (tail (obstacles h)) (obstacleHistory h) (horizon_gapCoefficient h)
    (dimensions_WIDTH h) (altGameModeActive h).

Definition Horizon_reset (h : Horizon) : Horizon :=
  mkHorizon [] (obstacleHistory h) (horizon_gapCoefficient h)
    (dimensions_WIDTH h) (altGameModeActive h).

(** *** The game loop (part_000, line 2813 and lines 3300-3334) *)

Record RunnerConfig : Type := mkRunnerConfig {
  ACCELERATION : Q;
  MAX_SPEED : Q;
  SPEED : Q;
  FLASH_DURATION : Q
}.

(** [Object.assign(Runner.config, Runner.normalConfig)]. *)
Definition normalConfig : RunnerConfig := mkRunnerConfig 0.001 13 6 1000.

Record Runner : Type := mkRunner {
  config : RunnerConfig;
  currentSpeed : Q;
  distanceRan : Q;
  msPerFrame : Q;
  runningTime : Q;
  altGameModeFlashTimer : option Q;
  playing : bool;
  paused : bool;
  crashed : bool;
  horizon : Horizon;
  tRex : Trex
}.

(** [Runner.gameOver]: [stop()] clears [playing] and sets [paused]; then
    [crashed] is set.  Speed and distance are not written. *)
Definition gameOver (r : Runner) : Runner :=
  mkRunner (config r) (currentSpeed r) (distanceRan r) (msPerFrame r)
    (runningTime r) (altGameModeFlashTimer r) false true true
    (horizon r) (tRex r).

(** The speed ramp, lines 3328-3330:
    [if (this.currentSpeed < this.config.MAX_SPEED)
       this.currentSpeed += this.config.ACCELERATION;] *)
Definition rampSpeed (cfg : RunnerConfig) (currentSpeed : Q) : Q :=
  if Qltb currentSpeed (MAX_SPEED cfg)
  then (currentSpeed + ACCELERATION cfg)%Q else currentSpeed.

(** [let collision = hasObstacles &&
       checkForCollision(this.horizon.obstacles[0], this.tRex);]
    With no obstacle on the horizon the call reads a field of
    [undefined]. *)
Definition collisionOf (env : Env) (hasObstacles : bool) (r : Runner)
  : exn + bool :=
  if hasObstacles then
    match obstacles (horizon r) !! 0%nat with
    | None => inl (TypeError "obstacle")
    | Some obstacle =>
        inr (bool_decide (is_Some (checkForCollision env obstacle (tRex r))))
    end
  else inr false.

(** Whether the collision is with a collectable in the alternative game
    mode (line 3317), which consumes the obstacle instead of ending. *)
Definition collects (env : Env) (collision : bool) (r : Runner) : bool :=
  isAltGameModeEnabled env && collision &&
  match obstacles (horizon r) !! 0%nat with
  | Some o => String.eqb (type_name (typeConfig o)) "COLLECTABLE"
  | None => false
  end.

(** The part of [Runner.update] from the collision check to the speed ramp
    (lines 3300-3334), run while [playing], after the horizon and the
    player have been advanced.  [deltaTime] and [hasObstacles] are the
    values of the local variables at that point.  Sounds, the audio-cue
    flag of the obstacle and the flashing of the player are left out. *)
Definition update_collision (env : Env) (deltaTime : Q) (hasObstacles : bool)
  (r : Runner) : exn + Runner :=
  match collisionOf env hasObstacles r with
  | inl e => inl e
  | inr collision =>
      let '(r, collision) :=
        if collects env collision r
        then (mkRunner (config r) (currentSpeed r) (distanceRan r)
                (msPerFrame r) 0 (Some (FLASH_DURATION (config r)))
                (playing r) (paused r) (crashed r)
                (removeFirstObstacle (horizon r)) (tRex r), false)
        else (r, collision) in
      if negb collision
      then inr (mkRunner (config r)
                  (rampSpeed (config r) (currentSpeed r))
                  (distanceRan r + currentSpeed r * deltaTime / msPerFrame r)%Q
                  (msPerFrame r) (runningTime r) (altGameModeFlashTimer r)
                  (playing r) (paused r) (crashed r) (horizon r) (tRex r))
      else inr (gameOver r)
  end.

(** The same ramp on IEEE binary64 numbers, which is what the engine
    evaluates. *)
Definition rampSpeed_binary64 (MAX_SPEED ACCELERATION currentSpeed : float)
  : float :=
  if PrimFloat.ltb currentSpeed MAX_SPEED
  then PrimFloat.add currentSpeed ACCELERATION else currentSpeed.

(** [n] collision-free ticks of the ramp of the normal configuration
    ([MAX_SPEED = 13], [ACCELERATION = 0.001]);
    [0x1.0624dd2f1a9fcp-10] is the double that the literal [0.001]
    denotes. *)
Definition ACCELERATION_binary64 : float := 0x1.0624dd2f1a9fcp-10.

Definition rampTicks_binary64 (n : N) (currentSpeed : float) : float :=
  N.iter n (rampSpeed_binary64 13 ACCELERATION_binary64) currentSpeed.

(** One frame of play from the collision check on.  What
    [this.horizon.update] and the player's own update have made of the
    scene in this frame is an input. *)
Record Frame : Type := mkFrame {
  frame_deltaTime : Q;
  frame_hasObstacles : bool;
  frame_horizon : Horizon;
  frame_tRex : Trex
}.

Definition frame (env : Env) (f : Frame) (r : Runner) : exn + Runner :=
  if playing r
  then update_collision env (frame_deltaTime f) (frame_hasObstacles f)
         (mkRunner (config r) (currentSpeed r) (distanceRan r) (msPerFrame r)
            (runningTime r) (altGameModeFlashTimer r) (playing r) (paused r)
            (crashed r) (frame_horizon f) (frame_tRex f))
  else inr r.

Fixpoint frames (env : Env) (fs : list Frame) (r : Runner) : exn + Runner :=
  match fs with
  | [] => inr r
  | f :: fs' =>
      match frame env f r with
      | inl e => inl e
      | inr r' => frames env fs' r'
      end
  end.

(** *** Vocabulary of the properties *)

(** The rectangle test as the specification words it:
    [a.x < b.x+b.w && a.x+a.w > b.x && a.y < b.y+b.h && a.y+a.h > b.y]. *)
Definition overlaps (a b : CollisionBox) : Prop :=
  box_x a < box_x b + box_width b /\ box_x a + box_width a > box_x b /\
  box_y a < box_y b + box_height b /\ box_y a + box_height a > box_y b.

(** A box shrunk by one unit on every side. *)
Definition inset (b : CollisionBox) : CollisionBox :=
  mkCollisionBox (box_x b + 1) (box_y b + 1) (box_width b - 2) (box_height b - 2).

(** The outer bounding boxes of the player and of an obstacle. *)
Definition outer_tRex (tRex : Trex) : CollisionBox :=
  mkCollisionBox (tRex_xPos tRex) (tRex_yPos tRex)
    (WIDTH (tRex_config tRex)) (HEIGHT (tRex_config tRex)).

Definition outer_obstacle (o : Obstacle) : CollisionBox :=
  mkCollisionBox (xPos o) (yPos o)
    (type_width (typeConfig o) * size o) (type_height (typeConfig o)).

(** A sub-box moved to the origin of its owner's (inset) box. *)
Definition translated (sub owner : CollisionBox) : CollisionBox :=
  mkCollisionBox (box_x sub + box_x owner) (box_y sub + box_y owner)
    (box_width sub) (box_height sub).

(** The sub-boxes of the player in its current pose. *)
Definition player_boxes (env : Env) (tRex : Trex) : list CollisionBox :=
  if isAltGameModeEnabled env then alt_TREX_COLLISION_BOXES env
  else if ducking tRex then [mkCollisionBox 1 18 55 25]
       else Trex_collisionBoxes_RUNNING.

(** The types of a table have sensible dimensions. *)
Definition sane_type (ty : ObstacleType) : Prop :=
  0 <= type_width ty /\ (0 <= minGap ty)%Q.

(** A call of the spawner that has more than one type to draw from
    ([obstacleCount > 0]), under the configured cap of two. *)
Definition several_types (env : Env) (h : Horizon) : Prop :=
  MAX_OBSTACLE_DUPLICATION env = 2 /\
  exists n, obstacleCount_of env h = Some n /\ 0 < n.

(** The types of the obstacles spawned on a horizon, most recent first,
    along any run of the game: calls of [addNewObstacle] under whatever
    globals hold at the time, and in between anything else, none of which
    writes the history. *)
Inductive spawned (h0 : Horizon) : list string -> Horizon -> Prop :=
| spawned_start : spawned h0 [] h0
| spawned_add env log h s rs h' rest o :
    spawned h0 log h ->
    several_types env h ->
    addNewObstacle env h s rs = Done h' rest ->
    last (obstacles h') = Some o ->
    spawned h0 (type_name (typeConfig o) :: log) h'
| spawned_other log h h' :
    spawned h0 log h ->
    obstacleHistory h' = obstacleHistory h ->
    spawned h0 log h'.

(** No type three times in a row. *)
Definition no_run3 (log : list string) : Prop :=
  forall pre t post, log <> pre ++ [t; t; t] ++ post.

(** The candidate type that a draw selects. *)
Definition candidate (env : Env) (h : Horizon) (r : Q) : option ObstacleType :=
  match obstacleCount_of env h with
  | Some n => if n >? 0 then at_index (Obstacle_types env) (randomNumOf r 0 n)
              else at_index (Obstacle_types env) 0
  | None => None
  end.

(** A candidate fails a check of the spawner: its type fills the recorded
    history, or it needs more speed than the current one. *)
Definition fails_check (env : Env) (h : Horizon) (s : Q) (ty : ObstacleType)
  : Prop :=
  duplicateObstacleCheck env h (type_name ty) = true \/ (s < minSpeed ty)%Q.

(** A type whose obstacles can be grouped at speed [s] has the three
    collision boxes that grouping adjusts. *)
Definition groupable (s : Q) (ty : ObstacleType) : Prop :=
  Qgtb (multipleSpeed ty) s = true \/
  (3 <= length (type_collisionBoxes ty))%nat.


End TRex.

(** ** LoadTimeData (part_000, lines 31-62) *)

Module LoadTimeData.
Import JS.

(** Objects and functions are held by reference: the readers hand them on
    and never look inside one.  [identity] tells which object it is, [text]
    is what converting it to a string gives (only error messages use
    it). *)
Record reference : Type := mkReference {
  identity : string;
  text : string
}.

(** The values a data dictionary holds. *)
Inductive value : Type :=
| VUndefined
| VNull
| VBool (b : bool)
| VNumber (q : Q)
| VString (s : string)
| VObject (r : reference).

(** [typeof value === 'undefined']. *)
Definition is_undefined (v : value) : bool :=
  match v with VUndefined => true | _ => false end.

(** The singleton: [data_] is [null] or the backing object, given by its
    own properties. *)
Record LoadTimeData : Type := mkLoadTimeData {
  data_ : option (gmap string value)
}.

(** part_000, line 10. *)
Definition assert (value : bool) (message : string) : exn + unit :=
  if value then inr tt
  else inl (Error ("Assertion failed"
                   ++ (if String.eqb message "" then ""
                       else ": " ++ message))).

(** The backing object is an ordinary object: the map holds its own
    properties, and what it does not hold itself it inherits from
    [Object.prototype].  These are the properties of [Object.prototype] with
    a string key: eleven functions, and the accessor [__proto__], whose
    getter gives the prototype of the object it is read on, which for an
    ordinary object is [Object.prototype] itself. *)
Definition builtin (name : string) : value :=
  VObject (mkReference ("Object.prototype." ++ name)
             ("function " ++ name ++ "() { [native code] }")).

Definition Object_prototype : gmap string value :=
  list_to_map
    [("constructor",
      VObject (mkReference "Object" "function Object() { [native code] }"));
     ("__defineGetter__", builtin "__defineGetter__");
     ("__defineSetter__", builtin "__defineSetter__");
     ("hasOwnProperty", builtin "hasOwnProperty");
     ("__lookupGetter__", builtin "__lookupGetter__");
     ("__lookupSetter__", builtin "__lookupSetter__");
     ("isPrototypeOf", builtin "isPrototypeOf");
     ("propertyIsEnumerable", builtin "propertyIsEnumerable");
     ("toString", builtin "toString");
     ("valueOf", builtin "valueOf");
     ("__proto__",
      VObject (mkReference "Object.prototype" "[object Object]"));
     ("toLocaleString", builtin "toLocaleString")].

(** Property read [this.data_[id]]: the object's own property, or else the
    one it inherits; a key found in neither reads as [undefined]. *)
Definition read (d : gmap string value) (id : string) : value :=
  match d !! id with
  | Some v => v
  | None => default VUndefined (Object_prototype !! id)
  end.

(** [id in this.data_]: an own or an inherited property. *)
Definition has (d : gmap string value) (id : string) : bool :=
  bool_decide (is_Some (d !! id))
  || bool_decide (is_Some (Object_prototype !! id)).

(** [set data(value)], line 40.  The result is the object after the call
    and the exception, if one was thrown. *)
Definition set_data (v : gmap string value) (this : LoadTimeData)
  : LoadTimeData * option exn :=
  match assert (negb (bool_decide (is_Some (data_ this)))) "Re-setting data." with
  | inl e => (this, Some e)
  | inr _ => (mkLoadTimeData (Some v), None)
  end.

(** [getValue(id)], line 57. *)
Definition getValue (id : string) (this : LoadTimeData) : exn + value :=
  match assert (bool_decide (is_Some (data_ this)))
               "No data. Did you remember to include strings.js?" with
  | inl e => inl e
  | inr _ =>
      let value := match data_ this with
                   | Some d => read d id
                   | None => VUndefined
                   end in
      match assert (negb (is_undefined value))
                   ("Could not find value for " ++ id) with
      | inl e => inl e
      | inr _ => inr value
      end
  end.

End LoadTimeData.

(** ** Snake (src/toxiroff_488/java12.js) *)

Module Snake.
Import JS.

Record Cell : Type := mkCell { x : Z; y : Z }.

(** [a.x === b.x && a.y === b.y]. *)
Definition same_cell (a b : Cell) : bool := (x a =? x b) && (y a =? y b).

(** The script's global variables. *)
Record Game : Type := mkGame {
  snake : list Cell;
  food : Cell;
  obstacles : list Cell;
  dx : Z;
  dy : Z;
  score : Z;
  gameSpeed : Q;
  isFastMode : bool;
  isSlowMode : bool;
  isWrapAround : bool
}.

(** How a call of [drawGame] that returns has ended: it went on to draw
    the scene, or it left through [gameOver(); return;].  Either way [g] is
    the state it leaves behind. *)
Inductive Tick : Type :=
| Drawn (g : Game)
| GameOver (g : Game).

Section Grid.

(** [tileCount = canvas.width / gridSize], an integer for the canvas of the
    page (the element is outside the script). *)
Variable tileCount : Z.

(** [Math.floor(Math.random() * tileCount)]. *)
Definition randomTile : Rand Z :=
  r ← Math_random; mret (Math_floor (r * inject_Z tileCount)).

(** [{ x: Math.floor(...), y: Math.floor(...) }]. *)
Definition randomCell : Rand Cell :=
  cx ← randomTile; cy ← randomTile; mret (mkCell cx cy).

(** [list.some(c => c.x === p.x && c.y === p.y)]. *)
Definition some_at (cells : list Cell) (p : Cell) : bool :=
  existsb (fun c => same_cell c p) cells.

(** The condition of the [do ... while] of [generateObstacles],
    lines 36-38. *)
Definition obstacle_clash (snake : list Cell) (food : Cell)
  (obstacles : list Cell) (obstacle : Cell) : bool :=
  some_at snake obstacle
  || ((x obstacle =? x food) && (y obstacle =? y food))
  || some_at obstacles obstacle.

(** The [do ... while] loop: draw cells until one is free.  Every round
    takes two draws; the loop is [Pending] when the stream ends first. *)
Fixpoint drawObstacle (snake : list Cell) (food : Cell)
  (obstacles : list Cell) (rs : list Q) {struct rs} : outcome Cell :=
  match rs with
  | rx :: ry :: rest =>
      let obstacle := mkCell (Math_floor (rx * inject_Z tileCount))
                             (Math_floor (ry * inject_Z tileCount)) in
      if obstacle_clash snake food obstacles obstacle
      then drawObstacle snake food obstacles rest
      else Done obstacle rest
  | _ => Pending
  end.

(** The [for] loop of [generateObstacles], with [n] rounds to go. *)
Fixpoint generateObstacles_from (n : nat) (snake : list Cell) (food : Cell)
  (obstacles : list Cell) : Rand (list Cell) :=
  match n with
  | O => mret obstacles
  | S n' =>
      obstacle ← drawObstacle snake food obstacles;
      generateObstacles_from n' snake food (obstacles ++ [obstacle])
  end.

(** Lines 27-41. *)
Definition generateObstacles (snake : list Cell) (food : Cell)
  : Rand (list Cell) :=
  generateObstacles_from 5 snake food [].

(** Lines 68-78; the interval timer itself is outside the model. *)
Definition updateGameSpeed (g : Game) : Game :=
  let gameSpeed := if isFastMode g then 50%Q
                   else if isSlowMode g then 200%Q else 100%Q in
  mkGame (snake g) (food g) (obstacles g) (dx g) (dy g) (score g) gameSpeed
    (isFastMode g) (isSlowMode g) (isWrapAround g).

Definition toggleFastMode (g : Game) : Game :=
  updateGameSpeed
    (mkGame (snake g) (food g) (obstacles g) (dx g) (dy g) (score g)
       (gameSpeed g) (negb (isFastMode g)) false (isWrapAround g)).

Definition toggleSlowMode (g : Game) : Game :=
  updateGameSpeed
    (mkGame (snake g) (food g) (obstacles g) (dx g) (dy g) (score g)
       (gameSpeed g) false (negb (isSlowMode g)) (isWrapAround g)).

Definition set_isWrapAround (b : bool) (g : Game) : Game :=
  mkGame (snake g) (food g) (obstacles g) (dx g) (dy g) (score g)
    (gameSpeed g) (isFastMode g) (isSlowMode g) b.

Definition toggleWrapAround : Game -> Game := set_isWrapAround true.
Definition disableWrapAround : Game -> Game := set_isWrapAround false.

(** Lines 81-85.  [%] is the remainder that takes the sign of the
    dividend. *)
Definition wrapAround (head : Cell) : Cell :=
  mkCell (Z.rem (x head + tileCount) tileCount)
         (Z.rem (y head + tileCount) tileCount).

Definition set_direction (dx dy : Z) (g : Game) : Game :=
  mkGame (snake g) (food g) (obstacles g) dx dy (score g) (gameSpeed g)
    (isFastMode g) (isSlowMode g) (isWrapAround g).

(** Lines 87-128.  The four [going...] flags are read once, before any of
    the [if] statements runs. *)
Definition changeDirection (keyCode : Z) (g : Game) : Game :=
  let LEFT_KEY := 37 in
  let RIGHT_KEY := 39 in
  let UP_KEY := 38 in
  let DOWN_KEY := 40 in
  let keyPressed := keyCode in
  let goingUp := dy g =? -1 in
  let goingDown := dy g =? 1 in
  let goingRight := dx g =? 1 in
  let goingLeft := dx g =? -1 in
  let g := if (keyPressed =? LEFT_KEY) && negb goingRight
           then set_direction (-1) 0 g else g in
  let g := if (keyPressed =? UP_KEY) && negb goingDown
           then set_direction 0 (-1) g else g in
  let g := if (keyPressed =? RIGHT_KEY) && negb goingLeft
           then set_direction 1 0 g else g in
  let g := if (keyPressed =? DOWN_KEY) && negb goingUp
           then set_direction 0 1 g else g in
  let g := if keyPressed =? 84 then toggleFastMode g else g in
  let g := if keyPressed =? 83 then toggleSlowMode g else g in
  let g := if keyPressed =? 87 then toggleWrapAround g else g in
  let g := if keyPressed =? 81 then disableWrapAround g else g in
  g.

(** Lines 201-218.  The [alert] shows the score of [g]; everything else is
    overwritten. *)
Definition gameOver (g : Game) : Rand Game :=
  let snake := [mkCell 10 10] in
  food ← randomCell;
  obstacles ← generateObstacles snake food;
  mret (updateGameSpeed
          (mkGame snake food obstacles 0 0 0 100 false false false)).

(** The [while] loop of lines 161-167: redraw the food while it lies on
    the snake or on an obstacle. *)
Definition food_clash (snake obstacles : list Cell) (food : Cell) : bool :=
  some_at snake food || some_at obstacles food.

Fixpoint redrawFood (snake obstacles : list Cell) (food : Cell)
  (rs : list Q) {struct rs} : outcome Cell :=
  if food_clash snake obstacles food then
    match rs with
    | rx :: ry :: rest =>
        redrawFood snake obstacles
          (mkCell (Math_floor (rx * inject_Z tileCount))
                  (Math_floor (ry * inject_Z tileCount))) rest
    | _ => Pending
    end
  else Done food rs.

(** The self-collision loop of lines 175-180: [head] against
    [snake[1..]]. *)
Definition hits_self (head : Cell) (snake : list Cell) : bool :=
  some_at (tail snake) head.

(** Lines 130-180 of [drawGame]; the canvas calls that follow are left
    out.  [head] is declared [const]: in the wraparound branch
    [head = wrapAround(head)] first evaluates the call and then fails on
    the assignment with a [TypeError], which ends the tick. *)
Definition drawGame (g : Game) : Rand Tick :=
  match snake g with
  | [] => throw (TypeError "snake[0]")
  | snake0 :: _ =>
      let head := mkCell (x snake0 + dx g) (y snake0 + dy g) in
      if (x head <? 0) || (x head >=? tileCount)
         || (y head <? 0) || (y head >=? tileCount)
      then
        if isWrapAround g
        then let _ := wrapAround head in
             throw (TypeError "Assignment to constant variable.")
        else g' ← gameOver g; mret (GameOver g')
      else
        if some_at (obstacles g) head
        then g' ← gameOver g; mret (GameOver g')
        else
          let snake1 := head :: snake g in      (* snake.unshift(head) *)
          g1 ← (if (x head =? x (food g)) && (y head =? y (food g))
                then
                  food1 ← randomCell;
                  food1 ← redrawFood snake1 (obstacles g) food1;
                  mret (updateGameSpeed
                          (mkGame snake1 food1 (obstacles g) (dx g) (dy g)
                             (score g + 10) (gameSpeed g * 0.95)%Q
                             (isFastMode g) (isSlowMode g) (isWrapAround g)))
                else                              (* snake.pop() *)
                  mret (mkGame (removelast snake1) (food g) (obstacles g)
                          (dx g) (dy g) (score g) (gameSpeed g)
                          (isFastMode g) (isSlowMode g) (isWrapAround g)));
          if hits_self head (snake g1)
          then g' ← gameOver g1; mret (GameOver g')
          else mret (Drawn g1)
  end.

(** *** Vocabulary of the properties *)

(** The head that a tick computes, and whether it leaves the grid. *)
Definition next_head (g : Game) (snake0 : Cell) : Cell :=
  mkCell (x snake0 + dx g) (y snake0 + dy g).

Definition outside (head : Cell) : bool :=
  (x head <? 0) || (x head >=? tileCount)
  || (y head <? 0) || (y head >=? tileCount).

(** A tick that ends in [gameOver()], called on the state [g1]. *)
Definition ends_in_gameOver (g1 : Game) : Rand Tick :=
  g' ← gameOver g1; mret (GameOver g').

(** Whether the head lands on the food (line 153). *)
Definition eats (g : Game) (head : Cell) : bool :=
  (x head =? x (food g)) && (y head =? y (food g)).

(** The state after a tick that does not eat: [unshift], then [pop]. *)
Definition moved (g : Game) (head : Cell) : Game :=
  mkGame (removelast (head :: snake g)) (food g) (obstacles g) (dx g) (dy g)
    (score g) (gameSpeed g) (isFastMode g) (isSlowMode g) (isWrapAround g).

(** The state after a tick that eats: the head is added, nothing is
    popped, and [food1] is the new food. *)
Definition fed (g : Game) (head food1 : Cell) : Game :=
  updateGameSpeed
    (mkGame (head :: snake g) food1 (obstacles g) (dx g) (dy g)
       (score g + 10) (gameSpeed g * 0.95)%Q
       (isFastMode g) (isSlowMode g) (isWrapAround g)).

(** The food placement of lines 156-167. *)
Definition placeFood (g : Game) (head : Cell) : Rand Cell :=
  food1 ← randomCell; redrawFood (head :: snake g) (obstacles g) food1.

End Grid.

End Snake.

(** ** More of LoadTimeData (part_000, lines 44-186) *)

Module LoadTimeDataMore.
Import JS LoadTimeData.

(** [id in this.data_], line 48. *)
Definition valueExists (id : string) (this : LoadTimeData) : exn + bool :=
  match assert (bool_decide (is_Some (data_ this)))
               "No data. Did you remember to include strings.js?" with
  | inl e => inl e
  | inr _ =>
      inr (match data_ this with
           | Some d => has d id
           | None => false
           end)
  end.

Section Printing.

(** [Number.prototype.toString], a builtin of the engine, used only in
    error messages. *)
Variable Number_toString : Q -> string.

(** The text that a template literal [${value}] inserts. *)
Definition show (v : value) : string :=
  match v with
  | VUndefined => "undefined"
  | VNull => "null"
  | VBool true => "true"
  | VBool false => "false"
  | VNumber q => Number_toString q
  | VString s => s
  | VObject r => text r
  end.

(** [getString(id)], line 68. *)
Definition getString (id : string) (this : LoadTimeData) : exn + string :=
  match getValue id this with
  | inl e => inl e
  | inr value =>
      match value with
      | VString s => inr s
      | _ => inl (Error ("Assertion failed: [" ++ show value ++ "] (" ++ id
                         ++ ") is not a string"))
      end
  end.

(** [getBoolean(id)], line 146. *)
Definition getBoolean (id : string) (this : LoadTimeData) : exn + bool :=
  match getValue id this with
  | inl e => inl e
  | inr value =>
      match value with
      | VBool b => inr b
      | _ => inl (Error ("Assertion failed: [" ++ show value ++ "] (" ++ id
                         ++ ") is not a boolean"))
      end
  end.

(** [getInteger(id)], line 156: a number that equals its own floor. *)
Definition getInteger (id : string) (this : LoadTimeData) : exn + Z :=
  match getValue id this with
  | inl e => inl e
  | inr value =>
      match value with
      | VNumber q =>
          if Qeq_bool q (inject_Z (Math_floor q)) then inr (Math_floor q)
          else inl (Error ("Assertion failed: Number isn't integer: "
                           ++ Number_toString q))
      | _ => inl (Error ("Assertion failed: [" ++ show value ++ "] (" ++ id
                         ++ ") is not a number"))
      end
  end.

End Printing.


(** [resetForTesting(newData = null)], line 177, and [isInitialized()],
    line 183. *)
Definition resetForTesting (newData : option (gmap string value))
  (this : LoadTimeData) : LoadTimeData := mkLoadTimeData newData.

Definition isInitialized (this : LoadTimeData) : bool :=
  bool_decide (is_Some (data_ this)).

(** *** substituteString (line 95) *)

(** Strings are sequences of code units below 256.  In the pattern
    [/\$(.|$|\n)/g] the dot matches every such unit but the line
    terminators 10 and 13, and the third alternative adds 10 back: a dollar
    followed by a carriage return is no match and stays as it is. *)
Definition is_CR (c : Ascii.ascii) : bool := Ascii.eqb c "013"%char.

(** [/\$[$1-9]/] on the second unit of a match: the index of the argument
    for a digit 1-9. *)
Definition digit_1_9 (c : Ascii.ascii) : option nat :=
  let n := Ascii.nat_of_ascii c in
  if (49 <=? n)%nat && (n <=? 57)%nat then Some (n - 49)%nat else None.

Definition unescaped : exn :=
  Error "Assertion failed: Unescaped $ found in localized string.".

(** The arguments: [None] is [undefined] or [null], [Some s] a value whose
    [toString()] is [s]. *)
Definition argument (args : list (option string)) (i : nat) : string :=
  match args !! i with
  | Some (Some s) => s
  | _ => ""
  end.

Definition prepend (s : string) (r : exn + string) : exn + string :=
  match r with
  | inl e => inl e
  | inr t => inr (s ++ t)%string
  end.

(** [label.replace(/\$(.|$|\n)/g, function (m) { ... })]: the matches are
    found from left to right and do not overlap. *)
Fixpoint substituteString (label : string) (args : list (option string))
  : exn + string :=
  match label with
  | EmptyString => inr EmptyString
  | String c rest =>
      if Ascii.eqb c "$"%char then
        match rest with
        | EmptyString => inl unescaped            (* m = "$" at the end *)
        | String c' rest' =>
            if is_CR c' then prepend "$" (substituteString rest args)
            else if Ascii.eqb c' "$"%char
                 then prepend "$" (substituteString rest' args)
                 else match digit_1_9 c' with
                      | Some i =>
                          prepend (argument args i) (substituteString rest' args)
                      | None => inl unescaped
                      end
        end
      else prepend (String c EmptyString) (substituteString rest args)
  end.

(** [getStringF(id, ...args)], line 80. *)
Definition getStringF (Number_toString : Q -> string) (id : string)
  (args : list (option string)) (this : LoadTimeData) : exn + string :=
  match getString Number_toString id this with
  | inl e => inl e
  | inr value =>
      if String.eqb value "" then inr ""
      else substituteString value args
  end.

(** Writing a text so that [substituteString] gives it back: every dollar
    doubled. *)
Fixpoint escape (s : string) : string :=
  match s with
  | EmptyString => EmptyString
  | String c rest =>
      if Ascii.eqb c "$"%char then String "$" (String "$" (escape rest))
      else String c (escape rest)
  end.

Fixpoint dollar_free (s : string) : bool :=
  match s with
  | EmptyString => true
  | String c rest => negb (Ascii.eqb c "$"%char) && dollar_free rest
  end.

End LoadTimeDataMore.

(** ** More of the horizon (part_000, lines 2338-2381 and 2566-2591) *)

Module HorizonMore.
Import JS TRex.

(** part_000, line 240. *)
Definition FPS : Q := 60.

(** [Obstacle.isVisible], line 2377. *)
Definition isVisible (o : Obstacle) : bool := xPos o + width o >? 0.

Definition set_xPos (xPos' : Z) (o : Obstacle) : Obstacle :=
  mkObstacle (typeConfig o) (gapCoefficient o) (size o) (remove o) xPos'
    (yPos o) (width o) (collisionBoxes o) (gap o) (speedOffset o)
    (followingObstacleCreated o).

Definition set_remove (o : Obstacle) : Obstacle :=
  mkObstacle (typeConfig o) (gapCoefficient o) (size o) true (xPos o)
    (yPos o) (width o) (collisionBoxes o) (gap o) (speedOffset o)
    (followingObstacleCreated o).

Definition set_followingObstacleCreated (o : Obstacle) : Obstacle :=
  mkObstacle (typeConfig o) (gapCoefficient o) (size o) (remove o) (xPos o)
    (yPos o) (width o) (collisionBoxes o) (gap o) (speedOffset o) true.

(** The speed an obstacle moves at: types with a [speedOffset] add their
    own. *)
Definition obstacleSpeed (speed : Q) (o : Obstacle) : Q :=
  if Qeq_bool (type_speedOffset (typeConfig o)) 0 then speed
  else (speed + speedOffset o)%Q.

(** [Obstacle.update(deltaTime, speed)], line 2338.  The animation frame
    and the drawing are left out.  Numbers are exact rationals; the engine
    computes the same product in binary64, where a product that is an
    integer here can fall just below it, so that the step can differ by one
    pixel. *)
Definition Obstacle_update (deltaTime speed : Q) (o : Obstacle) : Obstacle :=
  if remove o then o
  else
    let speed := obstacleSpeed speed o in
    let o := set_xPos (xPos o - Math_floor ((speed * FPS / 1000) * deltaTime)) o in
    if negb (isVisible o) then set_remove o else o.

Definition set_obstacles (obstacles' : list Obstacle) (h : Horizon) : Horizon :=
  mkHorizon obstacles' (obstacleHistory h) (horizon_gapCoefficient h)
    (dimensions_WIDTH h) (altGameModeActive h).

(** The first loop of [updateObstacles]: every obstacle is updated in
    place, and for each one that is flagged [remove] the copy of the array
    loses its first element. *)
Definition survivors (deltaTime currentSpeed : Q) (obstacles : list Obstacle)
  : list Obstacle :=
  let updated := map (Obstacle_update deltaTime currentSpeed) obstacles in
  drop (length (filter (fun o => remove o = true) updated)) updated.

(** Whether the last obstacle calls for a follower (lines 2580-2583). *)
Definition wants_follower (h : Horizon) (lastObstacle : Obstacle) : bool :=
  negb (followingObstacleCreated lastObstacle)
  && isVisible lastObstacle
  && (xPos lastObstacle + width lastObstacle + gap lastObstacle
      <? dimensions_WIDTH h).

(** [Horizon.updateObstacles(deltaTime, currentSpeed)], line 2566.  After
    [addNewObstacle] has pushed the follower, the flag is set on the
    obstacle that was last before. *)
Definition updateObstacles (env : Env) (deltaTime currentSpeed : Q)
  (h : Horizon) : Rand Horizon :=
  let updatedObstacles := survivors deltaTime currentSpeed (obstacles h) in
  let h := set_obstacles updatedObstacles h in
  match last updatedObstacles with
  | Some lastObstacle =>
      if wants_follower h lastObstacle
      then
        h' ← addNewObstacle env h currentSpeed;
        mret (set_obstacles
                (alter set_followingObstacleCreated
                   (length updatedObstacles - 1)%nat (obstacles h')) h')
      else mret h
  | None => addNewObstacle env h currentSpeed
  end.

End HorizonMore.

(** ** The player's jump (part_000, lines 1008-1452) *)

Module TrexJump.
Import JS.

(** [Trex.status], line 1412. *)
Inductive Status : Type := CRASHED | DUCKING | JUMPING | RUNNING | WAITING.

Definition Status_eqb (a b : Status) : bool :=
  match a, b with
  | CRASHED, CRASHED | DUCKING, DUCKING | JUMPING, JUMPING
  | RUNNING, RUNNING | WAITING, WAITING => true
  | _, _ => false
  end.

(** [Trex.animFrames[status].msPerFrame], line 1428. *)
Definition animFrames_msPerFrame (status : Status) : Q :=
  match status with
  | WAITING => 1000 / 3
  | RUNNING => 1000 / 12
  | CRASHED => 1000 / 60
  | JUMPING => 1000 / 60
  | DUCKING => 1000 / 8
  end.

(** [Trex.config] after [Object.assign(Trex.config, Trex.normalJumpConfig)].
    [INVERT_JUMP] is [undefined] ([None]) unless a sprite definition gives
    it a value; none in this file does. *)
Record Config : Type := mkConfig {
  DROP_VELOCITY : Q;
  SPEED_DROP_COEFFICIENT : Q;
  START_X_POS : Z;
  INTRO_DURATION : Q;
  GRAVITY : Q;
  MAX_JUMP_HEIGHT : Q;
  MIN_JUMP_HEIGHT : Q;
  INITIAL_JUMP_VELOCITY : Q;
  INVERT_JUMP : option bool
}.

Definition normalConfig : Config :=
  mkConfig (-5) 3 50 1500 0.6 30 30 (-10) None.

(** Truthiness of a value that is [undefined] or a boolean. *)
Definition truthy (v : option bool) : bool :=
  match v with Some true => true | _ => false end.

(** The fields of a [Trex] that the jump reads or writes.  The animation
    frame, its timer and the blinking, which only the drawing reads, are
    left out. *)
Record Trex : Type := mkTrex {
  xPos : Z;
  yPos : Z;
  xInitialPos : Z;
  groundYPos : Z;
  minJumpHeight : Q;
  status : Status;
  jumping : bool;
  ducking : bool;
  jumpVelocity : Q;
  reachedMinHeight : bool;
  speedDrop : bool;
  jumpCount : Z;
  playingIntro : bool
}.

(** The player as the collision check sees it. *)
Definition seen (t : Trex) : TRex.Trex :=
  TRex.mkTrex (xPos t) (yPos t) TRex.Trex_config (ducking t).

Definition set_status (s : Status) (t : Trex) : Trex :=
  mkTrex (xPos t) (yPos t) (xInitialPos t) (groundYPos t) (minJumpHeight t)
    s (jumping t) (ducking t) (jumpVelocity t) (reachedMinHeight t)
    (speedDrop t) (jumpCount t) (playingIntro t).

Definition set_ducking (b : bool) (t : Trex) : Trex :=
  mkTrex (xPos t) (yPos t) (xInitialPos t) (groundYPos t) (minJumpHeight t)
    (status t) (jumping t) b (jumpVelocity t) (reachedMinHeight t)
    (speedDrop t) (jumpCount t) (playingIntro t).

Definition set_speedDrop (b : bool) (t : Trex) : Trex :=
  mkTrex (xPos t) (yPos t) (xInitialPos t) (groundYPos t) (minJumpHeight t)
    (status t) (jumping t) (ducking t) (jumpVelocity t) (reachedMinHeight t)
    b (jumpCount t) (playingIntro t).

Definition set_jumpVelocity (v : Q) (t : Trex) : Trex :=
  mkTrex (xPos t) (yPos t) (xInitialPos t) (groundYPos t) (minJumpHeight t)
    (status t) (jumping t) (ducking t) v (reachedMinHeight t)
    (speedDrop t) (jumpCount t) (playingIntro t).

Definition set_yPos (y : Z) (t : Trex) : Trex :=
  mkTrex (xPos t) y (xInitialPos t) (groundYPos t) (minJumpHeight t)
    (status t) (jumping t) (ducking t) (jumpVelocity t) (reachedMinHeight t)
    (speedDrop t) (jumpCount t) (playingIntro t).

Definition set_reachedMinHeight (b : bool) (t : Trex) : Trex :=
  mkTrex (xPos t) (yPos t) (xInitialPos t) (groundYPos t) (minJumpHeight t)
    (status t) (jumping t) (ducking t) (jumpVelocity t) b
    (speedDrop t) (jumpCount t) (playingIntro t).

Definition set_jumpCount (n : Z) (t : Trex) : Trex :=
  mkTrex (xPos t) (yPos t) (xInitialPos t) (groundYPos t) (minJumpHeight t)
    (status t) (jumping t) (ducking t) (jumpVelocity t) (reachedMinHeight t)
    (speedDrop t) n (playingIntro t).

Section Methods.
Variable config : Config.

(** [update(deltaTime, opt_status)], line 1139, up to the last clause: the
    new status and the walk-in of the intro. *)
Definition update_status (deltaTime : Q) (opt_status : option Status)
  (t : Trex) : Trex :=
  let t := match opt_status with
           | Some s => set_status s t
           | None => t
           end in
  if playingIntro t && (xPos t <? START_X_POS config)
  then
    let xPos' :=
      xPos t + Math_round ((inject_Z (START_X_POS config)
                            / INTRO_DURATION config) * deltaTime) in
    mkTrex xPos' (yPos t) xPos' (groundYPos t) (minJumpHeight t)
      (status t) (jumping t) (ducking t) (jumpVelocity t)
      (reachedMinHeight t) (speedDrop t) (jumpCount t) (playingIntro t)
  else t.

(** [setDuck(isDucking)], line 1340, over a given [update]. *)
Definition setDuck_over (update : Q -> option Status -> Trex -> Trex)
  (isDucking : bool) (t : Trex) : Trex :=
  if isDucking && negb (Status_eqb (status t) DUCKING)
  then set_ducking true (update 0%Q (Some DUCKING) t)
  else if Status_eqb (status t) DUCKING
       then set_ducking false (update 0%Q (Some RUNNING) t)
       else t.

(** [update] with its last clause: a speed drop that has reached the
    ground becomes a duck.  [setDuck] calls [update] back; [speedDrop] has
    been cleared by then, so that the clause cannot fire a second time and
    the inner call is [update_status]. *)
Definition update (deltaTime : Q) (opt_status : option Status) (t : Trex)
  : Trex :=
  let t := update_status deltaTime opt_status t in
  if speedDrop t && (yPos t =? groundYPos t)
  then setDuck_over update_status true (set_speedDrop false t)
  else t.

Definition setDuck : bool -> Trex -> Trex := setDuck_over update.

(** [reset()], line 1353. *)
Definition reset (t : Trex) : Trex :=
  let t := mkTrex (xInitialPos t) (groundYPos t) (xInitialPos t)
             (groundYPos t) (minJumpHeight t) (status t) false false 0%Q
             (reachedMinHeight t) (speedDrop t) (jumpCount t)
             (playingIntro t) in
  let t := update 0%Q (Some RUNNING) t in
  set_jumpCount 0 (set_speedDrop false t).

(** [startJump(speed)], line 1267. *)
Definition startJump (speed : Q) (t : Trex) : Trex :=
  if negb (jumping t) then
    let t := update 0%Q (Some JUMPING) t in
    mkTrex (xPos t) (yPos t) (xInitialPos t) (groundYPos t)
      (if truthy (INVERT_JUMP config)
       then (inject_Z (groundYPos t) + MIN_JUMP_HEIGHT config)%Q
       else minJumpHeight t)
      (status t) true (ducking t)
      (INITIAL_JUMP_VELOCITY config - speed / 10)%Q
      false false (jumpCount t) (playingIntro t)
  else t.

(** [endJump()], line 1283. *)
Definition endJump (t : Trex) : Trex :=
  if reachedMinHeight t && TRex.Qltb (jumpVelocity t) (DROP_VELOCITY config)
  then set_jumpVelocity (DROP_VELOCITY config) t
  else t.

(** [setSpeedDrop()], line 1333. *)
Definition setSpeedDrop (t : Trex) : Trex :=
  set_jumpVelocity 1%Q (set_speedDrop true t).

(** The two sides of the landing test, line 1321:
    [(INVERT_JUMP && yPos) < groundYPos] compares [undefined], [false] or
    a number with the ground, and [(!INVERT_JUMP && yPos) > groundYPos]
    compares [false] or a number. *)
Definition below_inverted (t : Trex) : bool :=
  match INVERT_JUMP config with
  | None => false
  | Some false => 0 <? groundYPos t
  | Some true => yPos t <? groundYPos t
  end.

Definition below_ground (t : Trex) : bool :=
  if truthy (INVERT_JUMP config) then 0 >? groundYPos t
  else yPos t >? groundYPos t.

(** [updateJump(deltaTime)], line 1293.  The foot-step sound is left
    out.  Numbers are exact rationals; the engine computes the same
    products in binary64, where a product that is a tie here can fall on
    the other side of it, so that the rounded step can differ by one
    pixel. *)
Definition updateJump (deltaTime : Q) (t : Trex) : Trex :=
  let msPerFrame := animFrames_msPerFrame (status t) in
  let framesElapsed := (deltaTime / msPerFrame)%Q in
  let t :=
    if speedDrop t
    then set_yPos (yPos t + Math_round (jumpVelocity t
                                        * SPEED_DROP_COEFFICIENT config
                                        * framesElapsed)) t
    else if truthy (INVERT_JUMP config)
         then set_yPos (yPos t - Math_round (jumpVelocity t * framesElapsed)) t
         else set_yPos (yPos t + Math_round (jumpVelocity t * framesElapsed)) t in
  let t := set_jumpVelocity
             (jumpVelocity t + GRAVITY config * framesElapsed)%Q t in
  let t :=
    if truthy (INVERT_JUMP config)
         && TRex.Qgtb (inject_Z (yPos t)) (minJumpHeight t)
       || negb (truthy (INVERT_JUMP config))
          && TRex.Qltb (inject_Z (yPos t)) (minJumpHeight t)
       || speedDrop t
    then set_reachedMinHeight true t else t in
  let t :=
    if truthy (INVERT_JUMP config)
         && TRex.Qgtb (inject_Z (yPos t)) (- MAX_JUMP_HEIGHT config)
       || negb (truthy (INVERT_JUMP config))
          && TRex.Qltb (inject_Z (yPos t)) (MAX_JUMP_HEIGHT config)
       || speedDrop t
    then endJump t else t in
  if below_inverted t || below_ground t
  then let t := reset t in set_jumpCount (jumpCount t + 1) t
  else t.

(** The jump as [Runner.update] drives it, line 3278:
    [if (this.tRex.jumping) this.tRex.updateJump(deltaTime);] *)
Definition jumpFrame (deltaTime : Q) (t : Trex) : Trex :=
  if jumping t then updateJump deltaTime t else t.

(** What a frame of [Runner.update] does to the player while the game is
    played and no change of game mode is flashing: the jump, and at the end
    of the frame (line 3365) [this.tRex.update(deltaTime);]. *)
Definition playerFrame (deltaTime : Q) (t : Trex) : Trex :=
  update deltaTime None (jumpFrame deltaTime t).

Definition set_playingIntro (b : bool) (t : Trex) : Trex :=
  mkTrex (xPos t) (yPos t) (xInitialPos t) (groundYPos t) (minJumpHeight t)
    (status t) (jumping t) (ducking t) (jumpVelocity t) (reachedMinHeight t)
    (speedDrop t) (jumpCount t) b.

(** The calls that the runner makes on the player after [init()], each as
    the handler has it:
    - [onKeyDown], lines 3541-3560, and [onKeyUp], lines 3573-3578;
    - the resume from a pause, lines 3590-3593 and 3898-3900:
      [this.tRex.reset(); this.play();], where [play()] (line 3816) calls
      [this.tRex.update(0, Trex.status.RUNNING)] and then runs a frame;
    - a frame of [Runner.update]: the jump (lines 3278-3280) and, at the
      end, [this.tRex.update(deltaTime)] (line 3365).  The two are also
      events of their own, since a frame can hand another time to the
      second (line 3293 sets it to 0 before the game is activated) or end
      with the game over before it; [this.tRex.update(...)] without a status
      is also what lines 3155 and 3263 call;
    - [gameOver()], line 3770, and [restart()], line 3837;
    - the intro, lines 3180 and 3207, which sets [playingIntro].
    Whether a handler runs at all is decided by the runner (playing,
    paused, crashed, in view), which this model leaves open: events come in
    any order.  The calls that replace the configuration (slow mode, the
    alternative game mode, the debug settings) are left out. *)
Inductive Event : Type :=
| JumpKeyDown (currentSpeed : Q)
| DuckKeyDown
| JumpKeyUp
| DuckKeyUp
| Resume
| Frame (deltaTime : Q)
| JumpStep (deltaTime : Q)
| Update (deltaTime : Q)
| GameOver
| Restart
| Intro (playing : bool).

Definition handle (e : Event) (t : Trex) : Trex :=
  match e with
  | JumpKeyDown currentSpeed =>
      if negb (jumping t) && negb (ducking t)
      then startJump currentSpeed t else t
  | DuckKeyDown =>
      if jumping t then setSpeedDrop t
      else if negb (jumping t) && negb (ducking t) then setDuck true t
           else t
  | JumpKeyUp => endJump t
  | DuckKeyUp => setDuck false (set_speedDrop false t)
  | Resume => update 0%Q (Some RUNNING) (reset t)
  | Frame deltaTime => playerFrame deltaTime t
  | JumpStep deltaTime => jumpFrame deltaTime t
  | Update deltaTime => update deltaTime None t
  | GameOver => update 100%Q (Some CRASHED) t
  | Restart => reset t
  | Intro playing => set_playingIntro playing t
  end.

Definition play (events : list Event) (t : Trex) : Trex :=
  fold_left (fun t e => handle e t) events t.

End Methods.

(** The player as [init()] leaves it (line 1049), standing at
    [groundYPos = 150 - 47 - 10]. *)
Definition initial : Trex :=
  mkTrex 0 93 0 93 (93 - 30) WAITING false false 0 false false 0 false.

End TrexJump.

(** ** A game of Snake from the loading of the page on *)

Module SnakePlay.
Import JS Snake.

Section Grid.
Variable tileCount : Z.

(** The script as it loads (java12.js, lines 8-22 and 223): the food is
    drawn first, the obstacles last. *)
Definition loadGame : Rand Game :=
  let snake := [mkCell 10 10] in
  food ← randomCell tileCount;
  obstacles ← generateObstacles tileCount snake food;
  mret (mkGame snake food obstacles 0 0 0 100 false false false).

(** The states of a game: the page loads, keys are pressed and the timer
    calls [drawGame]; a tick that throws writes nothing. *)
Inductive reachable : Game -> Prop :=
| reach_load rs g rest :
    loadGame rs = Done g rest -> reachable g
| reach_key keyCode g :
    reachable g -> reachable (changeDirection keyCode g)
| reach_drawn g rs g' rest :
    reachable g -> drawGame tileCount g rs = Done (Drawn g') rest ->
    reachable g'
| reach_over g rs g' rest :
    reachable g -> drawGame tileCount g rs = Done (GameOver g') rest ->
    reachable g'.

(** The interval that [updateGameSpeed] sets for the mode flags. *)
Definition modeSpeed (g : Game) : Q :=
  if isFastMode g then 50%Q else if isSlowMode g then 200%Q else 100%Q.

Definition in_grid (c : Cell) : Prop :=
  0 <= x c < tileCount /\ 0 <= y c < tileCount.

(** Standing still, or one step along an axis. *)
Definition step (dx dy : Z) : Prop :=
  (dx, dy) = (0, 0) \/ (dx, dy) = (-1, 0) \/ (dx, dy) = (1, 0)
  \/ (dx, dy) = (0, -1) \/ (dx, dy) = (0, 1).

Definition well_formed (g : Game) : Prop :=
  snake g <> []
  /\ NoDup (snake g)
  /\ NoDup (obstacles g)
  /\ length (obstacles g) = 5%nat
  /\ (forall o, o ∈ obstacles g -> (o ∉ snake g) /\ o <> food g)
  /\ score g = 10 * (Z.of_nat (length (snake g)) - 1)
  /\ gameSpeed g = modeSpeed g
  /\ isFastMode g && isSlowMode g = false
  /\ step (dx g) (dy g)
  /\ ((dx g, dy g) = (0, 0) -> length (snake g) = 1%nat)
  /\ (10 < tileCount -> Forall in_grid (snake g)).

End Grid.
End SnakePlay.

(** ** The distance meter and the speed setting
    (part_000, lines 264-612 and 3029-3041) *)

Module Meter.
Import JS.

(** [DistanceMeter.config], line 600. *)
Definition MAX_DISTANCE_UNITS : Z := 5.
Definition ACHIEVEMENT_DISTANCE : Z := 100.
Definition COEFFICIENT : Q := 0.025.
Definition FLASH_DURATION : Q := 1000 / 4.
Definition FLASH_ITERATIONS : Z := 3.

(** The fields of a [DistanceMeter] that [update] computes with.  The
    digit strings, which only the drawing reads, are left out. *)
Record DistanceMeter : Type := mkDistanceMeter {
  maxScore : Z;
  maxScoreUnits : Z;
  achievement : bool;
  flashTimer : Q;
  flashIterations : Z
}.

(** The meter as the constructor and [init] leave it: five digits, and
    [maxScore = parseInt('99999', 10)]. *)
Definition new_DistanceMeter : DistanceMeter :=
  mkDistanceMeter 99999 MAX_DISTANCE_UNITS false 0 0.

(** [getActualDistance(distance)], line 371. *)
Definition getActualDistance (distance : Q) : Z :=
  if Qeq_bool distance 0 then 0 else Math_round (distance * COEFFICIENT).

(** [parseInt(maxScore + '9', 10)] for an integer that prints without an
    exponent (below 10^21 in size): the digit is appended to the decimal
    numeral, sign included. *)
Definition parseInt_with_9 (maxScore : Z) : Z :=
  if maxScore <? 0 then 10 * maxScore - 9 else 10 * maxScore + 9.

(** What a call of [update] reports: the value it returns, and whether it
    has painted the digits. *)
Record Report : Type := mkReport {
  playSound : bool;
  paint : bool
}.

(** [update(deltaTime, distance)], line 380. *)
Definition update (deltaTime distance : Q) (this : DistanceMeter)
  : DistanceMeter * Report :=
  if negb (achievement this) then
    let distance := getActualDistance distance in
    let this :=
      if (distance >? maxScore this)
         && (maxScoreUnits this =? MAX_DISTANCE_UNITS)
      then mkDistanceMeter (parseInt_with_9 (maxScore this))
             (maxScoreUnits this + 1) (achievement this) (flashTimer this)
             (flashIterations this)
      else this in
    if (distance >? 0) && (Z.rem distance ACHIEVEMENT_DISTANCE =? 0)
    then (mkDistanceMeter (maxScore this) (maxScoreUnits this) true 0
            (flashIterations this), mkReport true true)
    else (this, mkReport false true)
  else
    if flashIterations this <=? FLASH_ITERATIONS then
      let flashTimer := (flashTimer this + deltaTime)%Q in
      if TRex.Qltb flashTimer FLASH_DURATION
      then (mkDistanceMeter (maxScore this) (maxScoreUnits this)
              (achievement this) flashTimer (flashIterations this),
            mkReport false false)
      else if TRex.Qgtb flashTimer (FLASH_DURATION * 2)
           then (mkDistanceMeter (maxScore this) (maxScoreUnits this)
                   (achievement this) 0 (flashIterations this + 1),
                 mkReport false true)
           else (mkDistanceMeter (maxScore this) (maxScoreUnits this)
                   (achievement this) flashTimer (flashIterations this),
                 mkReport false true)
    else (mkDistanceMeter (maxScore this) (maxScoreUnits this) false 0 0,
          mkReport false true).

(** [reset()], line 577. *)
Definition reset (this : DistanceMeter) : DistanceMeter :=
  let this := fst (update 0 0 this) in
  mkDistanceMeter (maxScore this) (maxScoreUnits this) false
    (flashTimer this) (flashIterations this).

(** A run of [update] calls, one for each frame's [(deltaTime, distance)];
    the reports come out in the order of the calls. *)
Fixpoint updates (frames : list (Q * Q)) (this : DistanceMeter)
  : DistanceMeter * list Report :=
  match frames with
  | [] => (this, [])
  | (deltaTime, distance) :: frames' =>
      let '(this, r) := update deltaTime distance this in
      let '(this, rs) := updates frames' this in
      (this, r :: rs)
  end.

(** [Runner.setSpeed(opt_speed)], line 3029, as the new [currentSpeed].
    [opt_speed] is [undefined] ([None]) or a number. *)
Definition DEFAULT_WIDTH : Z := 600.

Definition setSpeed (env : TRex.Env) (MOBILE_SPEED_COEFFICIENT : Q)
  (dimensions_WIDTH : Z) (opt_speed : option Q) (currentSpeed : Q) : Q :=
  let speed := match opt_speed with
               | Some s => if Qeq_bool s 0 then currentSpeed else s
               | None => currentSpeed
               end in
  if dimensions_WIDTH <? DEFAULT_WIDTH then
    let mobileSpeed :=
      if TRex.slowDown env then speed
      else (speed * inject_Z dimensions_WIDTH / inject_Z DEFAULT_WIDTH
            * MOBILE_SPEED_COEFFICIENT)%Q in
    if TRex.Qgtb mobileSpeed speed then speed else mobileSpeed
  else match opt_speed with
       | Some s => if Qeq_bool s 0 then currentSpeed else s
       | None => currentSpeed
       end.

End Meter.

(** * Properties *)

(** ** Collision detection *)

Module CollisionFacts.
Import JS TRex.

Lemma boxCompare_overlaps a b : boxCompare a b = true <-> overlaps a b.
Proof.
  unfold boxCompare, overlaps.
  rewrite !andb_true_iff, !Z.ltb_lt, !Z.gtb_gt. lia.
Qed.

Lemma boxCompare_false a b : boxCompare a b = false <-> ~ overlaps a b.
Proof.
  rewrite <- boxCompare_overlaps. destruct (boxCompare a b); split; congruence.
Qed.

Lemma scanObstacleBoxes_Some tB oB t boxes hit :
  scanObstacleBoxes tB oB t boxes = Some hit ->
  exists o, o ∈ boxes /\ overlaps (translated t tB) (translated o oB) /\
            hit = (translated t tB, translated o oB).
Proof.
  induction boxes as [|o boxes IH]; simpl; [discriminate|].
  destruct (boxCompare _ _) eqn:E.
  - intros [= <-]. exists o. split; [left|].
    split; [now apply boxCompare_overlaps in E | reflexivity].
  - intros H. destruct (IH H) as (o' & Hin & Hov & ->).
    exists o'. split; [now right | auto].
Qed.

Lemma scanObstacleBoxes_None tB oB t boxes :
  scanObstacleBoxes tB oB t boxes = None ->
  forall o, o ∈ boxes -> ~ overlaps (translated t tB) (translated o oB).
Proof.
  induction boxes as [|o boxes IH]; simpl; intros H o' Hin.
  - inversion Hin.
  - destruct (boxCompare _ _) eqn:E; [discriminate|].
    apply elem_of_cons in Hin as [->|Hin].
    + now apply boxCompare_false in E.
    + now apply IH.
Qed.

Lemma scanTrexBoxes_Some tB oB tBoxes oBoxes hit :
  scanTrexBoxes tB oB tBoxes oBoxes = Some hit ->
  exists t o, t ∈ tBoxes /\ o ∈ oBoxes /\
              overlaps (translated t tB) (translated o oB) /\
              hit = (translated t tB, translated o oB).
Proof.
  induction tBoxes as [|t tBoxes IH]; simpl; [discriminate|].
  destruct (scanObstacleBoxes tB oB t oBoxes) as [hit'|] eqn:E.
  - intros [= <-]. apply scanObstacleBoxes_Some in E as (o & Hin & Hov & Hhit).
    exists t, o. split; [left | auto].
  - intros H. destruct (IH H) as (t' & o & Ht & Ho & Hov & Hhit).
    exists t', o. split; [now right | auto].
Qed.

Lemma scanTrexBoxes_None tB oB tBoxes oBoxes :
  scanTrexBoxes tB oB tBoxes oBoxes = None ->
  forall t o, t ∈ tBoxes -> o ∈ oBoxes ->
              ~ overlaps (translated t tB) (translated o oB).
Proof.
  induction tBoxes as [|t tBoxes IH]; simpl; intros H t' o Ht Ho.
  - inversion Ht.
  - destruct (scanObstacleBoxes tB oB t oBoxes) eqn:E; [discriminate|].
    apply elem_of_cons in Ht as [->|Ht].
    + eapply scanObstacleBoxes_None; eauto.
    + now apply IH.
Qed.

(** C1.  [checkForCollision] reports a collision exactly when the outer
    boxes of player and obstacle, each inset by one unit on every side,
    overlap under the rectangle test and, in addition, some sub-box of the
    player and some sub-box of the obstacle, each translated by the origin
    of its owner's inset box, overlap; when the coarse test fails nothing
    is reported whatever the sub-boxes are, and a reported pair is such a
    pair of translated sub-boxes. *)
Theorem checkForCollision_two_phase (env : Env) (obstacle : Obstacle)
  (tRex : Trex) :
  let P := inset (outer_tRex tRex) in
  let O := inset (outer_obstacle obstacle) in
  (is_Some (checkForCollision env obstacle tRex) <->
     overlaps P O /\
     exists t o, t ∈ player_boxes env tRex /\ o ∈ collisionBoxes obstacle /\
                 overlaps (translated t P) (translated o O))
  /\ (~ overlaps P O -> checkForCollision env obstacle tRex = None)
  /\ (forall hit, checkForCollision env obstacle tRex = Some hit ->
        exists t o, t ∈ player_boxes env tRex /\ o ∈ collisionBoxes obstacle /\
                    overlaps (translated t P) (translated o O) /\
                    hit = (translated t P, translated o O)).
Proof.
  intros P O.
  assert (HP : tRexBox_of tRex = P) by reflexivity.
  assert (HO : obstacleBox_of obstacle = O) by reflexivity.
  assert (HB : tRexCollisionBoxes_of env tRex = player_boxes env tRex)
    by reflexivity.
  unfold checkForCollision. rewrite HP, HO, HB.
  destruct (boxCompare P O) eqn:Hc.
  - apply boxCompare_overlaps in Hc. split; [split|split].
    + intros [hit Hhit]. split; [exact Hc|].
      apply scanTrexBoxes_Some in Hhit as (t & o & Ht & Ho & Hov & _).
      now exists t, o.
    + intros (_ & t & o & Ht & Ho & Hov).
      destruct (scanTrexBoxes P O _ _) eqn:E; [eauto|].
      exfalso. eapply scanTrexBoxes_None; eauto.
    + intros Hn. contradiction.
    + intros hit Hhit. now apply scanTrexBoxes_Some.
  - apply boxCompare_false in Hc. split; [split|split].
    + intros [hit Hhit]. discriminate.
    + intros [Hov _]. contradiction.
    + reflexivity.
    + intros hit Hhit. discriminate.
Qed.

(** The scenario of two boxes side by side: [10 + 20 <= 40], no
    collision. *)
Example disjoint_boxes :
  boxCompare (mkCollisionBox 10 10 20 20) (mkCollisionBox 40 10 20 20) = false.
Proof. reflexivity. Qed.

(** A player on the ground whose head has reached a small cactus collides
    with it (the head box against the stem of the cactus); in mid-jump
    above it, it does not. *)
Example running_into_a_cactus :
  let cactus := mkObstacle CACTUS_SMALL 0.6 1 false 80 105 17
                  (type_collisionBoxes CACTUS_SMALL) 200 0 false in
  checkForCollision defaultEnv cactus (mkTrex 50 93 Trex_config false)
  = Some (mkCollisionBox 73 94 17 16, mkCollisionBox 85 106 6 34) /\
  checkForCollision defaultEnv cactus (mkTrex 50 40 Trex_config false) = None.
Proof. split; reflexivity. Qed.

End CollisionFacts.

(** ** Random numbers and the monad *)

Module RandomFacts.
Import JS.

Lemma Qfloor_spec (q : Q) (z : Z) :
  Qfloor q = z <-> (inject_Z z <= q /\ q < inject_Z (z + 1))%Q.
Proof.
  split.
  - intros <-. split; [apply Qfloor_le | apply Qlt_floor].
  - intros [Hlo Hhi].
    pose proof (Qfloor_le q) as Hfl. pose proof (Qlt_floor q) as Hfu.
    assert (H1 : (inject_Z z < inject_Z (Qfloor q + 1))%Q)
      by (eapply Qle_lt_trans; eauto).
    assert (H2 : (inject_Z (Qfloor q) < inject_Z (z + 1))%Q)
      by (eapply Qle_lt_trans; eauto).
    rewrite <- Zlt_Qlt in H1, H2. lia.
Qed.

(** The draws for which [getRandomNum] returns [k] form the interval
    [[(k - min)/n, (k - min + 1)/n)] with [n = max - min + 1]. *)
Lemma randomNumOf_eq (r : Q) (min max k : Z) :
  randomNumOf r min max = k <->
  (inject_Z (k - min) <= r * inject_Z (max - min + 1) /\
   r * inject_Z (max - min + 1) < inject_Z (k - min + 1))%Q.
Proof.
  unfold randomNumOf, Math_floor. rewrite <- Qfloor_spec. lia.
Qed.

Lemma randomNumOf_range (r : Q) (min max : Z) :
  unit_draw r -> min <= max ->
  min <= randomNumOf r min max <= max.
Proof.
  intros [H0 H1] Hle.
  set (n := max - min + 1).
  assert (Hn : (0 < inject_Z n)%Q) by (rewrite <- (Zlt_Qlt 0); lia).
  assert (Hlo : (inject_Z 0 <= r * inject_Z n)%Q).
  { apply Qmult_le_0_compat; [exact H0 | now apply Qlt_le_weak]. }
  assert (Hhi : (r * inject_Z n < inject_Z n)%Q).
  { rewrite <- (Qmult_1_l (inject_Z n)) at 2.
    apply Qmult_lt_compat_r; assumption. }
  unfold randomNumOf, Math_floor. fold n.
  pose proof (Qfloor_le (r * inject_Z n)) as Hfl.
  pose proof (Qlt_floor (r * inject_Z n)) as Hfu.
  assert (A : (inject_Z 0 < inject_Z (Qfloor (r * inject_Z n) + 1))%Q)
    by (eapply Qle_lt_trans; eauto).
  assert (B : (inject_Z (Qfloor (r * inject_Z n)) < inject_Z n)%Q)
    by (eapply Qle_lt_trans; eauto).
  rewrite <- Zlt_Qlt in A, B. lia.
Qed.

Lemma Math_round_Z_half (m : Z) :
  Math_round (inject_Z m * 1.5) = (3 * m + 1) / 2.
Proof.
  unfold Math_round, Qfloor. simpl.
  change (Z.pos (1 * 10 * 2)) with (10 * 2).
  replace (m * 15 * 2 + 1 * Z.pos (1 * 10)) with (10 * (3 * m + 1)) by lia.
  apply Z.div_mul_cancel_l; lia.
Qed.

(** Inversion of the monad's operations. *)
Lemma bind_Done {A B} (m : Rand A) (k : A -> Rand B) rs b rest :
  (m ≫= k) rs = Done b rest <->
  exists a rs1, m rs = Done a rs1 /\ k a rs1 = Done b rest.
Proof.
  unfold mbind, rand_bind. destruct (m rs) as [a rs1| |e]; split.
  - eauto.
  - now intros (a' & rs' & [= -> ->] & H).
  - discriminate.
  - now intros (? & ? & ? & _).
  - discriminate.
  - now intros (? & ? & ? & _).
Qed.

Lemma ret_Done {A} (a b : A) rs rest :
  mret (M:=Rand) a rs = Done b rest <-> a = b /\ rs = rest.
Proof.
  unfold mret, rand_ret. split; [now intros [= -> ->] | now intros [-> ->]].
Qed.

Lemma Math_random_Done rs r rest :
  Math_random rs = Done r rest <-> rs = r :: rest.
Proof.
  destruct rs; simpl; split; try discriminate; now intros [= -> ->].
Qed.

Lemma getRandomNum_Done min max rs k rest :
  getRandomNum min max rs = Done k rest <->
  exists r, rs = r :: rest /\ k = randomNumOf r min max.
Proof.
  unfold getRandomNum. rewrite bind_Done. split.
  - intros (r & rs1 & Hr & Hk). apply Math_random_Done in Hr.
    apply ret_Done in Hk as [<- ->]. eauto.
  - intros (r & -> & ->). exists r, rest. now rewrite Math_random_Done, ret_Done.
Qed.

End RandomFacts.

(** ** The spawner *)

Module SpawnerFacts.
Import JS TRex RandomFacts.

Lemma maxGap_of_eq (m : Z) : maxGap_of m = (3 * m + 1) / 2.
Proof. apply Math_round_Z_half. Qed.

Lemma maxGap_of_ge (m : Z) : 0 <= m -> m <= maxGap_of m.
Proof.
  intros Hm. rewrite maxGap_of_eq. apply Z.div_le_lower_bound; lia.
Qed.


Lemma pick_yPos_Done env ty rs y rest :
  pick_yPos env ty rs = Done y rest -> exists used, rs = used ++ rest.
Proof.
  unfold pick_yPos. destruct (type_yPos ty).
  - intros [_ ->]%ret_Done. now exists [].
  - intros (i & rs1 & (r & -> & _)%getRandomNum_Done & [_ ->]%ret_Done)%bind_Done.
    now exists [r].
Qed.

Lemma pick_speedOffset_Done ty rs q rest :
  pick_speedOffset ty rs = Done q rest -> exists used, rs = used ++ rest.
Proof.
  unfold pick_speedOffset. destruct (Qeq_bool _ _).
  - intros [_ ->]%ret_Done. now exists [].
  - intros (i & rs1 & ->%Math_random_Done & [_ ->]%ret_Done)%bind_Done.
    now exists [i].
Qed.

(** What a finished constructor call has built. *)
Lemma new_Obstacle_Done env ty W coeff speed off rs o rest :
  new_Obstacle env ty W coeff speed off rs = Done o rest ->
  exists r1 used r2,
    rs = r1 :: used ++ r2 :: rest /\
    typeConfig o = ty /\
    gapCoefficient o = (if slowDown env then (coeff * 2)%Q else coeff) /\
    size o = (let s := randomNumOf r1 1 (MAX_OBSTACLE_LENGTH env) in
              if (s >? 1) && Qgtb (multipleSpeed ty) speed then 1 else s) /\
    width o = type_width ty * size o /\
    xPos o = W + off /\
    let m := minGap_of (width o) ty (gapCoefficient o) speed in
    let g := randomNumOf r2 m (maxGap_of m) in
    gap o = (if audioCues env then g * 2 else g).
Proof.
  unfold new_Obstacle.
  intros (s & rs1 & (r1 & -> & ->)%getRandomNum_Done & H)%bind_Done.
  apply bind_Done in H as (y & rs2 & [u1 ->]%pick_yPos_Done & H).
  apply bind_Done in H as (boxes & rs3 & Hboxes & H).
  assert (rs3 = rs2) as ->.
  { destruct (_ >? 1) in Hboxes.
    - destruct (adjustCollisionBoxes _ _); [now apply ret_Done in Hboxes|].
      discriminate.
    - now apply ret_Done in Hboxes. }
  apply bind_Done in H as (so & rs4 & [u2 ->]%pick_speedOffset_Done & H).
  apply bind_Done in H as (g & rs5 & Hg & [<- ->]%ret_Done).
  unfold getGap in Hg. simpl in Hg.
  apply getRandomNum_Done in Hg as (r2 & -> & ->).
  exists r1, (u1 ++ u2), r2. simpl.
  rewrite <- !app_assoc. repeat split; reflexivity.
Qed.


Lemma placeObstacle_Done env h s ty rs h' rest :
  placeObstacle env h s ty rs = Done h' rest ->
  exists o,
    new_Obstacle env ty (dimensions_WIDTH h) (horizon_gapCoefficient h) s
      (type_width ty) rs = Done o rest /\
    obstacles h' = obstacles h ++ [o] /\
    obstacleHistory h' =
      (let history := type_name ty :: obstacleHistory h in
       if Z.of_nat (length history) >? 1
       then splice_from (MAX_OBSTACLE_DUPLICATION env) history
       else history) /\
    horizon_gapCoefficient h' = horizon_gapCoefficient h /\
    dimensions_WIDTH h' = dimensions_WIDTH h /\
    altGameModeActive h' = altGameModeActive h.
Proof.
  unfold placeObstacle.
  intros (o & rs1 & Ho & [<- ->]%ret_Done)%bind_Done.
  exists o. simpl. repeat split; assumption.
Qed.

Lemma at_index_elem {A} (l : list A) i a : at_index l i = Some a -> a ∈ l.
Proof.
  unfold at_index. destruct (i <? 0); [discriminate|].
  apply list_elem_of_lookup_2.
Qed.

(** A finished call has accepted one candidate of the table, after a number
    of draws, and placed it. *)
Lemma addNewObstacle_Done env h s rs h' rest :
  addNewObstacle env h s rs = Done h' rest ->
  exists n ty used rs1,
    obstacleCount_of env h = Some n /\
    ty ∈ Obstacle_types env /\
    rejected env h n s ty = false /\
    rs = used ++ rs1 /\
    placeObstacle env h s ty rs1 = Done h' rest.
Proof.
  induction rs as [|r rs IH]; simpl;
    destruct (obstacleCount_of env h) as [n|] eqn:Hn; try discriminate;
    destruct (n >? 0) eqn:Hpos; try discriminate.
  - destruct (at_index _ 0) as [ty|] eqn:Hty; [|discriminate].
    destruct (rejected _ _ _ _ _) eqn:Hrej; [discriminate|].
    intros H. exists n, ty, [], [].
    repeat split; eauto using at_index_elem.
  - destruct (at_index _ _) as [ty|] eqn:Hty; [|discriminate].
    destruct (rejected _ _ _ _ _) eqn:Hrej.
    + intros H. destruct (IH H) as (n' & ty' & used & rs1 & E & Hin & Hr & -> & Hp).
      exists n', ty', (r :: used), rs1. repeat split; assumption.
    + intros H. exists n, ty, [r], rs.
      repeat split; eauto using at_index_elem.
  - destruct (at_index _ 0) as [ty|] eqn:Hty; [|discriminate].
    destruct (rejected _ _ _ _ _) eqn:Hrej; [discriminate|].
    intros H. exists n, ty, [], (r :: rs).
    repeat split; eauto using at_index_elem.
Qed.

(** The history after a spawn when at most two types are kept. *)
Lemma history_after_spawn env h t :
  MAX_OBSTACLE_DUPLICATION env = 2 ->
  (let history := t :: obstacleHistory h in
   if Z.of_nat (length history) >? 1
   then splice_from (MAX_OBSTACLE_DUPLICATION env) history
   else history) = take 2 (t :: obstacleHistory h).
Proof.
  intros ->. cbv zeta. destruct (obstacleHistory h) as [|a l]; [reflexivity|].
  assert ((Z.of_nat (length (t :: a :: l)) >? 1) = true) as ->
    by (apply Z.gtb_gt; simpl length; lia).
  reflexivity.
Qed.

(** With a history of at most two entries the check fires exactly when both
    recorded types are the candidate. *)
Lemma duplicateObstacleCheck_two env h t :
  MAX_OBSTACLE_DUPLICATION env = 2 ->
  (length (obstacleHistory h) <= 2)%nat ->
  duplicateObstacleCheck env h t = true <-> obstacleHistory h = [t; t].
Proof.
  intros HM Hlen. unfold duplicateObstacleCheck. rewrite HM.
  destruct (obstacleHistory h) as [|a [|b [|c l]]]; simpl in *; try lia.
  - split; discriminate.
  - destruct (String.eqb a t); split; discriminate.
  - destruct (String.eqb_spec a t) as [->|Ha], (String.eqb_spec b t) as [->|Hb];
      rewrite Z.geb_leb, Z.leb_le; split; intros H; try lia; congruence.
Qed.

End SpawnerFacts.

(** ** The gap of a spawned obstacle *)

Module GapFacts.
Import JS TRex RandomFacts SpawnerFacts.

Lemma Math_round_nonneg (q : Q) : (0 <= q)%Q -> 0 <= Math_round q.
Proof.
  intros Hq. unfold Math_round.
  change 0 with (Qfloor 0). apply Qfloor_resp_le.
  apply Qle_trans with q; [exact Hq|].
  rewrite <- (Qplus_0_r q) at 1. apply Qplus_le_r. discriminate.
Qed.


(** The scenario at speed 6: a small cactus of width 17 with
    [minGap = 120] and coefficient 0.6 has its gap drawn from
    [[174, 261]]. *)
Example gap_range_at_speed_6 :
  minGap_of 17 CACTUS_SMALL 0.6 6 = 174 /\ maxGap_of 174 = 261.
Proof. split; reflexivity. Qed.

Lemma sane_original : Forall sane_type original_OBSTACLES.
Proof. repeat constructor; simpl; (lia || discriminate). Qed.


End GapFacts.

(** ** The duplicate-run cap *)

Module DuplicationFacts.
Import JS TRex RandomFacts SpawnerFacts.

Lemma no_run3_cons t log :
  no_run3 log -> take 2 log <> [t; t] -> no_run3 (t :: log).
Proof.
  intros Hlog Hne pre u post E.
  destruct pre as [|p pre]; simpl in E.
  - injection E as -> ->. now apply Hne.
  - injection E as _ ->. now apply (Hlog pre u post).
Qed.

Lemma rejected_false_no_duplicate env h n s ty :
  0 < n -> rejected env h n s ty = false ->
  duplicateObstacleCheck env h (type_name ty) = false.
Proof.
  unfold rejected. intros Hn.
  assert ((n >? 0) = true) as -> by (apply Z.gtb_gt; lia). simpl.
  now intros [H _]%orb_false_iff.
Qed.

Lemma spawned_invariant h0 log h :
  obstacleHistory h0 = [] ->
  spawned h0 log h ->
  obstacleHistory h = take 2 log /\ no_run3 log.
Proof.
  intros H0. induction 1 as [|env log h s rs h' rest o _ IH [HM (n & Hn & Hpos)]
                              Hadd Hlast
                            |log h h' _ IH Hsame].
  - split; [exact H0|]. intros [|? pre] t post; discriminate.
  - destruct IH as (Hhist & Hrun).
    apply addNewObstacle_Done in Hadd
      as (n' & ty & used & rs1 & Hn' & _ & Hrej & _ & Hp).
    rewrite Hn in Hn'. injection Hn' as <-.
    apply placeObstacle_Done in Hp as (o' & Ho' & Hobs & Hh' & _).
    apply new_Obstacle_Done in Ho' as (_ & _ & _ & _ & Htc & _).
    rewrite Hobs, last_snoc in Hlast. injection Hlast as <-. rewrite Htc.
    rewrite (history_after_spawn env h _ HM) in Hh'.
    split.
    + rewrite Hh', Hhist. destruct log as [|a [|b l]]; reflexivity.
    + apply no_run3_cons; [exact Hrun|].
      apply rejected_false_no_duplicate in Hrej; [|exact Hpos].
      intros E. rewrite <- Hhist in E.
      apply (duplicateObstacleCheck_two env h _ HM) in E; [congruence|].
      rewrite Hhist, length_take. lia.
  - destruct IH as (Hhist & Hrun). split; [congruence | exact Hrun].
Qed.

(** C3.  Along every run of the spawner from a fresh horizon no obstacle
    type is spawned three times in a row: the history buffer keeps the last
    two types, the check fires exactly when both equal the candidate, and
    such a candidate is rejected, the call drawing a new one from the
    remaining draws.  (The check runs when more than one type can be
    drawn, [obstacleCount > 0], as with every [OBSTACLES] table of the
    source.) *)
Theorem no_type_three_times_in_a_row (h0 : Horizon) (log : list string)
  (h : Horizon) :
  obstacleHistory h0 = [] ->
  spawned h0 log h ->
  (forall pre t post, log <> pre ++ [t; t; t] ++ post) /\
  (length (obstacleHistory h) <= 2)%nat /\
  (forall env, several_types env h ->
     (forall t, duplicateObstacleCheck env h t = true <->
                obstacleHistory h = [t; t]) /\
     (forall s r rest ty,
        candidate env h r = Some ty ->
        obstacleHistory h = [type_name ty; type_name ty] ->
        addNewObstacle env h s (r :: rest) = addNewObstacle env h s rest)).
Proof.
  intros H0 Hsp.
  destruct (spawned_invariant h0 log h H0 Hsp) as (Hhist & Hrun).
  assert (Hlen : (length (obstacleHistory h) <= 2)%nat)
    by (rewrite Hhist, length_take; lia).
  split; [exact Hrun|]. split; [exact Hlen|].
  intros env [HM (n & Hn & Hpos)]. split.
  - intros t. now apply duplicateObstacleCheck_two.
  - intros s r rest ty Hc Hdup. unfold candidate in Hc. simpl.
    rewrite Hn in Hc |- *.
    assert (Hgt : (n >? 0) = true) by (apply Z.gtb_gt; lia).
    rewrite Hgt in Hc |- *. rewrite Hc.
    apply (duplicateObstacleCheck_two env h _ HM Hlen) in Hdup.
    unfold rejected. now rewrite Hgt, Hdup.
Qed.

(** The other writers of [obstacles] are steps of such a run. *)
Lemma spawned_removeFirstObstacle h0 log h :
  spawned h0 log h -> spawned h0 log (removeFirstObstacle h).
Proof. intros H. now apply (spawned_other h0 log h). Qed.

Lemma spawned_reset h0 log h :
  spawned h0 log h -> spawned h0 log (Horizon_reset h).
Proof. intros H. now apply (spawned_other h0 log h). Qed.

Lemma several_types_default h :
  altGameModeActive h = false -> several_types defaultEnv h.
Proof.
  intros Halt. split; [reflexivity|]. exists 2.
  unfold obstacleCount_of. simpl. rewrite Halt. split; [reflexivity | lia].
Qed.

Lemma two_small_cacti :
  exists h, spawned (new_Horizon 600 0.6) ["CACTUS_SMALL"; "CACTUS_SMALL"] h.
Proof.
  eexists.
  eapply (spawned_add _ defaultEnv _ _ 6 [0; 0; 0.5]%Q _ []
            (mkObstacle CACTUS_SMALL _ _ _ _ _ _ _ _ _ _)).
  - eapply (spawned_add _ defaultEnv _ _ 6 [0; 0; 0.5]%Q _ []
              (mkObstacle CACTUS_SMALL _ _ _ _ _ _ _ _ _ _)).
    + apply spawned_start.
    + now apply several_types_default.
    + vm_compute; reflexivity.
    + reflexivity.
  - now apply several_types_default.
  - vm_compute; reflexivity.
  - reflexivity.
Qed.

Lemma no_type_three_times_in_a_row_witness :
  exists h,
    (forall pre t post,
       ["CACTUS_SMALL"; "CACTUS_SMALL"] <> pre ++ [t; t; t] ++ post) /\
    (length (obstacleHistory h) <= 2)%nat /\
    (forall env, several_types env h ->
       (forall t, duplicateObstacleCheck env h t = true <->
                  obstacleHistory h = [t; t]) /\
       (forall s r rest ty,
          candidate env h r = Some ty ->
          obstacleHistory h = [type_name ty; type_name ty] ->
          addNewObstacle env h s (r :: rest) = addNewObstacle env h s rest)).
Proof.
  destruct two_small_cacti as [h Hh]. exists h.
  apply (no_type_three_times_in_a_row (new_Horizon 600 0.6)
           ["CACTUS_SMALL"; "CACTUS_SMALL"] h).
  - reflexivity.
  - exact Hh.
Defined.

End DuplicationFacts.

(** ** Retries of the spawner *)

Module RetryFacts.
Import JS TRex RandomFacts SpawnerFacts.

Lemma Qltb_lt a b : Qltb a b = true <-> (a < b)%Q.
Proof.
  unfold Qltb. rewrite negb_true_iff, <- not_true_iff_false, Qle_bool_iff.
  split; [apply Qnot_le_lt | apply Qlt_not_le].
Qed.

Lemma rejected_iff env h n s ty :
  0 < n -> rejected env h n s ty = true <-> fails_check env h s ty.
Proof.
  intros Hn. unfold rejected, fails_check.
  assert ((n >? 0) = true) as -> by (apply Z.gtb_gt; lia).
  now rewrite orb_true_iff, Qltb_lt.
Qed.

Lemma obstacleCount_of_Some env h n :
  obstacleCount_of env h = Some n ->
  n < Z.of_nat (length (Obstacle_types env)) /\
  0 < Z.of_nat (length (Obstacle_types env)).
Proof.
  unfold obstacleCount_of.
  destruct (at_index _ _) as [lastType|] eqn:E; [|discriminate].
  intros [= <-]. unfold at_index in E.
  destruct (_ <? 0) eqn:Hneg; [discriminate|]. apply Z.ltb_ge in Hneg.
  destruct (_ || _); lia.
Qed.

Lemma at_index_in_range {A} (l : list A) i :
  0 <= i < Z.of_nat (length l) -> is_Some (at_index l i).
Proof.
  intros Hi. unfold at_index.
  assert ((i <? 0) = false) as -> by (apply Z.ltb_ge; lia).
  apply lookup_lt_is_Some. lia.
Qed.

(** One retry: a rejected candidate makes the call start over on the
    remaining draws. *)
Lemma addNewObstacle_retry env h s n r rest ty :
  obstacleCount_of env h = Some n -> 0 < n ->
  candidate env h r = Some ty -> rejected env h n s ty = true ->
  addNewObstacle env h s (r :: rest) = addNewObstacle env h s rest.
Proof.
  intros Hn Hpos Hc Hrej. unfold candidate in Hc. simpl. rewrite Hn in Hc |- *.
  assert (Hgt : (n >? 0) = true) by (apply Z.gtb_gt; lia).
  rewrite Hgt in Hc |- *. now rewrite Hc, Hrej.
Qed.

Lemma quiet_bind {A B} (m : Rand A) (k : A -> Rand B) rs :
  quiet (m rs) -> (forall a rs1, m rs = Done a rs1 -> quiet (k a rs1)) ->
  quiet ((m ≫= k) rs).
Proof.
  unfold mbind, rand_bind. destruct (m rs); simpl; auto.
Qed.

Lemma quiet_getRandomNum a b rs : quiet (getRandomNum a b rs).
Proof. destruct rs; exact I. Qed.

Lemma quiet_pick_yPos env ty rs : quiet (pick_yPos env ty rs).
Proof.
  unfold pick_yPos. destruct (type_yPos ty); [exact I|].
  apply quiet_bind; [apply quiet_getRandomNum | intros; exact I].
Qed.

Lemma quiet_pick_speedOffset ty rs : quiet (pick_speedOffset ty rs).
Proof.
  unfold pick_speedOffset. destruct (Qeq_bool _ _); [exact I|].
  apply quiet_bind; [destruct rs; exact I | intros; exact I].
Qed.

Lemma adjustCollisionBoxes_Some w boxes :
  (3 <= length boxes)%nat -> is_Some (adjustCollisionBoxes w boxes).
Proof.
  destruct boxes as [|b0 [|b1 [|b2 l]]]; simpl; try lia. intros _. eauto.
Qed.

Lemma quiet_new_Obstacle env ty W c s off rs :
  groupable s ty -> quiet (new_Obstacle env ty W c s off rs).
Proof.
  intros Hg. unfold new_Obstacle.
  apply quiet_bind; [apply quiet_getRandomNum|]. intros size0 rs1 _.
  apply quiet_bind; [apply quiet_pick_yPos|]. intros y rs2 _.
  apply quiet_bind.
  - destruct (size0 >? 1) eqn:Hs; simpl.
    + destruct Hg as [-> | Hlen]; simpl; [exact I|].
      destruct (Qgtb (multipleSpeed ty) s); simpl; [exact I|]. rewrite Hs.
      destruct (adjustCollisionBoxes_Some (type_width ty * size0)
                  (type_collisionBoxes ty) Hlen) as [b ->]. exact I.
    + rewrite Hs. exact I.
  - intros boxes rs3 _.
    apply quiet_bind; [apply quiet_pick_speedOffset|]. intros so rs4 _.
    apply quiet_bind; [apply quiet_getRandomNum | intros; exact I].
Qed.

Lemma quiet_placeObstacle env h s ty rs :
  groupable s ty -> quiet (placeObstacle env h s ty rs).
Proof.
  intros Hg. unfold placeObstacle.
  apply quiet_bind; [now apply quiet_new_Obstacle | intros; exact I].
Qed.

(** With draws in [[0, 1)] and such a table the spawner does not throw: it
    returns, or it is still retrying when the draws end. *)
Lemma quiet_addNewObstacle env h s n rs :
  obstacleCount_of env h = Some n ->
  Forall (groupable s) (Obstacle_types env) ->
  Forall unit_draw rs ->
  quiet (addNewObstacle env h s rs).
Proof.
  intros Hn Hty Hrs. rewrite Forall_forall in Hty.
  destruct (obstacleCount_of_Some env h n Hn) as [Hlt Hne].
  induction Hrs as [|r rs Hr _ IH]; simpl; rewrite Hn.
  - destruct (n >? 0); [exact I|].
    destruct (at_index_in_range (Obstacle_types env) 0 ltac:(lia)) as [ty Hty0].
    rewrite Hty0. destruct (rejected _ _ _ _ _); [exact I|].
    apply quiet_placeObstacle, Hty. eauto using at_index_elem.
  - destruct (n >? 0) eqn:Hpos.
    + apply Z.gtb_gt in Hpos.
      pose proof (randomNumOf_range r 0 n Hr ltac:(lia)) as Hidx.
      destruct (at_index_in_range (Obstacle_types env)
                  (randomNumOf r 0 n) ltac:(lia)) as [ty Hty0].
      rewrite Hty0. destruct (rejected _ _ _ _ _); [exact IH|].
      apply quiet_placeObstacle, Hty. eauto using at_index_elem.
    + destruct (at_index_in_range (Obstacle_types env) 0 ltac:(lia))
        as [ty Hty0].
      rewrite Hty0. destruct (rejected _ _ _ _ _); [exact I|].
      apply quiet_placeObstacle, Hty. eauto using at_index_elem.
Qed.

Lemma groupable_original s :
  (s < 1000)%Q -> Forall (groupable s) original_OBSTACLES.
Proof.
  intros Hs. unfold original_OBSTACLES.
  apply Forall_cons; split; [right; simpl; lia|].
  apply Forall_cons; split; [right; simpl; lia|].
  apply Forall_cons; split; [right; simpl; lia|].
  apply Forall_cons; split; [left; now apply Qltb_lt | apply Forall_nil_2].
Qed.

Lemma within_ret {A} (a : A) : within 0 (mret a).
Proof. intros rs _. exists a, rs. split; [reflexivity | lia]. Qed.

Lemma within_weaken {A} (m : Rand A) k k' :
  (k <= k')%nat -> within k m -> within k' m.
Proof.
  intros Hk Hm rs Hrs. destruct (Hm rs ltac:(lia)) as (a & rest & E & Hl).
  exists a, rest. split; [exact E | lia].
Qed.

Lemma within_bind {A B} (m : Rand A) (f : A -> Rand B) k1 k2 :
  within k1 m -> (forall a, within k2 (f a)) -> within (k1 + k2) (m ≫= f).
Proof.
  intros Hm Hf rs Hrs.
  destruct (Hm rs ltac:(lia)) as (a & rs1 & E & Hl).
  destruct (Hf a rs1 ltac:(lia)) as (b & rest & E' & Hl').
  exists b, rest. split; [|lia].
  apply bind_Done. eauto.
Qed.

Lemma within_Math_random : within 1 Math_random.
Proof.
  intros [|r rs] Hrs; simpl in Hrs; [lia|].
  exists r, rs. split; [reflexivity | simpl; lia].
Qed.

Lemma within_getRandomNum a b : within 1 (getRandomNum a b).
Proof.
  unfold getRandomNum.
  apply (within_bind _ _ 1 0); [apply within_Math_random|].
  intros r. apply within_ret.
Qed.

Lemma within_pick_yPos env ty : within 1 (pick_yPos env ty).
Proof.
  unfold pick_yPos. destruct (type_yPos ty).
  - apply (within_weaken _ 0); [lia | apply within_ret].
  - apply (within_bind _ _ 1 0); [apply within_getRandomNum|].
    intros i. apply within_ret.
Qed.

Lemma within_pick_speedOffset ty : within 1 (pick_speedOffset ty).
Proof.
  unfold pick_speedOffset. destruct (Qeq_bool _ _).
  - apply (within_weaken _ 0); [lia | apply within_ret].
  - apply (within_bind _ _ 1 0); [apply within_Math_random|].
    intros i. apply within_ret.
Qed.

(** The constructor takes at most four draws: size, height, speed offset
    and gap. *)
Lemma within_new_Obstacle env ty W c s off :
  groupable s ty -> within 4 (new_Obstacle env ty W c s off).
Proof.
  intros Hg. unfold new_Obstacle.
  apply (within_bind _ _ 1 3); [apply within_getRandomNum|]. intros size0.
  apply (within_bind _ _ 1 2); [apply within_pick_yPos|]. intros y.
  apply (within_bind _ _ 0 2).
  - destruct (size0 >? 1) eqn:Hs; simpl.
    + destruct Hg as [-> | Hlen]; simpl; [apply within_ret|].
      destruct (Qgtb (multipleSpeed ty) s); simpl; [apply within_ret|].
      rewrite Hs.
      destruct (adjustCollisionBoxes_Some (type_width ty * size0)
                  (type_collisionBoxes ty) Hlen) as [b ->]. apply within_ret.
    + rewrite Hs. apply within_ret.
  - intros boxes.
    apply (within_bind _ _ 1 1); [apply within_pick_speedOffset|]. intros so.
    apply (within_bind _ _ 1 0); [apply within_getRandomNum|]. intros g.
    apply within_ret.
Qed.

(** An accepted candidate followed by four draws is placed. *)
Lemma addNewObstacle_accepts env h s n r rest ty :
  obstacleCount_of env h = Some n -> 0 < n ->
  candidate env h r = Some ty -> rejected env h n s ty = false ->
  groupable s ty -> (4 <= length rest)%nat ->
  exists h' rest' o,
    addNewObstacle env h s (r :: rest) = Done h' rest' /\
    obstacles h' = obstacles h ++ [o] /\ typeConfig o = ty.
Proof.
  intros Hn Hpos Hc Hrej Hg Hlen. unfold candidate in Hc. simpl.
  rewrite Hn in Hc |- *.
  assert (Hgt : (n >? 0) = true) by (apply Z.gtb_gt; lia).
  rewrite Hgt in Hc |- *. rewrite Hc, Hrej.
  destruct (within_new_Obstacle env ty (dimensions_WIDTH h)
              (horizon_gapCoefficient h) s (type_width ty) Hg rest Hlen)
    as (o & rest' & Ho & _).
  unfold placeObstacle.
  eexists _, rest', o. split.
  - apply bind_Done. exists o, rest'. split; [exact Ho | reflexivity].
  - split; [reflexivity|].
    now apply new_Obstacle_Done in Ho as (_ & _ & _ & _ & Htc & _).
Qed.

(** Any number of retries: a run of rejected candidates is skipped
    whole. *)
Lemma addNewObstacle_retry_many env h s n draws rest :
  obstacleCount_of env h = Some n -> 0 < n ->
  Forall (fun r => exists ty, candidate env h r = Some ty /\
                              fails_check env h s ty) draws ->
  addNewObstacle env h s (draws ++ rest) = addNewObstacle env h s rest.
Proof.
  intros Hn Hpos Hall.
  induction Hall as [|r draws (ty & Hc & Hf) _ IH]; [reflexivity|].
  simpl app. rewrite <- IH.
  apply (addNewObstacle_retry env h s n r _ ty); try assumption.
  now apply rejected_iff.
Qed.

(** The pterodactyl needs speed 8.5: at speed 6 any number [k] of draws
    that select it are retried, and the next acceptable draw is placed. *)
Lemma pterodactyl_retried (k : nat) :
  exists h',
    addNewObstacle defaultEnv (new_Horizon 600 0.6) 6
      (replicate k 0.9%Q ++ [0; 0; 0.5]%Q) = Done h' [] /\
    map (fun o => type_name (typeConfig o)) (obstacles h') = ["CACTUS_SMALL"].
Proof.
  rewrite (addNewObstacle_retry_many defaultEnv (new_Horizon 600 0.6) 6 2
             (replicate k 0.9%Q) _ eq_refl ltac:(lia)).
  - eexists. split; vm_compute; reflexivity.
  - apply Forall_forall. intros r [-> _]%elem_of_replicate.
    exists PTERODACTYL. split; [reflexivity|]. right. reflexivity.
Qed.

(** C8.  [addNewObstacle] retries without a limit: a run of draws, however
    long, whose candidates fail the duplicate-run check or need more speed
    than the current one is consumed by as many recursive attempts, and the
    call goes on with the draws that follow; a call that returns has
    appended exactly one obstacle, of a type the current speed allows; and
    when the constraints reject every type of the table the call returns
    for no stream of draws.  A draw whose candidate passes both checks is
    placed as soon as four more draws follow, and with a table whose
    grouped types have their three boxes the call does nothing else: it
    returns with the obstacle appended or it is still retrying. *)
Theorem addNewObstacle_retries_without_limit (env : Env) (h : Horizon)
  (s : Q) :
  (forall n, obstacleCount_of env h = Some n -> 0 < n ->
     forall draws rest,
       Forall (fun r => exists ty, candidate env h r = Some ty /\
                                   fails_check env h s ty) draws ->
       addNewObstacle env h s (draws ++ rest) = addNewObstacle env h s rest)
  /\ (forall rs h' rest,
        addNewObstacle env h s rs = Done h' rest ->
        exists ty o,
          ty ∈ Obstacle_types env /\ ~ (s < minSpeed ty)%Q /\
          typeConfig o = ty /\
          obstacles h' = obstacles h ++ [o])
  /\ (forall n, obstacleCount_of env h = Some n ->
        (forall ty, ty ∈ Obstacle_types env -> rejected env h n s ty = true) ->
        forall rs, Forall unit_draw rs ->
                   addNewObstacle env h s rs = Pending)
  /\ (forall n r rest ty,
        obstacleCount_of env h = Some n -> 0 < n ->
        candidate env h r = Some ty -> ~ fails_check env h s ty ->
        groupable s ty -> (4 <= length rest)%nat ->
        exists h' rest' o,
          addNewObstacle env h s (r :: rest) = Done h' rest' /\
          obstacles h' = obstacles h ++ [o] /\ typeConfig o = ty)
  /\ (forall n, obstacleCount_of env h = Some n ->
        Forall (groupable s) (Obstacle_types env) ->
        forall rs, Forall unit_draw rs ->
                   (exists h' rest, addNewObstacle env h s rs = Done h' rest) \/
                   addNewObstacle env h s rs = Pending).
Proof.
  split; [|split; [|split; [|split]]].
  - intros n Hn Hpos draws rest Hall.
    now apply (addNewObstacle_retry_many env h s n).
  - intros rs h' rest Hadd.
    apply addNewObstacle_Done in Hadd
      as (n & ty & used & rs1 & Hn & Hin & Hrej & _ & Hp).
    apply placeObstacle_Done in Hp as (o & Ho & Hobs & Hh & _).
    apply new_Obstacle_Done in Ho as (_ & _ & _ & _ & Htc & _).
    exists ty, o. split; [exact Hin|]. split.
    { unfold rejected in Hrej. apply orb_false_iff in Hrej as [_ Hs].
      rewrite <- Qltb_lt. now rewrite Hs. }
    split; [exact Htc | exact Hobs].
  - intros n Hn Hall rs Hrs.
    destruct (obstacleCount_of_Some env h n Hn) as [Hlt Hne].
    induction Hrs as [|r rs Hr _ IH]; simpl; rewrite Hn.
    + destruct (n >? 0) eqn:Hpos; [reflexivity|].
      destruct (at_index_in_range (Obstacle_types env) 0 ltac:(lia))
        as [ty Hty].
      rewrite Hty, (Hall ty); [reflexivity | eauto using at_index_elem].
    + destruct (n >? 0) eqn:Hpos.
      * apply Z.gtb_gt in Hpos.
        pose proof (randomNumOf_range r 0 n Hr ltac:(lia)) as Hidx.
        destruct (at_index_in_range (Obstacle_types env)
                    (randomNumOf r 0 n) ltac:(lia)) as [ty Hty].
        rewrite Hty, (Hall ty); [|eauto using at_index_elem].
        exact IH.
      * destruct (at_index_in_range (Obstacle_types env) 0 ltac:(lia))
          as [ty Hty].
        rewrite Hty, (Hall ty); [reflexivity | eauto using at_index_elem].
  - intros n r rest ty Hn Hpos Hc Hok Hg Hlen.
    apply (addNewObstacle_accepts env h s n); try assumption.
    rewrite <- (rejected_iff env h n s ty Hpos) in Hok.
    now destruct (rejected env h n s ty).
  - intros n Hn Hty rs Hrs.
    pose proof (quiet_addNewObstacle env h s n rs Hn Hty Hrs) as Hq.
    destruct (addNewObstacle env h s rs) as [h' rest| |e];
      [left; eauto | now right | contradiction].
Qed.

Lemma addNewObstacle_retries_without_limit_witness :
  addNewObstacle defaultEnv (new_Horizon 600 0.6) 6
    ([0.9; 0.9; 0.9] ++ [0; 0; 0.5])%Q
  = addNewObstacle defaultEnv (new_Horizon 600 0.6) 6 [0; 0; 0.5]%Q.
Proof.
  apply (proj1 (addNewObstacle_retries_without_limit defaultEnv
                  (new_Horizon 600 0.6) 6) 2 eq_refl ltac:(lia)).
  repeat constructor; exists PTERODACTYL; (split; [reflexivity|]);
    right; reflexivity.
Defined.

End RetryFacts.

(** ** The speed ramp *)

Module RampFacts.
Import JS TRex RetryFacts.

(** A frame that does not end the game ramps the speed and adds to the
    distance. *)
Lemma update_collision_cases env dt hasObstacles r r' :
  update_collision env dt hasObstacles r = inr r' ->
  (r' = gameOver r) \/
  (crashed r' = crashed r /\ playing r' = playing r /\ config r' = config r /\
   msPerFrame r' = msPerFrame r /\
   currentSpeed r' = rampSpeed (config r) (currentSpeed r) /\
   distanceRan r' = (distanceRan r + currentSpeed r * dt / msPerFrame r)%Q).
Proof.
  unfold update_collision.
  destruct (collisionOf env hasObstacles r) as [e|collision]; [discriminate|].
  destruct (collects env collision r); simpl.
  - intros [= <-]. right. repeat split.
  - destruct collision; simpl; intros [= <-]; [left | right]; repeat split.
Qed.

Lemma frame_cases env f r r' :
  playing r = true ->
  frame env f r = inr r' ->
  (crashed r' = true /\ playing r' = false) \/
  (crashed r' = crashed r /\ playing r' = true /\ config r' = config r /\
   msPerFrame r' = msPerFrame r /\
   currentSpeed r' = rampSpeed (config r) (currentSpeed r) /\
   distanceRan r' =
     (distanceRan r + currentSpeed r * frame_deltaTime f / msPerFrame r)%Q).
Proof.
  intros Hp. unfold frame. rewrite Hp.
  intros [->|H]%update_collision_cases; [left; split; reflexivity|].
  right. destruct H as (Hc & Hpl & Hcfg & Hms & Hs & Hd). simpl in *.
  repeat split; assumption.
Qed.

Lemma frame_stopped env f r : playing r = false -> frame env f r = inr r.
Proof. unfold frame. now intros ->. Qed.

Lemma frames_stopped env fs r :
  playing r = false -> frames env fs r = inr r.
Proof.
  intros Hp. induction fs as [|f fs IH]; [reflexivity|].
  simpl. now rewrite frame_stopped.
Qed.

(** Over a run of frames that ends without a crash the speed has been
    ramped once per frame. *)
Lemma frames_ramp env fs r r' :
  playing r = true ->
  frames env fs r = inr r' -> crashed r' = false ->
  config r' = config r /\
  currentSpeed r' =
    N.iter (N.of_nat (length fs)) (rampSpeed (config r)) (currentSpeed r).
Proof.
  revert r. induction fs as [|f fs IH]; intros r Hp; simpl frames.
  - intros [= <-] _. split; reflexivity.
  - destruct (frame env f r) as [e|r1] eqn:Hf; [discriminate|].
    intros Hfs Hc.
    destruct (frame_cases env f r r1 Hp Hf)
      as [[Hc1 Hp1]|(_ & Hp1 & Hcfg & _ & Hs & _)].
    + rewrite (frames_stopped env fs r1 Hp1) in Hfs.
      injection Hfs as <-. congruence.
    + destruct (IH r1 Hp1 Hfs Hc) as [Hcfg' Hs'].
      split; [congruence|].
      rewrite Hs', Hcfg, Hs. simpl length.
      rewrite Nat2N.inj_succ, N.iter_succ_r. reflexivity.
Qed.

Lemma rampSpeed_below cfg s :
  (s < MAX_SPEED cfg)%Q -> rampSpeed cfg s = (s + ACCELERATION cfg)%Q.
Proof. unfold rampSpeed. intros H. apply Qltb_lt in H. now rewrite H. Qed.

Lemma rampSpeed_capped cfg s :
  ~ (s < MAX_SPEED cfg)%Q -> rampSpeed cfg s = s.
Proof.
  unfold rampSpeed. intros H. rewrite <- Qltb_lt in H.
  now destruct (Qltb s (MAX_SPEED cfg)).
Qed.

(** The ramp never carries the speed beyond [MAX_SPEED + ACCELERATION]. *)
Lemma rampSpeed_bound cfg s :
  (0 <= ACCELERATION cfg)%Q ->
  (s <= MAX_SPEED cfg + ACCELERATION cfg)%Q ->
  (rampSpeed cfg s <= MAX_SPEED cfg + ACCELERATION cfg)%Q.
Proof.
  intros Ha Hs. unfold rampSpeed.
  destruct (Qltb s (MAX_SPEED cfg)) eqn:E; [|exact Hs].
  apply Qltb_lt in E. apply Qplus_le_l. now apply Qlt_le_weak.
Qed.

(** Below the cap the ramp is linear in the number of frames. *)
Lemma ramp_linear cfg (n : N) s :
  (0 < ACCELERATION cfg)%Q ->
  (s + inject_Z (Z.of_N n) * ACCELERATION cfg <= MAX_SPEED cfg)%Q ->
  (N.iter n (rampSpeed cfg) s == s + inject_Z (Z.of_N n) * ACCELERATION cfg)%Q.
Proof.
  intros Ha. revert s. induction n as [|n IH] using N.peano_ind; intros s Hs.
  - simpl. ring.
  - rewrite N.iter_succ_r.
    assert (E : (inject_Z (Z.of_N (N.succ n))
                 == inject_Z (Z.of_N n) + 1)%Q).
    { rewrite N2Z.inj_succ. unfold Z.succ. rewrite inject_Z_plus. reflexivity. }
    rewrite E in Hs |- *.
    assert (Hn : (0 <= inject_Z (Z.of_N n))%Q).
    { rewrite <- (Zle_Qle 0). lia. }
    assert (Hlt : (s < MAX_SPEED cfg)%Q).
    { eapply Qlt_le_trans; [|exact Hs].
      rewrite <- (Qplus_0_r s) at 1. apply Qplus_lt_r.
      apply Qlt_le_trans with (0 + 1 * ACCELERATION cfg)%Q.
      - ring_simplify. exact Ha.
      - rewrite Qmult_plus_distr_l. apply Qplus_le_l.
        apply Qmult_le_0_compat; [exact Hn | now apply Qlt_le_weak]. }
    rewrite (rampSpeed_below cfg s Hlt).
    rewrite IH; [ring|].
    eapply Qle_trans; [|exact Hs]. apply Qle_lteq. right. ring.
Qed.


(** *** The ramp on doubles *)

Definition ramp64 : float -> float := rampSpeed_binary64 13 ACCELERATION_binary64.

Definition bound64 : float := PrimFloat.add 13 ACCELERATION_binary64.

(** The speed together with the flag "no speed so far was above the
    bound". *)
Definition watch (p : float * bool) : float * bool :=
  let s := ramp64 (fst p) in (s, snd p && PrimFloat.leb s bound64).

Lemma watch_fst (n : N) s b :
  fst (N.iter n watch (s, b)) = N.iter n ramp64 s.
Proof.
  induction n as [|n IH] using N.peano_ind; [reflexivity|].
  rewrite !N.iter_succ. simpl. now rewrite IH.
Qed.

Lemma watch_sound (n : N) s b :
  snd (N.iter n watch (s, b)) = true ->
  forall k, (k <= n)%N -> k <> 0%N ->
            PrimFloat.leb (N.iter k ramp64 s) bound64 = true.
Proof.
  induction n as [|n IH] using N.peano_ind; intros Hw k Hk Hk0; [lia|].
  rewrite N.iter_succ in Hw. simpl in Hw.
  apply andb_true_iff in Hw as [Hw Hle].
  destruct (N.eq_dec k (N.succ n)) as [->|Hne].
  - rewrite N.iter_succ. rewrite watch_fst in Hle. exact Hle.
  - apply IH; [exact Hw | lia | exact Hk0].
Qed.

Lemma ramp64_fixed (n : N) s : ramp64 s = s -> N.iter n ramp64 s = s.
Proof.
  intros Hs. induction n as [|n IH] using N.peano_ind; [reflexivity|].
  now rewrite N.iter_succ, IH.
Qed.

(** After 7001 frames the speed of the normal configuration is
    13.000999999997896 and stays there. *)
Lemma ramp64_top : ramp64 (N.iter 7001 ramp64 6%float) = N.iter 7001 ramp64 6%float.
Proof. vm_compute. reflexivity. Qed.

Lemma ramp64_bounded (n : N) :
  PrimFloat.leb (N.iter n ramp64 6%float) bound64 = true.
Proof.
  destruct (N.le_gt_cases n 7001) as [Hle|Hgt].
  - destruct (N.eq_dec n 0) as [->|Hn0]; [vm_compute; reflexivity|].
    apply (watch_sound 7001 6%float true); [vm_compute; reflexivity | exact Hle | exact Hn0].
  - replace n with ((n - 7001) + 7001)%N by lia.
    rewrite N.iter_add, (ramp64_fixed _ _ ramp64_top).
    vm_compute. reflexivity.
Qed.

(** C4, as the code has it.  A frame of play that ends without a crash adds
    [currentSpeed * deltaTime / msPerFrame] to the distance and, while the
    speed is below [MAX_SPEED], adds [ACCELERATION] to it; a speed that has
    reached [MAX_SPEED] is left alone.  The test precedes the addition, so
    the speed stops within one step above [MAX_SPEED]: it never exceeds
    [MAX_SPEED + ACCELERATION].  From 6.0 with acceleration 0.001 and
    [MAX_SPEED = 13], 1000 frames without a crash leave the speed at 7,
    below 13, in exact arithmetic and on doubles alike, and on doubles
    no number of frames takes it above [13 + 0.001]. *)
Theorem speed_ramp_stops_within_one_step_of_MAX_SPEED (env : Env) :
  (forall f r r',
     playing r = true ->
     frame env f r = inr r' -> crashed r' = false ->
     distanceRan r' =
       (distanceRan r + currentSpeed r * frame_deltaTime f / msPerFrame r)%Q /\
     ((currentSpeed r < MAX_SPEED (config r))%Q ->
      currentSpeed r' = (currentSpeed r + ACCELERATION (config r))%Q) /\
     (~ (currentSpeed r < MAX_SPEED (config r))%Q ->
      currentSpeed r' = currentSpeed r) /\
     ((0 <= ACCELERATION (config r))%Q ->
      (currentSpeed r <= MAX_SPEED (config r) + ACCELERATION (config r))%Q ->
      (currentSpeed r' <= MAX_SPEED (config r) + ACCELERATION (config r))%Q))
  /\ (forall fs r r',
        config r = normalConfig -> currentSpeed r = 6%Q ->
        playing r = true -> length fs = 1000%nat ->
        frames env fs r = inr r' -> crashed r' = false ->
        (currentSpeed r' == 7)%Q /\ (currentSpeed r' < 13)%Q)
  /\ PrimFloat.ltb (rampTicks_binary64 1000 6) 13 = true
  /\ (forall n, PrimFloat.leb (rampTicks_binary64 n 6)
                  (PrimFloat.add 13 ACCELERATION_binary64) = true).
Proof.
  split; [|split; [|split]].
  - intros f r r' Hp Hf Hc'.
    destruct (frame_cases env f r r' Hp Hf)
      as [[Hc1 _]|(_ & _ & _ & _ & Hs & Hd)]; [congruence|].
    split; [exact Hd|]. rewrite Hs. split; [|split].
    + apply rampSpeed_below.
    + apply rampSpeed_capped.
    + apply rampSpeed_bound.
  - intros fs r r' Hcfg Hs Hp Hlen Hfs Hc.
    destruct (frames_ramp env fs r r' Hp Hfs Hc) as [_ ->].
    rewrite Hcfg, Hs, Hlen.
    assert (E : (N.iter (N.of_nat 1000) (rampSpeed normalConfig) 6 == 7)%Q).
    { rewrite ramp_linear; [reflexivity | reflexivity | discriminate]. }
    split; [exact E | now rewrite E].
  - vm_compute. reflexivity.
  - exact ramp64_bounded.
Qed.

(** C4 fails as stated: on doubles the ramp from 6.0 reaches
    12.999999999997897 after 7000 frames, still below 13, and the next
    frame lifts it to 13.000999999997896. *)
Lemma speed_exceeds_MAX_SPEED :
  PrimFloat.ltb (rampTicks_binary64 7000 6) 13 = true /\
  PrimFloat.ltb 13 (rampTicks_binary64 7001 6) = true.
Proof. split; vm_compute; reflexivity. Qed.

End RampFacts.

(** ** Snake *)

Module SnakeFacts.
Import JS Snake RandomFacts.

Lemma same_cell_eq a b : same_cell a b = true <-> a = b.
Proof.
  unfold same_cell. rewrite andb_true_iff, !Z.eqb_eq.
  destruct a, b; simpl. split; [intros [-> ->]; reflexivity | now intros [= -> ->]].
Qed.

Lemma some_at_elem cells p : some_at cells p = true <-> p ∈ cells.
Proof.
  unfold some_at. rewrite existsb_exists. split.
  - intros (c & Hin & ->%same_cell_eq). now apply list_elem_of_In.
  - intros Hin. exists p. split; [now apply list_elem_of_In | now apply same_cell_eq].
Qed.

Lemma some_at_false cells p : some_at cells p = false <-> p ∉ cells.
Proof.
  rewrite <- some_at_elem. destruct (some_at cells p); split; congruence.
Qed.

Lemma obstacle_clash_false sn fd obs o :
  obstacle_clash sn fd obs o = false <-> (o ∉ sn) /\ o <> fd /\ (o ∉ obs).
Proof.
  unfold obstacle_clash. rewrite !orb_false_iff, !some_at_false.
  change ((x o =? x fd) && (y o =? y fd)) with (same_cell o fd).
  rewrite <- not_true_iff_false, same_cell_eq. tauto.
Qed.

Section Grid.
Variable T : Z.

(** The cell that the rejection loop of [generateObstacles] settles on is
    free. *)
Lemma drawObstacle_free sn fd obs rs o rest :
  drawObstacle T sn fd obs rs = Done o rest ->
  (o ∉ sn) /\ o <> fd /\ (o ∉ obs).
Proof.
  remember (length rs) as n eqn:Hn. revert rs Hn.
  induction n as [n IH] using lt_wf_ind. intros rs Hn.
  destruct rs as [|rx [|ry rs']]; simpl; try discriminate.
  destruct (obstacle_clash _ _ _ _) eqn:E.
  - apply (IH (length rs')); [simpl in Hn; lia | reflexivity].
  - intros [= <- <-]. now apply obstacle_clash_false.
Qed.

Lemma generateObstacles_from_free n sn fd obs rs obs' rest :
  generateObstacles_from T n sn fd obs rs = Done obs' rest ->
  (forall o, o ∈ obs -> (o ∉ sn) /\ o <> fd) -> NoDup obs ->
  (forall o, o ∈ obs' -> (o ∉ sn) /\ o <> fd) /\ NoDup obs' /\
  length obs' = (length obs + n)%nat.
Proof.
  revert obs rs. induction n as [|n IH]; intros obs rs; simpl.
  - intros [<- _]%ret_Done Hfree Hnd. repeat split; auto; apply Hfree; auto.
  - intros (o & rs1 & Ho & H)%bind_Done Hfree Hnd.
    apply drawObstacle_free in Ho as (Hsn & Hfd & Hobs).
    apply IH in H as (H1 & H2 & H3).
    + repeat split; auto; [apply H1; auto..|].
      rewrite H3, length_app. simpl. lia.
    + intros o' [Hin| ->%list_elem_of_singleton]%elem_of_app; auto.
    + apply NoDup_app. repeat split; auto.
      * intros o' Hin ->%list_elem_of_singleton. contradiction.
      * apply NoDup_singleton.
Qed.

(** The obstacles of [generateObstacles] avoid the snake, the food and each
    other. *)
Lemma generateObstacles_free sn fd rs obs rest :
  generateObstacles T sn fd rs = Done obs rest ->
  (forall o, o ∈ obs -> (o ∉ sn) /\ o <> fd) /\ NoDup obs /\ length obs = 5%nat.
Proof.
  intros H. apply generateObstacles_from_free in H; [exact H| |apply NoDup_nil_2].
  intros o Ho. inversion Ho.
Qed.

(** The food that the loop of lines 161-167 settles on is free. *)
Lemma redrawFood_free sn obs fd rs fd' rest :
  redrawFood T sn obs fd rs = Done fd' rest ->
  (fd' ∉ sn) /\ (fd' ∉ obs).
Proof.
  remember (length rs) as n eqn:Hn. revert rs fd Hn.
  induction n as [n IH] using lt_wf_ind. intros rs fd Hn.
  destruct rs as [|rx [|ry rs']]; simpl;
    destruct (food_clash sn obs fd) eqn:E; try discriminate.
  - intros [= <- <-]. unfold food_clash in E.
    now rewrite orb_false_iff, !some_at_false in E.
  - intros [= <- <-]. unfold food_clash in E.
    now rewrite orb_false_iff, !some_at_false in E.
  - apply (IH (length rs')); [simpl in Hn; lia | reflexivity].
  - intros [= <- <-]. unfold food_clash in E.
    now rewrite orb_false_iff, !some_at_false in E.
Qed.


(** What [gameOver] leaves behind. *)
Lemma gameOver_Done g rs g' rest :
  gameOver T g rs = Done g' rest ->
  snake g' = [mkCell 10 10] /\ dx g' = 0 /\ dy g' = 0 /\ score g' = 0 /\
  gameSpeed g' = 100%Q /\ isWrapAround g' = false /\
  (forall o, o ∈ obstacles g' -> (o ∉ snake g') /\ o <> food g') /\
  NoDup (obstacles g').
Proof.
  unfold gameOver.
  intros (fd & rs1 & _ & H)%bind_Done.
  apply bind_Done in H as (obs & rs2 & Hobs & [<- _]%ret_Done).
  apply generateObstacles_free in Hobs as (Hfree & Hnd & _).
  simpl. repeat split; auto; apply Hfree; auto.
Qed.

Lemma drawGame_wall g snake0 rest rs :
  snake g = snake0 :: rest ->
  outside T (next_head g snake0) = true ->
  drawGame T g rs =
    if isWrapAround g
    then Raised (TypeError "Assignment to constant variable.")
    else ends_in_gameOver T g rs.
Proof.
  intros Hs Hout. unfold drawGame. rewrite Hs.
  fold (next_head g snake0). unfold outside in Hout. rewrite Hout.
  destruct (isWrapAround g); reflexivity.
Qed.

Lemma drawGame_inside g snake0 rest rs :
  snake g = snake0 :: rest ->
  outside T (next_head g snake0) = false ->
  eats g (next_head g snake0) = false ->
  drawGame T g rs =
    if some_at (obstacles g) (next_head g snake0) then ends_in_gameOver T g rs
    else if hits_self (next_head g snake0) (snake (moved g (next_head g snake0)))
         then ends_in_gameOver T (moved g (next_head g snake0)) rs
         else Done (Drawn (moved g (next_head g snake0))) rs.
Proof.
  intros Hs Hout Heat. unfold drawGame. rewrite Hs.
  fold (next_head g snake0). unfold outside in Hout. rewrite Hout.
  destruct (some_at (obstacles g) _); [reflexivity|].
  unfold eats in Heat. rewrite Heat, <- Hs.
  unfold ends_in_gameOver, moved. cbv [mbind mret rand_bind rand_ret].
  simpl snake. destruct (hits_self _ _); reflexivity.
Qed.


Lemma drawGame_inside_eats g snake0 rest rs :
  snake g = snake0 :: rest ->
  outside T (next_head g snake0) = false ->
  eats g (next_head g snake0) = true ->
  some_at (obstacles g) (next_head g snake0) = false ->
  drawGame T g rs =
    (food1 ← placeFood T g (next_head g snake0);
     if some_at (snake g) (next_head g snake0)
     then ends_in_gameOver T (fed g (next_head g snake0) food1)
     else mret (Drawn (fed g (next_head g snake0) food1))) rs.
Proof.
  intros Hs Hout Heat Hobs. unfold drawGame. rewrite Hs.
  fold (next_head g snake0). unfold outside in Hout. rewrite Hout, Hobs.
  unfold eats in Heat. rewrite Heat, <- Hs.
  unfold placeFood, ends_in_gameOver, fed.
  cbv [mbind mret rand_bind rand_ret].
  destruct (randomCell T rs) as [f rs1| |e]; try reflexivity.
  destruct (redrawFood T _ _ f rs1) as [f1 rs2| |e]; reflexivity.
Qed.

Lemma ends_in_gameOver_Done g1 rs t rest :
  ends_in_gameOver T g1 rs = Done t rest ->
  exists g', t = GameOver g' /\ gameOver T g1 rs = Done g' rest.
Proof.
  unfold ends_in_gameOver.
  intros (g' & rs1 & Hg & [<- <-]%ret_Done)%bind_Done. eauto.
Qed.


(** After a tick that has drawn, a snake of two cells or more is moving,
    and its neck is the cell that the head has come from. *)
Lemma Drawn_neck_behind g rs g1 rest :
  drawGame T g rs = Done (Drawn g1) rest ->
  forall head neck tl,
    snake g1 = head :: neck :: tl ->
    neck = mkCell (x head - dx g1) (y head - dy g1)
    /\ (dx g1, dy g1) <> (0, 0).
Proof.
  intros H head neck tl Hs.
  destruct (snake g) as [|snake0 tl0] eqn:Hg;
    [unfold drawGame in H; rewrite Hg in H; discriminate|].
  destruct (outside T (next_head g snake0)) eqn:Hout.
  { rewrite (drawGame_wall g snake0 tl0 rs Hg Hout) in H.
    destruct (isWrapAround g); [discriminate|].
    apply ends_in_gameOver_Done in H as (g' & [=] & _). }
  assert (Hback : forall h : Cell, h = next_head g snake0 ->
            snake0 = mkCell (x h - dx g) (y h - dy g)).
  { intros h ->. destruct snake0 as [x0 y0]. unfold next_head. simpl.
    f_equal; lia. }
  assert (Hstill : (dx g, dy g) = (0, 0) -> next_head g snake0 = snake0).
  { intros [= E1 E2]. destruct snake0 as [x0 y0]. unfold next_head. simpl.
    rewrite E1, E2. f_equal; lia. }
  destruct (eats g (next_head g snake0)) eqn:Heat.
  - destruct (some_at (obstacles g) (next_head g snake0)) eqn:Hobs.
    { unfold drawGame in H. rewrite Hg in H.
      fold (next_head g snake0) in H. unfold outside in Hout.
      rewrite Hout, Hobs in H.
      apply ends_in_gameOver_Done in H as (g' & [=] & _). }
    rewrite (drawGame_inside_eats g snake0 tl0 rs Hg Hout Heat Hobs) in H.
    apply bind_Done in H as (food1 & rs1 & _ & H).
    destruct (some_at (snake g) (next_head g snake0)) eqn:Hself.
    { apply ends_in_gameOver_Done in H as (g' & [=] & _). }
    apply ret_Done in H as [[= <-] _].
    unfold fed, updateGameSpeed in Hs |- *. simpl in Hs |- *.
    rewrite Hg in Hs. injection Hs as <- <- _.
    split; [now apply Hback|].
    intros E. apply Hstill in E. apply some_at_false in Hself.
    apply Hself. rewrite Hg, E. apply list_elem_of_here.
  - rewrite (drawGame_inside g snake0 tl0 rs Hg Hout Heat) in H.
    destruct (some_at (obstacles g) (next_head g snake0));
      [apply ends_in_gameOver_Done in H as (g' & [=] & _)|].
    destruct (hits_self _ _) eqn:Hself;
      [apply ends_in_gameOver_Done in H as (g' & [=] & _)|].
    injection H as <- _.
    unfold moved in Hs, Hself |- *. simpl in Hs, Hself |- *.
    rewrite Hg in Hs, Hself.
    destruct tl0 as [|c tl0]; [discriminate|].
    change (removelast (next_head g snake0 :: snake0 :: c :: tl0))
      with (next_head g snake0 :: snake0 :: removelast (c :: tl0))
      in Hs, Hself.
    injection Hs as <- <- _.
    split; [now apply Hback|].
    intros E. apply Hstill in E. unfold hits_self in Hself. simpl tail in Hself.
    apply some_at_false in Hself. apply Hself. rewrite E.
    apply list_elem_of_here.
Qed.

(** [wrapAround] alone maps a head one step outside the grid back into
    it. *)
Lemma wrapAround_in_grid head :
  0 < T -> - T <= x head -> - T <= y head ->
  x (wrapAround T head) = x head mod T /\
  y (wrapAround T head) = y head mod T /\
  0 <= x (wrapAround T head) < T /\ 0 <= y (wrapAround T head) < T.
Proof.
  intros HT Hx Hy. unfold wrapAround. simpl.
  rewrite !Z.rem_mod_nonneg by lia.
  rewrite <- (Z.mod_add (x head) 1 T), <- (Z.mod_add (y head) 1 T) by lia.
  rewrite !Z.mul_1_l.
  pose proof (Z.mod_pos_bound (x head + T) T HT).
  pose proof (Z.mod_pos_bound (y head + T) T HT). auto.
Qed.

(** C5, what the code does: with wraparound on, a tick whose head leaves
    the grid is cut short by the [TypeError] of the assignment to the
    [const] binding [head]; nothing is returned and no state is written. *)
Theorem wraparound_tick_raises (g : Game) (snake0 : Cell) (rest : list Cell)
  (rs : list Q) :
  snake g = snake0 :: rest ->
  isWrapAround g = true ->
  outside T (next_head g snake0) = true ->
  drawGame T g rs = Raised (TypeError "Assignment to constant variable.").
Proof.
  intros Hs Hw Hout. rewrite (drawGame_wall g snake0 rest rs Hs Hout).
  now rewrite Hw.
Qed.

(** C6, as the code has it.  With wraparound off, a tick whose new head
    lies outside the grid goes straight to [gameOver()], before the snake
    is touched; [gameOver()] then resets the snake to the single cell
    (10, 10), standing still.  Whatever the wraparound mode, a tick whose
    new head lies inside the grid and coincides with a segment that is
    still part of the snake after the move (any segment when food is eaten
    on that tick, any but the tail otherwise) ends in [gameOver()]. *)
Theorem wall_or_self_hit_is_game_over (g : Game) (snake0 : Cell)
  (rest : list Cell) :
  snake g = snake0 :: rest ->
  let head := next_head g snake0 in
  (isWrapAround g = false -> outside T head = true ->
   forall rs, drawGame T g rs = ends_in_gameOver T g rs)
  /\ (outside T head = false -> eats g head = false ->
      some_at (removelast (snake g)) head = true ->
      forall rs, drawGame T g rs = ends_in_gameOver T g rs \/
                 drawGame T g rs = ends_in_gameOver T (moved g head) rs)
  /\ (outside T head = false -> eats g head = true ->
      some_at (snake g) head = true ->
      forall rs, drawGame T g rs = ends_in_gameOver T g rs \/
                 drawGame T g rs =
                   (food1 ← placeFood T g head;
                    ends_in_gameOver T (fed g head food1)) rs)
  /\ (forall g1 rs t rest',
        ends_in_gameOver T g1 rs = Done t rest' ->
        exists g', t = GameOver g' /\ snake g' = [mkCell 10 10] /\
                   dx g' = 0 /\ dy g' = 0 /\ score g' = 0 /\
                   isWrapAround g' = false).
Proof.
  intros Hs head. split; [|split; [|split]].
  - intros Hw Hout rs. rewrite (drawGame_wall g snake0 rest rs Hs Hout).
    now rewrite Hw.
  - intros Hout Heat Hhit rs.
    rewrite (drawGame_inside g snake0 rest rs Hs Hout Heat). fold head.
    destruct (some_at (obstacles g) head); [now left|]. right.
    assert (hits_self head (snake (moved g head)) = true) as ->; [|reflexivity].
    unfold hits_self, moved. simpl snake. rewrite Hs in Hhit |- *. exact Hhit.
  - intros Hout Heat Hhit rs.
    destruct (some_at (obstacles g) head) eqn:Hobs.
    + left. unfold drawGame. rewrite Hs. fold (next_head g snake0). fold head.
      unfold outside in Hout. now rewrite Hout, Hobs.
    + right. rewrite (drawGame_inside_eats g snake0 rest rs Hs Hout Heat Hobs).
      fold head. now rewrite Hhit.
  - intros g1 rs t rest' (g' & -> & Hg)%ends_in_gameOver_Done.
    apply gameOver_Done in Hg as (H1 & H2 & H3 & H4 & _ & H6 & _).
    exists g'. repeat split; assumption.
Qed.

End Grid.

(** The direction after a key event. *)
Lemma toggles_keep_direction g :
  (dx (toggleFastMode g), dy (toggleFastMode g)) = (dx g, dy g) /\
  (dx (toggleSlowMode g), dy (toggleSlowMode g)) = (dx g, dy g) /\
  (dx (toggleWrapAround g), dy (toggleWrapAround g)) = (dx g, dy g) /\
  (dx (disableWrapAround g), dy (disableWrapAround g)) = (dx g, dy g).
Proof. repeat split. Qed.


(** A key event changes nothing but the direction, the mode flags and the
    speed; and it leaves the direction alone or sets the one its arrow
    names. *)
Lemma changeDirection_direction keyCode g :
  let g' := changeDirection keyCode g in
  snake g' = snake g /\ food g' = food g /\ obstacles g' = obstacles g /\
  ((dx g', dy g') = (dx g, dy g) \/
   (keyCode = 37 /\ dx g <> 1 /\ (dx g', dy g') = (-1, 0)) \/
   (keyCode = 38 /\ dy g <> 1 /\ (dx g', dy g') = (0, -1)) \/
   (keyCode = 39 /\ dx g <> -1 /\ (dx g', dy g') = (1, 0)) \/
   (keyCode = 40 /\ dy g <> -1 /\ (dx g', dy g') = (0, 1))).
Proof.
  unfold changeDirection. cbv zeta.
  destruct (Z.eqb_spec keyCode 37) as [->|H37];
    [|destruct (Z.eqb_spec keyCode 38) as [->|H38];
      [|destruct (Z.eqb_spec keyCode 39) as [->|H39];
        [|destruct (Z.eqb_spec keyCode 40) as [->|H40]]]];
    simpl.
  - destruct (Z.eqb_spec (dx g) 1); simpl; repeat split; auto 10.
  - destruct (Z.eqb_spec (dy g) 1); simpl; repeat split; auto 10.
  - destruct (Z.eqb_spec (dx g) (-1)); simpl; repeat split; auto 10.
  - destruct (Z.eqb_spec (dy g) (-1)); simpl; repeat split; auto 10.
  - destruct (keyCode =? 84), (keyCode =? 83), (keyCode =? 87), (keyCode =? 81);
      simpl; repeat split; auto.
Qed.

(** C10, as the code has it.  A key event never sets the direction to the
    reverse of the direction at the time of the event: "left" is ignored
    while moving right, "right" while moving left, "up" while moving down
    and "down" while moving up, so a snake that is moving has its
    [(dx, dy)] never negated by one event.  When the neck lies behind the
    head, as it does after every tick that has drawn, the head that the
    next tick computes after one event is not the cell of the neck.  The
    guarantee is per event, not per tick: see [two_events_reverse]. *)
Theorem changeDirection_never_reverses (keyCode : Z) (g : Game) :
  let g' := changeDirection keyCode g in
  ((dx g, dy g) <> (0, 0) -> (dx g', dy g') <> (- dx g, - dy g))
  /\ (keyCode = 37 -> dx g = 1 -> (dx g', dy g') = (dx g, dy g))
  /\ (keyCode = 39 -> dx g = -1 -> (dx g', dy g') = (dx g, dy g))
  /\ (keyCode = 38 -> dy g = 1 -> (dx g', dy g') = (dx g, dy g))
  /\ (keyCode = 40 -> dy g = -1 -> (dx g', dy g') = (dx g, dy g))
  /\ (forall head neck rest,
        snake g = head :: neck :: rest ->
        (dx g, dy g) <> (0, 0) ->
        neck = mkCell (x head - dx g) (y head - dy g) ->
        forall snake0 rest', snake g' = snake0 :: rest' ->
                             next_head g' snake0 <> neck)
  /\ (forall tileCount g0 rs rs' head neck rest,
        drawGame tileCount g0 rs = Done (Drawn g) rs' ->
        snake g = head :: neck :: rest ->
        snake g' = snake g /\ next_head g' head <> neck).
Proof.
  intros g'.
  destruct (changeDirection_direction keyCode g) as (Hs & _ & _ & Hd).
  fold g' in Hs, Hd.
  assert (Hrev : (dx g, dy g) <> (0, 0) -> (dx g', dy g') <> (- dx g, - dy g)).
  { intros Hnz E. rewrite E in Hd.
    destruct Hd as [[= H1 H2]
                   |[(_ & Hn & [= H1 H2])
                   |[(_ & Hn & [= H1 H2])
                   |[(_ & Hn & [= H1 H2])|(_ & Hn & [= H1 H2])]]]];
      try lia.
    apply Hnz. f_equal; lia. }
  assert (Hneck : forall head neck rest,
            snake g = head :: neck :: rest ->
            (dx g, dy g) <> (0, 0) ->
            neck = mkCell (x head - dx g) (y head - dy g) ->
            forall snake0 rest', snake g' = snake0 :: rest' ->
                                 next_head g' snake0 <> neck).
  { intros head neck rest Hsn Hnz -> snake0 rest' Hs' E.
    rewrite Hs, Hsn in Hs'. injection Hs' as <- _.
    apply (Hrev Hnz). unfold next_head in E. injection E as E1 E2.
    f_equal; lia. }
  split; [exact Hrev|].
  split; [|split; [|split; [|split; [|split; [exact Hneck|]]]]].
  - intros -> Hdx. destruct Hd as [H|[(_ & Hn & _)|[(? & _)|[(? & _)|(? & _)]]]];
      (exact H || lia).
  - intros -> Hdx. destruct Hd as [H|[(? & _)|[(? & _)|[(_ & Hn & _)|(? & _)]]]];
      (exact H || lia).
  - intros -> Hdy. destruct Hd as [H|[(? & _)|[(_ & Hn & _)|[(? & _)|(? & _)]]]];
      (exact H || lia).
  - intros -> Hdy. destruct Hd as [H|[(? & _)|[(? & _)|[(? & _)|(_ & Hn & _)]]]];
      (exact H || lia).
  - intros tileCount g0 rs rs' head neck rest Hdraw Hsn.
    destruct (Drawn_neck_behind tileCount g0 rs g rs' Hdraw head neck rest Hsn)
      as [Hbehind Hnz].
    split; [exact Hs|].
    apply (Hneck head neck rest Hsn Hnz Hbehind head (neck :: rest)).
    now rewrite Hs.
Qed.

(** Two events between two ticks do add up to a reversal: moving right,
    "up" and then "left" leave the snake moving left. *)
Remark two_events_reverse (g : Game) :
  dx g = 1 -> dy g = 0 ->
  let g' := changeDirection 37 (changeDirection 38 g) in
  (dx g', dy g') = (-1, 0).
Proof.
  destruct g as [sn fd obs dx0 dy0 sc sp fast slow wrap]. simpl.
  intros -> ->. reflexivity.
Qed.

End SnakeFacts.

(** ** Snake on a 20 x 20 grid *)

Module SnakeExamples.
Import JS Snake RandomFacts SnakeFacts.

(** Draws that put the food on (10, 10) of a 20 x 20 grid and the five
    obstacles on (0, 0) ... (4, 0). *)
Definition reset_draws : list Q :=
  [0.5; 0.5; 0; 0; 0.05; 0; 0.1; 0; 0.15; 0; 0.2; 0]%Q.

Definition after_reset : Game :=
  mkGame [mkCell 10 10] (mkCell 10 10)
    [mkCell 0 0; mkCell 1 0; mkCell 2 0; mkCell 3 0; mkCell 4 0]
    0 0 0 100 false false false.

(** A snake about to leave a 20 x 20 grid on the right. *)
Definition at_the_wall (wrap : bool) : Game :=
  mkGame [mkCell 19 10; mkCell 18 10] (mkCell 3 3) [] 1 0 0 100 false false wrap.

(** A snake curled into a square, its head about to step on the cell its
    tail is leaving. *)
Definition curled : Game :=
  mkGame [mkCell 5 5; mkCell 5 6; mkCell 6 6; mkCell 6 5] (mkCell 3 3) []
    1 0 0 100 false false false.

(** C7 fails on the reset path: [gameOver] draws the food without looking
    at the snake, so the draws (0.5, 0.5) put it on the snake's only cell
    (10, 10); the obstacles, drawn afterwards, do avoid both. *)
Theorem gameOver_food_on_snake (g : Game) :
  gameOver 20 g reset_draws = Done after_reset [] /\
  food after_reset ∈ snake after_reset.
Proof.
  split; [vm_compute; reflexivity|]. simpl. left.
Qed.

Lemma wraparound_tick_raises_witness :
  drawGame 20 (at_the_wall true) reset_draws
  = Raised (TypeError "Assignment to constant variable.").
Proof.
  apply (wraparound_tick_raises 20 (at_the_wall true) (mkCell 19 10)
           [mkCell 18 10]); reflexivity.
Defined.

(** The cell that the discarded call had computed. *)
Example wrapAround_at_the_wall :
  wrapAround 20 (next_head (at_the_wall true) (mkCell 19 10)) = mkCell 0 10.
Proof. reflexivity. Qed.

Lemma wall_or_self_hit_is_game_over_witness :
  drawGame 20 (at_the_wall false) reset_draws
  = ends_in_gameOver 20 (at_the_wall false) reset_draws.
Proof.
  apply (proj1 (wall_or_self_hit_is_game_over 20 (at_the_wall false)
                  (mkCell 19 10) [mkCell 18 10] eq_refl)); reflexivity.
Defined.

(** C6 fails as stated.  A head that steps on the cell of the tail while
    the tail moves away does not end the game; and a tick that hits the
    wall does not leave the snake where it was: the reset puts it on
    (10, 10). *)
Lemma tail_cell_is_not_game_over :
  (next_head curled (mkCell 5 5) ∈ snake curled /\
   drawGame 20 curled [] =
     Done (Drawn (mkGame [mkCell 6 5; mkCell 5 5; mkCell 5 6; mkCell 6 6]
                    (mkCell 3 3) [] 1 0 0 100 false false false)) []) /\
  (drawGame 20 (at_the_wall false) reset_draws = Done (GameOver after_reset) [] /\
   snake after_reset <> snake (at_the_wall false)).
Proof.
  split; split.
  - simpl. do 3 right. left.
  - vm_compute. reflexivity.
  - vm_compute. reflexivity.
  - discriminate.
Qed.

(** A snake that has eaten twice and moves right. *)
Definition moving_right : Game :=
  mkGame [mkCell 5 5; mkCell 4 5; mkCell 3 5] (mkCell 3 3)
    [mkCell 0 0; mkCell 1 0; mkCell 2 0; mkCell 3 0; mkCell 4 0]
    1 0 20 100 false false false.

(** C10 fails for two key events between two ticks: moving right, "up" and
    then "left" are each accepted, since neither reverses the direction it
    finds, and together they negate [(dx, dy)]; the next tick computes the
    cell of the neck as the new head, and the game is over. *)
Lemma two_keys_reverse_into_the_neck :
  let g := changeDirection 37 (changeDirection 38 moving_right) in
  (dx g, dy g) = (- dx moving_right, - dy moving_right)
  /\ snake g = [mkCell 5 5; mkCell 4 5; mkCell 3 5]
  /\ next_head g (mkCell 5 5) = mkCell 4 5
  /\ exists g',
       drawGame 20 g reset_draws = Done (GameOver g') []
       /\ snake g' = [mkCell 10 10].
Proof.
  cbv zeta. split; [reflexivity|]. split; [reflexivity|].
  split; [reflexivity|].
  exists after_reset. split; [vm_compute; reflexivity | reflexivity].
Qed.

(** The scenario of a free run: a snake at (10, 10) moving right is at
    (11, 10) after one tick, as long as before. *)
Example one_step_right :
  drawGame 20 (mkGame [mkCell 10 10] (mkCell 3 3) [] 1 0 0 100 false false false) []
  = Done (Drawn (mkGame [mkCell 11 10] (mkCell 3 3) [] 1 0 0 100
                   false false false)) [].
Proof. reflexivity. Qed.

(** What the food on the snake leads to: the snake stands still after a
    reset, so the very next tick "eats" the food under its head, grows onto
    itself and ends the game again. *)
Example food_on_snake_ends_next_tick :
  exists g', drawGame 20 after_reset
               ([0.9; 0.9] ++ reset_draws)%Q = Done (GameOver g') [].
Proof. eexists. vm_compute. reflexivity. Qed.

End SnakeExamples.

(** ** LoadTimeData *)

Module LoadTimeDataFacts.
Import JS LoadTimeData.

Lemma is_undefined_iff v : is_undefined v = true <-> v = VUndefined.
Proof. destruct v; split; (reflexivity || discriminate). Qed.

Definition missing (id : string) : exn :=
  Error ("Assertion failed: Could not find value for " ++ id).

Definition no_data : exn :=
  Error "Assertion failed: No data. Did you remember to include strings.js?".

(** Nothing that an object inherits is [undefined]. *)
Lemma Object_prototype_defined id v :
  Object_prototype !! id = Some v -> is_undefined v = false.
Proof.
  intros H. unfold Object_prototype in H.
  apply elem_of_list_to_map_2 in H.
  repeat (apply elem_of_cons in H as [[= _ ->]|H]; [reflexivity|]).
  now apply elem_of_nil in H.
Qed.

(** What a property read gives, by cases on the own and the inherited
    property. *)
Lemma read_own d id v : d !! id = Some v -> read d id = v.
Proof. unfold read. now intros ->. Qed.

Lemma read_inherited d id v :
  d !! id = None -> Object_prototype !! id = Some v -> read d id = v.
Proof. unfold read. now intros -> ->. Qed.

Lemma read_nowhere d id :
  d !! id = None -> Object_prototype !! id = None -> read d id = VUndefined.
Proof. unfold read. now intros -> ->. Qed.

Lemma read_undefined d id :
  read d id = VUndefined <->
  d !! id = Some VUndefined \/
  (d !! id = None /\ Object_prototype !! id = None).
Proof.
  unfold read. destruct (d !! id) as [v|] eqn:E.
  - split; [intros ->; now left | intros [[= ->]|[H _]]; [reflexivity|discriminate]].
  - destruct (Object_prototype !! id) as [w|] eqn:Ep; simpl.
    + apply Object_prototype_defined in Ep. split.
      * intros ->. discriminate.
      * intros [H|[_ H]]; discriminate.
    + split; [now right | reflexivity].
Qed.

(** [getValue] by cases on the backing object and on the key. *)
Lemma getValue_unset id : getValue id (mkLoadTimeData None) = inl no_data.
Proof. reflexivity. Qed.

Lemma getValue_read id d :
  getValue id (mkLoadTimeData (Some d)) =
    if is_undefined (read d id) then inl (missing id) else inr (read d id).
Proof.
  unfold getValue. simpl. destruct (is_undefined (read d id)); reflexivity.
Qed.

Lemma getValue_set id d :
  getValue id (mkLoadTimeData (Some d)) =
    match d !! id with
    | Some v => if is_undefined v then inl (missing id) else inr v
    | None =>
        match Object_prototype !! id with
        | Some v => inr v
        | None => inl (missing id)
        end
    end.
Proof.
  rewrite getValue_read. unfold read.
  destruct (d !! id) as [v|]; [reflexivity|].
  destruct (Object_prototype !! id) as [w|] eqn:Ep; simpl; [|reflexivity].
  now rewrite (Object_prototype_defined id w Ep).
Qed.

(** C9.  [getValue(id)] throws, and then an assertion error, exactly when
    the backing data is unset or [this.data_[id]] is [undefined]: the
    object holds [id] with the value [undefined], or it neither holds [id]
    nor inherits it.  Otherwise it returns the value as it is: the object's
    own one, or for a key that it does not hold itself the inherited one (so
    [getValue('toString')] on any ordinary data returns the function of
    [Object.prototype]).  Setting [data] when it is already set throws an
    assertion error and leaves the object as it was; the first setting
    succeeds. *)
Theorem getValue_and_set_data (id : string) (this : LoadTimeData) :
  ((exists e, getValue id this = inl e) <->
     data_ this = None \/
     exists d, data_ this = Some d /\ read d id = VUndefined)
  /\ (forall d, data_ this = Some d -> read d id <> VUndefined ->
        getValue id this = inr (read d id))
  /\ (forall d,
        (forall v, d !! id = Some v -> read d id = v)
        /\ (forall v, d !! id = None -> Object_prototype !! id = Some v ->
              read d id = v /\ v <> VUndefined)
        /\ (d !! id = None -> Object_prototype !! id = None ->
              read d id = VUndefined))
  /\ (forall e, getValue id this = inl e ->
        exists message, e = Error ("Assertion failed: " ++ message))
  /\ (forall d v, data_ this = Some d ->
        set_data v this =
          (this, Some (Error "Assertion failed: Re-setting data.")))
  /\ (forall v, data_ this = None ->
        set_data v this = (mkLoadTimeData (Some v), None)).
Proof.
  assert (Hread : forall d,
            (forall v, d !! id = Some v -> read d id = v)
            /\ (forall v, d !! id = None -> Object_prototype !! id = Some v ->
                  read d id = v /\ v <> VUndefined)
            /\ (d !! id = None -> Object_prototype !! id = None ->
                  read d id = VUndefined)).
  { intros d. split; [apply read_own|]. split; [|apply read_nowhere].
    intros v Hd Hp. split; [now apply read_inherited|].
    intros ->. now apply Object_prototype_defined in Hp. }
  destruct this as [[d|]]; simpl.
  - rewrite getValue_read. split; [|split; [|split; [|split; [|split]]]].
    + split.
      * intros [e He]. right. exists d. split; [reflexivity|].
        destruct (is_undefined (read d id)) eqn:Hu; [|discriminate].
        now apply is_undefined_iff in Hu.
      * intros [H|(d' & [= <-] & ->)]; [discriminate|]. simpl. eauto.
    + intros d' [= <-] Hv.
      destruct (is_undefined (read d id)) eqn:Hu; [|reflexivity].
      now apply is_undefined_iff in Hu.
    + exact Hread.
    + intros e He. destruct (is_undefined (read d id));
        inversion He; unfold missing; eauto.
    + intros d' v [= <-]. reflexivity.
    + discriminate.
  - rewrite getValue_unset. split; [|split; [|split; [|split; [|split]]]].
    + split; [now left | eauto].
    + discriminate.
    + exact Hread.
    + intros e [= <-]. unfold no_data. eauto.
    + discriminate.
    + reflexivity.
Qed.

(** After the first [set data], a key that the object holds is read
    back. *)
Lemma getValue_after_set_data id v d :
  v <> VUndefined ->
  getValue id (fst (set_data (<[id := v]> d) (mkLoadTimeData None))) = inr v.
Proof.
  intros Hv. unfold set_data. simpl.
  rewrite getValue_set, lookup_insert_eq.
  destruct v; (congruence || reflexivity).
Qed.

Lemma getValue_other_key id id' v d :
  id <> id' ->
  getValue id' (mkLoadTimeData (Some (<[id := v]> d)))
  = getValue id' (mkLoadTimeData (Some d)).
Proof.
  intros Hne. rewrite !getValue_set. now rewrite lookup_insert_ne.
Qed.

(** Empty data: a key that names nothing throws, a key that names a
    property of [Object.prototype] returns that property. *)
Example getValue_on_empty_data :
  getValue "title" (mkLoadTimeData (Some ∅)) = inl (missing "title")
  /\ getValue "toString" (mkLoadTimeData (Some ∅)) = inr (builtin "toString").
Proof. split; reflexivity. Qed.

End LoadTimeDataFacts.

(** ** LoadTimeData: the other readers *)

Module LoadTimeDataMoreFacts.
Import JS LoadTimeData LoadTimeDataMore LoadTimeDataFacts.

Lemma getValue_insert id v d :
  getValue id (mkLoadTimeData (Some (<[id := v]> d))) =
    if is_undefined v then inl (missing id) else inr v.
Proof. rewrite getValue_set, lookup_insert_eq. reflexivity. Qed.

(** X1.  [valueExists] throws exactly when no data has been set.  On set
    data it is true exactly for the keys that the object holds or inherits
    ([id in this.data_]).  Whenever [getValue(id)] returns a value,
    [valueExists(id)] is true, and whenever [valueExists(id)] is false,
    [getValue(id)] throws "Could not find value"; the converse fails for a
    key that is held with the value [undefined]: [valueExists] says true
    and [getValue] throws. *)
Theorem valueExists_and_getValue (id : string) (this : LoadTimeData) :
  ((exists e, valueExists id this = inl e) <-> data_ this = None)
  /\ (forall v, getValue id this = inr v -> valueExists id this = inr true)
  /\ (valueExists id this = inr false -> getValue id this = inl (missing id))
  /\ (forall d, data_ this = Some d ->
        (valueExists id this = inr true <->
           is_Some (d !! id) \/ is_Some (Object_prototype !! id)) /\
        (d !! id = Some VUndefined ->
         valueExists id this = inr true /\
         getValue id this = inl (missing id))).
Proof.
  destruct this as [[d|]]; simpl.
  - unfold valueExists, has. simpl. rewrite getValue_set.
    split; [|split; [|split]].
    + split; [intros [e He]; discriminate | discriminate].
    + intros v Hv. destruct (d !! id) as [w|] eqn:E.
      * rewrite bool_decide_eq_true_2 by eauto. reflexivity.
      * destruct (Object_prototype !! id) as [w|] eqn:Ep; [|discriminate].
        rewrite (bool_decide_eq_true_2 (is_Some (Some w))) by eauto.
        now rewrite orb_true_r.
    + intros [= H]. apply orb_false_iff in H as [H1 H2].
      apply bool_decide_eq_false_1 in H1, H2.
      destruct (d !! id) as [w|]; [exfalso; eauto|].
      destruct (Object_prototype !! id) as [w|]; [exfalso; eauto|].
      reflexivity.
    + intros d' [= <-]. split.
      * split.
        -- intros [= H]. apply orb_true_iff in H as [H|H];
             apply bool_decide_eq_true_1 in H; auto.
        -- intros [H|H]; f_equal; apply orb_true_iff; [left|right];
             now apply bool_decide_eq_true_2.
      * intros E. rewrite E. split; [|reflexivity].
        rewrite bool_decide_eq_true_2; eauto.
  - unfold valueExists. simpl. split; [|split; [|split]].
    + split; [reflexivity | eauto].
    + discriminate.
    + discriminate.
    + discriminate.
Qed.


Section Printing.
Variable Number_toString : Q -> string.

(** X3.  For data that holds [v] under [id]: [getString] returns exactly
    when [v] is a string, [getBoolean] exactly when [v] is a boolean, and
    [getInteger] exactly when [v] is a number equal to an integer; each
    then returns [v].  For [v = undefined] all three throw the error of
    [getValue]. *)
Theorem typed_getters (d : gmap string value) (id : string) (v : value) :
  let this := mkLoadTimeData (Some (<[id := v]> d)) in
  (forall s, getString Number_toString id this = inr s <-> v = VString s)
  /\ (forall b, getBoolean Number_toString id this = inr b <-> v = VBool b)
  /\ (forall z, getInteger Number_toString id this = inr z <->
                exists q, v = VNumber q /\ (q == inject_Z z)%Q)
  /\ (v = VUndefined ->
      getString Number_toString id this = inl (missing id) /\
      getBoolean Number_toString id this = inl (missing id) /\
      getInteger Number_toString id this = inl (missing id)).
Proof.
  cbv zeta. unfold getString, getBoolean, getInteger.
  rewrite getValue_insert.
  destruct v as [| |b|q|s|r]; simpl;
    [| | | | |repeat split; try discriminate; try (intros (q & [=] & _)); auto].
  - repeat split; try discriminate; try (intros (q & [=] & _)); auto.
  - repeat split; try discriminate; try (intros (q & [=] & _)); auto.
  - split; [|split; [|split]]; try discriminate.
    + split; discriminate.
    + intros b'. split; [now intros [= ->] | now intros [= ->]].
    + split; [discriminate | now intros (q & [=] & _)].
  - split; [|split; [|split]]; try discriminate.
    + split; discriminate.
    + split; discriminate.
    + intros z. destruct (Qeq_bool q (inject_Z (Math_floor q))) eqn:E.
      * apply Qeq_bool_iff in E. split.
        -- intros [= <-]. eauto.
        -- intros (q' & [= <-] & Hq). f_equal. unfold Math_floor.
           rewrite Hq. apply Qfloor_Z.
      * split; [discriminate|]. intros (q' & [= <-] & Hq).
        apply Qeq_bool_neq in E. exfalso. apply E.
        unfold Math_floor. rewrite Hq at 2. now rewrite Qfloor_Z.
  - split; [|split; [|split]]; try discriminate.
    + intros s'. split; [now intros [= ->] | now intros [= ->]].
    + split; discriminate.
    + split; [discriminate | now intros (q & [=] & _)].
Qed.

End Printing.

Lemma append_cons c (s t : string) :
  (String c s ++ t)%string = String c (s ++ t)%string.
Proof. reflexivity. Qed.

Lemma append_nil (t : string) : ("" ++ t)%string = t.
Proof. reflexivity. Qed.

Lemma append_assoc (s t u : string) :
  ((s ++ t) ++ u)%string = (s ++ (t ++ u))%string.
Proof.
  induction s as [|c s IH]; [reflexivity|].
  now rewrite !append_cons, IH.
Qed.

Lemma prepend_inr s r t : r = inr t -> prepend s r = inr (s ++ t)%string.
Proof. now intros ->. Qed.

Lemma prepend_cons c s r :
  prepend (String c s) r = prepend (String c "") (prepend s r).
Proof. destruct r; reflexivity. Qed.

(** Text without a dollar passes through, whatever follows it. *)
Lemma substituteString_dollar_free pre s args :
  dollar_free pre = true ->
  substituteString (pre ++ s)%string args
  = prepend pre (substituteString s args).
Proof.
  induction pre as [|c pre IH]; simpl dollar_free.
  - intros _. rewrite append_nil. now destruct (substituteString s args).
  - intros [Hc Hpre]%andb_true_iff. apply negb_true_iff in Hc.
    rewrite append_cons. simpl substituteString.
    rewrite Hc, (IH Hpre). symmetry. apply prepend_cons.
Qed.

Lemma substituteString_escape s args :
  substituteString (escape s) args = inr s.
Proof.
  induction s as [|c s IH]; simpl; [reflexivity|].
  destruct (Ascii.eqb c "$") eqn:Hc.
  - apply Ascii.eqb_eq in Hc as ->. simpl. rewrite IH. reflexivity.
  - simpl. rewrite Hc, IH. reflexivity.
Qed.

(** X4.  A text stored with every dollar sign doubled is read back
    unchanged by [getStringF], whatever arguments are passed. *)
Theorem getStringF_reads_back_escaped_text (Number_toString : Q -> string)
  (d : gmap string value) (id s : string) (args : list (option string)) :
  getStringF Number_toString id args
    (mkLoadTimeData (Some (<[id := VString (escape s)]> d))) = inr s.
Proof.
  unfold getStringF, getString. rewrite getValue_insert. simpl.
  destruct (String.eqb_spec (escape s) "") as [E|_].
  - destruct s as [|c s]; [reflexivity|]. simpl in E.
    destruct (Ascii.eqb c "$"); discriminate.
  - apply substituteString_escape.
Qed.

Definition digit (k : nat) : ascii := ascii_of_nat (48 + k).

(** X5.  In [substituteString], text without a dollar sign is copied; a
    dollar at the end of the label, or followed by anything but a dollar, a
    digit 1-9 or a carriage return, throws "Unescaped $"; [$k] is replaced
    by the k-th argument, or by nothing when that argument is missing,
    [undefined] or [null]; [$$] becomes one dollar. *)
Theorem substituteString_placeholders (pre : string)
  (args : list (option string)) :
  dollar_free pre = true ->
  substituteString pre args = inr pre
  /\ substituteString (pre ++ "$")%string args = inl unescaped
  /\ (forall k post,
        (1 <= k <= 9)%nat ->
        substituteString (pre ++ String "$" (String (digit k) post))%string args
        = prepend (pre ++ argument args (k - 1))%string
            (substituteString post args))
  /\ (forall post,
        substituteString (pre ++ String "$" (String "$" post))%string args
        = prepend (pre ++ "$")%string (substituteString post args))
  /\ (forall c post,
        c <> "$"%char -> is_CR c = false -> digit_1_9 c = None ->
        substituteString (pre ++ String "$" (String c post))%string args
        = inl unescaped).
Proof.
  intros Hpre. split; [|split; [|split; [|split]]].
  - induction pre as [|c pre IH]; [reflexivity|]. simpl in Hpre |- *.
    apply andb_true_iff in Hpre as [Hc Hp]. apply negb_true_iff in Hc.
    rewrite Hc, (IH Hp). reflexivity.
  - rewrite (substituteString_dollar_free pre "$" args Hpre). reflexivity.
  - intros k post Hk.
    rewrite (substituteString_dollar_free pre _ args Hpre).
    assert (Hd : digit_1_9 (digit k) = Some (k - 1)%nat /\
                 is_CR (digit k) = false /\
                 Ascii.eqb (digit k) "$" = false).
    { assert (Hcases : (k = 1 \/ k = 2 \/ k = 3 \/ k = 4 \/ k = 5 \/ k = 6 \/
                        k = 7 \/ k = 8 \/ k = 9)%nat) by lia.
      repeat destruct Hcases as [->|Hcases]; try subst k;
        (split; [|split]); reflexivity. }
    destruct Hd as (Hd & Hcr & Hdl).
    remember (digit k) as c eqn:Ec. clear Ec.
    simpl substituteString. rewrite Hcr, Hdl, Hd.
    destruct (substituteString post args) as [e|r]; simpl; [reflexivity|].
    f_equal. symmetry. apply append_assoc.
  - intros post. rewrite (substituteString_dollar_free pre _ args Hpre).
    simpl substituteString.
    destruct (substituteString post args) as [e|r]; simpl; [reflexivity|].
    f_equal. symmetry. apply append_assoc.
  - intros c post Hc Hcr Hd.
    rewrite (substituteString_dollar_free pre _ args Hpre).
    simpl substituteString. rewrite Hcr, Hd.
    assert (Ascii.eqb c "$" = false) as -> by now apply Ascii.eqb_neq.
    reflexivity.
Qed.

Lemma substituteString_placeholders_witness :
  dollar_free "Hello, " = true
  /\ substituteString "Hello, $1!" [Some "Ann"] = inr "Hello, Ann!"
  /\ substituteString "Hello, $" [Some "Ann"] = inl unescaped.
Proof.
  split; [reflexivity|].
  pose proof (substituteString_placeholders "Hello, " [Some "Ann"] eq_refl)
    as (_ & H2 & H3 & _).
  split; [|exact H2].
  exact (H3 1%nat "!" (conj (le_n 1) (le_S_n 1 9 ltac:(repeat constructor)))).
Defined.

End LoadTimeDataMoreFacts.

(** ** Random numbers and collisions *)

Module RandomMoreFacts.
Import JS RandomFacts.

(** The draw that makes [getRandomNum] return [k]. *)
Definition draw_for (min max k : Z) : Q :=
  (inject_Z (k - min) / inject_Z (max - min + 1))%Q.

(** X11.  [getRandomNum(min, max)] reaches every integer from [min] to
    [max]: each is returned for some draw in [0, 1).  With [max < min] the
    result lies in [max + 1 .. min], and with [max = min - 1] it is [min]
    for every draw.  Without a draw left the call is pending. *)
Theorem getRandomNum_reaches_every_value (min max : Z) :
  (forall k, min <= k <= max ->
     unit_draw (draw_for min max k) /\
     getRandomNum min max [draw_for min max k] = Done k [])
  /\ (forall r, unit_draw r -> max < min ->
        max < randomNumOf r min max <= min)
  /\ (forall r, randomNumOf r min (min - 1) = min)
  /\ getRandomNum min max [] = Pending.
Proof.
  split; [|split; [|split]].
  - intros k Hk.
    assert (Hn : (0 < inject_Z (max - min + 1))%Q)
      by (rewrite <- (Zlt_Qlt 0); lia).
    assert (Hmul : (draw_for min max k * inject_Z (max - min + 1)
                    == inject_Z (k - min))%Q)
      by (unfold draw_for; field; lra).
    split.
    + unfold unit_draw, draw_for. split.
      * apply Qle_shift_div_l; [exact Hn|]. rewrite Qmult_0_l.
        rewrite <- (Zle_Qle 0). lia.
      * apply Qlt_shift_div_r; [exact Hn|]. rewrite Qmult_1_l.
        rewrite <- Zlt_Qlt. lia.
    + apply getRandomNum_Done. exists (draw_for min max k).
      split; [reflexivity|]. symmetry. apply randomNumOf_eq.
      rewrite Hmul. split; [apply Qle_refl|].
      rewrite <- Zlt_Qlt. lia.
  - intros r [H0 H1] Hlt.
    set (n := max - min + 1).
    assert (Hn : (inject_Z n <= 0)%Q) by (rewrite <- (Zle_Qle _ 0); lia).
    set (q := (r * inject_Z n)%Q).
    assert (Hhi : (q <= 0)%Q).
    { unfold q. setoid_replace 0%Q with (r * 0)%Q using relation Qeq by ring.
      rewrite (Qmult_comm r), (Qmult_comm r 0).
      apply Qmult_le_compat_r; assumption. }
    assert (Hlo : (inject_Z n <= q)%Q).
    { unfold q.
      assert (H : (0 <= (1 - r) * (- inject_Z n))%Q)
        by (apply Qmult_le_0_compat; lra).
      lra. }
    unfold randomNumOf, Math_floor. fold n. fold q.
    pose proof (Qfloor_le q) as Hfl. pose proof (Qlt_floor q) as Hfu.
    assert (A : (inject_Z (Qfloor q) <= inject_Z 0)%Q)
      by (eapply Qle_trans; eauto).
    assert (B : (inject_Z n < inject_Z (Qfloor q + 1))%Q)
      by (eapply Qle_lt_trans; eauto).
    rewrite <- Zle_Qle in A. rewrite <- Zlt_Qlt in B. lia.
  - intros r. unfold randomNumOf, Math_floor.
    replace (min - 1 - min + 1) with 0 by lia.
    change (inject_Z 0) with 0%Q.
    assert (E : (r * 0 == 0)%Q) by ring. rewrite E. reflexivity.
  - reflexivity.
Qed.

End RandomMoreFacts.

Module CollisionMoreFacts.
Import JS TRex CollisionFacts.

(** The player and an obstacle moved by the same offset. *)
Definition shift_box (dx dy : Z) (b : CollisionBox) : CollisionBox :=
  mkCollisionBox (box_x b + dx) (box_y b + dy) (box_width b) (box_height b).

Definition shift_tRex (dx dy : Z) (t : Trex) : Trex :=
  mkTrex (tRex_xPos t + dx) (tRex_yPos t + dy) (tRex_config t) (ducking t).

Definition shift_obstacle (dx dy : Z) (o : Obstacle) : Obstacle :=
  mkObstacle (typeConfig o) (gapCoefficient o) (size o) (remove o)
    (xPos o + dx) (yPos o + dy) (width o) (collisionBoxes o) (gap o)
    (speedOffset o) (followingObstacleCreated o).

Definition shift_hit (dx dy : Z) (hit : CollisionBox * CollisionBox)
  : CollisionBox * CollisionBox :=
  (shift_box dx dy (fst hit), shift_box dx dy (snd hit)).

Lemma boxCompare_shift dx dy a b :
  boxCompare (shift_box dx dy a) (shift_box dx dy b) = boxCompare a b.
Proof.
  unfold boxCompare, shift_box. simpl.
  repeat match goal with
         | |- context [?a <? ?b] => destruct (Z.ltb_spec a b)
         | |- context [?a >? ?b] => destruct (Z.gtb_spec a b)
         end; simpl; try reflexivity; lia.
Qed.

Lemma createAdjustedCollisionBox_shift dx dy box adj :
  createAdjustedCollisionBox box (shift_box dx dy adj)
  = shift_box dx dy (createAdjustedCollisionBox box adj).
Proof.
  unfold createAdjustedCollisionBox, shift_box. simpl. f_equal; lia.
Qed.

Lemma scanObstacleBoxes_shift dx dy tB oB t boxes :
  scanObstacleBoxes (shift_box dx dy tB) (shift_box dx dy oB) t boxes
  = option_map (shift_hit dx dy) (scanObstacleBoxes tB oB t boxes).
Proof.
  induction boxes as [|o boxes IH]; simpl; [reflexivity|].
  rewrite !createAdjustedCollisionBox_shift, boxCompare_shift.
  destruct (boxCompare _ _); [reflexivity | exact IH].
Qed.

Lemma scanTrexBoxes_shift dx dy tB oB tBoxes oBoxes :
  scanTrexBoxes (shift_box dx dy tB) (shift_box dx dy oB) tBoxes oBoxes
  = option_map (shift_hit dx dy) (scanTrexBoxes tB oB tBoxes oBoxes).
Proof.
  induction tBoxes as [|t tBoxes IH]; simpl; [reflexivity|].
  rewrite scanObstacleBoxes_shift.
  destruct (scanObstacleBoxes tB oB t oBoxes); [reflexivity | exact IH].
Qed.

(** X12.  [checkForCollision] depends on relative positions only: moving
    the player and the obstacle by the same offset moves the reported
    boxes by that offset and changes nothing else.  An obstacle whose inset
    box begins at or right of the player's, or at or below the player's
    feet, does not collide. *)
Theorem checkForCollision_is_relative (env : Env) (dx dy : Z)
  (obstacle : Obstacle) (tRex : Trex) :
  checkForCollision env (shift_obstacle dx dy obstacle) (shift_tRex dx dy tRex)
  = option_map (shift_hit dx dy) (checkForCollision env obstacle tRex)
  /\ (xPos obstacle + 1 >= tRex_xPos tRex + WIDTH (tRex_config tRex) - 1 ->
      checkForCollision env obstacle tRex = None)
  /\ (tRex_yPos tRex + HEIGHT (tRex_config tRex) - 1 <= yPos obstacle + 1 ->
      checkForCollision env obstacle tRex = None).
Proof.
  split; [|split].
  - unfold checkForCollision.
    change (tRexBox_of (shift_tRex dx dy tRex))
      with (mkCollisionBox (tRex_xPos tRex + dx + 1) (tRex_yPos tRex + dy + 1)
              (WIDTH (tRex_config tRex) - 2) (HEIGHT (tRex_config tRex) - 2)).
    replace (mkCollisionBox (tRex_xPos tRex + dx + 1) (tRex_yPos tRex + dy + 1)
               (WIDTH (tRex_config tRex) - 2) (HEIGHT (tRex_config tRex) - 2))
      with (shift_box dx dy (tRexBox_of tRex))
      by (unfold shift_box, tRexBox_of; simpl; f_equal; lia).
    change (obstacleBox_of (shift_obstacle dx dy obstacle))
      with (mkCollisionBox (xPos obstacle + dx + 1) (yPos obstacle + dy + 1)
              (type_width (typeConfig obstacle) * size obstacle - 2)
              (type_height (typeConfig obstacle) - 2)).
    replace (mkCollisionBox (xPos obstacle + dx + 1) (yPos obstacle + dy + 1)
               (type_width (typeConfig obstacle) * size obstacle - 2)
               (type_height (typeConfig obstacle) - 2))
      with (shift_box dx dy (obstacleBox_of obstacle))
      by (unfold shift_box, obstacleBox_of; simpl; f_equal; lia).
    rewrite boxCompare_shift.
    destruct (boxCompare _ _); [|reflexivity].
    change (tRexCollisionBoxes_of env (shift_tRex dx dy tRex))
      with (tRexCollisionBoxes_of env tRex).
    change (collisionBoxes (shift_obstacle dx dy obstacle))
      with (collisionBoxes obstacle).
    apply scanTrexBoxes_shift.
  - intros H. unfold checkForCollision.
    assert (boxCompare (tRexBox_of tRex) (obstacleBox_of obstacle) = false) as ->;
      [|reflexivity].
    unfold boxCompare, tRexBox_of, obstacleBox_of. simpl.
    destruct (Z.gtb_spec (tRex_xPos tRex + 1 + (WIDTH (tRex_config tRex) - 2))
                (xPos obstacle + 1)); [lia|].
    now rewrite andb_false_r.
  - intros H. unfold checkForCollision.
    assert (boxCompare (tRexBox_of tRex) (obstacleBox_of obstacle) = false) as ->;
      [|reflexivity].
    unfold boxCompare, tRexBox_of, obstacleBox_of. simpl.
    destruct (Z.gtb_spec (HEIGHT (tRex_config tRex) - 2 + (tRex_yPos tRex + 1))
                (yPos obstacle + 1)); [lia|].
    now rewrite andb_false_r.
Qed.

End CollisionMoreFacts.

(** ** The obstacles of a frame *)

Module HorizonMoreFacts.
Import JS TRex HorizonMore RandomFacts SpawnerFacts RetryFacts.

(** An updated obstacle that is not flagged is on the screen. *)
Lemma Obstacle_update_live dt s o :
  remove (Obstacle_update dt s o) = false ->
  remove o = false /\ 0 < xPos (Obstacle_update dt s o) + width (Obstacle_update dt s o).
Proof.
  unfold Obstacle_update. destruct (remove o) eqn:Hr; [congruence|].
  set (x' := xPos o - Math_floor (obstacleSpeed s o * FPS / 1000 * dt)).
  assert (Hvis : isVisible (set_xPos x' o) = (x' + width o >? 0)) by reflexivity.
  rewrite Hvis. destruct (Z.gtb_spec (x' + width o) 0); simpl.
  - intros _. split; [reflexivity | lia].
  - discriminate.
Qed.

(** The survivors are updated obstacles of the horizon, no more than there
    were. *)
Lemma survivors_elem dt s obstacles o' :
  o' ∈ survivors dt s obstacles ->
  exists o, o ∈ obstacles /\ o' = Obstacle_update dt s o.
Proof.
  unfold survivors. intros H.
  assert (o' ∈ map (Obstacle_update dt s) obstacles) as Hin.
  { rewrite <- (take_drop
      (length (filter (fun o => remove o = true)
                 (map (Obstacle_update dt s) obstacles)))).
    apply elem_of_app. now right. }
  apply list_elem_of_fmap in Hin as (o & -> & Ho). eauto.
Qed.

Lemma survivors_length dt s obstacles :
  (length (survivors dt s obstacles) <= length obstacles)%nat.
Proof. unfold survivors. rewrite length_drop, length_map. lia. Qed.

(** A constructed obstacle is neither flagged for removal nor marked as
    followed. *)
Lemma new_Obstacle_fresh env ty W coeff speed off rs o rest :
  new_Obstacle env ty W coeff speed off rs = Done o rest ->
  remove o = false /\ followingObstacleCreated o = false.
Proof.
  unfold new_Obstacle.
  intros (s & rs1 & _ & H)%bind_Done.
  apply bind_Done in H as (y & rs2 & _ & H).
  apply bind_Done in H as (boxes & rs3 & _ & H).
  apply bind_Done in H as (so & rs4 & _ & H).
  apply bind_Done in H as (g & rs5 & _ & [<- _]%ret_Done).
  split; reflexivity.
Qed.

(** What a finished [addNewObstacle] has appended. *)
Definition follower (env : Env) (h : Horizon) (new : Obstacle) : Prop :=
  typeConfig new ∈ Obstacle_types env
  /\ xPos new = dimensions_WIDTH h + type_width (typeConfig new)
  /\ remove new = false
  /\ followingObstacleCreated new = false.

Lemma addNewObstacle_appends env h s rs h' rest :
  addNewObstacle env h s rs = Done h' rest ->
  exists new, obstacles h' = obstacles h ++ [new] /\ follower env h new
              /\ dimensions_WIDTH h' = dimensions_WIDTH h.
Proof.
  intros (n & ty & used & rs1 & _ & Hty & _ & _ & Hp)%addNewObstacle_Done.
  apply placeObstacle_Done in Hp as (o & Ho & Hobs & _ & _ & HW & _).
  exists o. split; [exact Hobs|]. split; [|exact HW].
  destruct (new_Obstacle_fresh _ _ _ _ _ _ _ _ _ Ho) as [Hr Hf].
  apply new_Obstacle_Done in Ho as (r1 & u & r2 & _ & Ht & _ & _ & _ & Hx & _).
  unfold follower. rewrite Ht. repeat split; assumption.
Qed.

(** The three ways [updateObstacles] returns. *)
Lemma updateObstacles_Done env dt s h rs h' rest :
  updateObstacles env dt s h rs = Done h' rest ->
  let kept := survivors dt s (obstacles h) in
  dimensions_WIDTH h' = dimensions_WIDTH h /\
  ((exists l, last kept = Some l /\ wants_follower h l = false
              /\ obstacles h' = kept)
   \/ (exists new, kept = [] /\ obstacles h' = [new] /\ follower env h new)
   \/ (exists pre l new,
         kept = pre ++ [l] /\ wants_follower h l = true /\
         obstacles h' = pre ++ [set_followingObstacleCreated l; new] /\
         follower env h new)).
Proof.
  unfold updateObstacles. cbv zeta.
  set (kept := survivors dt s (obstacles h)).
  destruct (last kept) as [l|] eqn:Hlast.
  - change (wants_follower (set_obstacles kept h) l)
      with (wants_follower h l).
    destruct (wants_follower h l) eqn:Hw.
    + intros (h2 & rs2 & Hadd & [<- _]%ret_Done)%bind_Done.
      apply addNewObstacle_appends in Hadd as (new & Hobs & Hnew & HW).
      split; [exact HW|]. right. right.
      apply last_Some in Hlast as [pre Hpre].
      exists pre, l, new. split; [exact Hpre|]. split; [exact Hw|].
      split; [|exact Hnew].
      simpl. rewrite Hobs. simpl. rewrite Hpre, length_app. simpl.
      replace (length pre + 1 - 1)%nat with (length pre + 0)%nat by lia.
      rewrite <- app_assoc. rewrite alter_app_r. reflexivity.
    + intros [<- _]%ret_Done. split; [reflexivity|]. left.
      exists l. repeat split; (assumption || reflexivity).
  - intros Hadd.
    apply addNewObstacle_appends in Hadd as (new & Hobs & Hnew & HW).
    split; [exact HW|]. right. left. exists new.
    assert (kept = []) as Hk by (destruct kept using rev_ind;
      [reflexivity | rewrite last_snoc in Hlast; discriminate]).
    split; [exact Hk|]. split; [|exact Hnew].
    rewrite Hobs. simpl. now rewrite Hk.
Qed.

(** X7.  When [updateObstacles] returns, the horizon holds at least one
    obstacle: the survivors of the frame and at most one new obstacle, and
    exactly one obstacle if nothing survived.  Every obstacle it holds is an
    updated obstacle of the horizon, possibly marked as followed, or the
    new one, which stands at [WIDTH + type.width], unflagged. *)
Theorem updateObstacles_leaves_an_obstacle (env : Env) (dt s : Q)
  (h : Horizon) (rs : list Q) (h' : Horizon) (rest : list Q) :
  updateObstacles env dt s h rs = Done h' rest ->
  let kept := survivors dt s (obstacles h) in
  obstacles h' <> []
  /\ (length kept <= length (obstacles h') <= length kept + 1)%nat
  /\ (length kept <= length (obstacles h))%nat
  /\ (kept = [] -> length (obstacles h') = 1%nat)
  /\ (forall o', o' ∈ obstacles h' ->
        (exists o, o ∈ obstacles h /\
           (o' = Obstacle_update dt s o \/
            o' = set_followingObstacleCreated (Obstacle_update dt s o)))
        \/ follower env h o').
Proof.
  intros H. cbv zeta.
  pose proof (survivors_length dt s (obstacles h)) as Hlen.
  apply updateObstacles_Done in H as [_ H]. cbv zeta in H.
  destruct H as [(l & Hl & _ & ->) | [(new & Hk & -> & Hnew)
                 | (pre & l & new & Hk & _ & -> & Hnew)]].
  - split; [|split; [|split; [|split]]].
    + intros E. rewrite E in Hl. discriminate.
    + lia.
    + exact Hlen.
    + intros E. rewrite E in Hl. discriminate.
    + intros o' Ho'. left. apply survivors_elem in Ho' as (o & Ho & ->). eauto.
  - rewrite Hk. simpl. split; [|split; [|split; [|split]]].
    + discriminate.
    + lia.
    + lia.
    + reflexivity.
    + intros o' ->%list_elem_of_singleton. now right.
  - rewrite Hk in Hlen |- *. rewrite !length_app in *. simpl in *.
    split; [|split; [|split; [|split]]].
    + now destruct pre.
    + lia.
    + lia.
    + now destruct pre.
    + intros o' Ho'. apply elem_of_app in Ho' as [Ho'|Ho'].
      * left. assert (o' ∈ survivors dt s (obstacles h)) as Hs
          by (rewrite Hk; apply elem_of_app; now left).
        apply survivors_elem in Hs as (o & Ho & ->). eauto.
      * apply elem_of_cons in Ho' as [->|Ho'].
        -- left. assert (l ∈ survivors dt s (obstacles h)) as Hs
             by (rewrite Hk; apply elem_of_app; right; apply list_elem_of_here).
           apply survivors_elem in Hs as (o & Ho & ->). eauto.
        -- apply list_elem_of_singleton in Ho' as ->. now right.
Qed.

(** X8.  When [updateObstacles] adds a follower behind a surviving
    obstacle, that obstacle is marked [followingObstacleCreated], is still
    on the screen, and the follower starts further right of its right edge
    than its gap plus the follower's type width. *)
Theorem follower_keeps_the_gap (env : Env) (dt s : Q)
  (h : Horizon) (rs : list Q) (h' : Horizon) (rest : list Q) :
  updateObstacles env dt s h rs = Done h' rest ->
  length (obstacles h') = S (length (survivors dt s (obstacles h))) ->
  survivors dt s (obstacles h) <> [] ->
  exists pre l new,
    obstacles h' = pre ++ [l; new]
    /\ followingObstacleCreated l = true
    /\ followingObstacleCreated new = false
    /\ 0 < xPos l + width l
    /\ xPos new = dimensions_WIDTH h + type_width (typeConfig new)
    /\ xPos new - (xPos l + width l) > gap l + type_width (typeConfig new).
Proof.
  intros H Hlen Hne.
  apply updateObstacles_Done in H as [_ H]. cbv zeta in H.
  destruct H as [(l & Hl & _ & E) | [(new & Hk & _) | (pre & l & new & Hk & Hw & E & Hnew)]].
  - rewrite E in Hlen. lia.
  - contradiction.
  - exists pre, (set_followingObstacleCreated l), new.
    destruct Hnew as (_ & Hx & _ & Hf).
    unfold wants_follower in Hw.
    apply andb_true_iff in Hw as [[_ Hvis]%andb_true_iff Hgap].
    unfold isVisible in Hvis. apply Z.gtb_gt in Hvis.
    apply Z.ltb_lt in Hgap.
    repeat split; try assumption; simpl; lia.
Qed.

(** X9.  After a call of [updateObstacles] that has returned, the
    collision check of [Runner.update], which reads [obstacles[0]], does
    not throw. *)
Theorem collision_check_after_updateObstacles (env : Env) (dt s : Q)
  (h : Horizon) (rs : list Q) (h' : Horizon) (rest : list Q) (r : Runner)
  (hasObstacles : bool) :
  updateObstacles env dt s h rs = Done h' rest ->
  horizon r = h' ->
  exists collision, collisionOf env hasObstacles r = inr collision.
Proof.
  intros H Hr. unfold collisionOf. destruct hasObstacles; [|eauto].
  rewrite Hr.
  destruct (obstacles h') as [|o l] eqn:E; [|simpl; eauto].
  apply updateObstacles_Done in H as [_ H]. cbv zeta in H. exfalso.
  destruct H as [(l & Hl & _ & E') | [(new & _ & E' & _)
                 | (pre & l & new & _ & _ & E' & _)]]; rewrite E in E'.
  - rewrite <- E' in Hl. discriminate.
  - discriminate.
  - now destruct pre.
Qed.

(** When the flagged obstacles are the first ones of the array, the
    survivors are exactly the others. *)
Lemma filter_flagged_prefix (gone live : list Obstacle) :
  Forall (fun o => remove o = true) gone ->
  Forall (fun o => remove o = false) live ->
  length (filter (fun o => remove o = true) (gone ++ live)) = length gone.
Proof.
  intros Hg Hl. rewrite filter_app, length_app.
  assert (filter (fun o => remove o = true) live = []) as ->.
  { induction Hl as [|o l Ho _ IH]; [reflexivity|].
    rewrite filter_cons_False; [exact IH | congruence]. }
  assert (filter (fun o => remove o = true) gone = gone) as ->.
  { induction Hg as [|o l Ho _ IH]; [reflexivity|].
    rewrite filter_cons_True; [now rewrite IH | exact Ho]. }
  simpl. lia.
Qed.

(** X10.  When the obstacles that a frame flags [remove] are the first
    ones of the array, [updateObstacles] keeps exactly the others, in
    order, and each of them is on the screen. *)
Theorem survivors_drop_the_flagged (dt s : Q) (obstacles gone live : list Obstacle) :
  map (Obstacle_update dt s) obstacles = gone ++ live ->
  Forall (fun o => remove o = true) gone ->
  Forall (fun o => remove o = false) live ->
  survivors dt s obstacles = live
  /\ Forall (fun o => 0 < xPos o + width o) live.
Proof.
  intros E Hg Hl. unfold survivors. rewrite E.
  rewrite (filter_flagged_prefix gone live Hg Hl).
  rewrite drop_app_length. split; [reflexivity|].
  rewrite Forall_forall in Hl |- *. intros o' Ho'.
  assert (o' ∈ map (Obstacle_update dt s) obstacles) as Hin
    by (rewrite E; apply elem_of_app; now right).
  apply list_elem_of_fmap in Hin as (o & -> & _).
  specialize (Hl _ Ho'). simpl in Hl.
  now apply Obstacle_update_live in Hl as [_ Hl].
Qed.

(** *** A horizon without speed offsets *)

(** The right edge of an obstacle. *)
Definition edge (o : Obstacle) : Z := xPos o + width o.

(** An obstacle in good standing: not flagged, on the screen, of a type
    that moves with the ground. *)
Definition sound (o : Obstacle) : Prop :=
  remove o = false /\ 0 < edge o /\ 0 <= width o /\ 0 <= gap o /\
  Qeq_bool (type_speedOffset (typeConfig o)) 0 = true.

(** Each obstacle ends left of where the next begins. *)
Fixpoint spaced (l : list Obstacle) : Prop :=
  match l with
  | a :: (b :: _) as l' => edge a < xPos b /\ spaced l'
  | _ => True
  end.

(** Every obstacle but the last has its follower. *)
Fixpoint followed (l : list Obstacle) : Prop :=
  match l with
  | a :: (_ :: _) as l' => followingObstacleCreated a = true /\ followed l'
  | _ => True
  end.

Definition tidy (l : list Obstacle) : Prop :=
  Forall sound l /\ spaced l /\ followed l.

(** At speed [s] no type with a speed offset is let through. *)
Definition offsets_held_back (env : Env) (s : Q) : Prop :=
  Forall (fun ty => Qeq_bool (type_speedOffset ty) 0 = false ->
                    (s < minSpeed ty)%Q) (Obstacle_types env).

Lemma spaced_app_r l1 l2 : spaced (l1 ++ l2) -> spaced l2.
Proof.
  induction l1 as [|a l1 IH]; [auto|]. simpl.
  destruct (l1 ++ l2) as [|b l] eqn:E.
  - destruct l1, l2; try discriminate. auto.
  - intros [_ H]. now apply IH.
Qed.

Lemma followed_app_r l1 l2 : followed (l1 ++ l2) -> followed l2.
Proof.
  induction l1 as [|a l1 IH]; [auto|]. simpl.
  destruct (l1 ++ l2) as [|b l] eqn:E.
  - destruct l1, l2; try discriminate. auto.
  - intros [_ H]. now apply IH.
Qed.

Lemma spaced_snoc pre l l' new :
  spaced (pre ++ [l]) -> edge l' = edge l -> xPos l' = xPos l ->
  edge l < xPos new -> spaced (pre ++ [l'; new]).
Proof.
  intros H He Hx Hn. induction pre as [|a pre IH].
  - simpl. rewrite He. auto.
  - destruct pre as [|b pre].
    + simpl in *. rewrite Hx, He. tauto.
    + simpl in H |- *. destruct H as [H1 H2]. split; [exact H1|].
      now apply IH.
Qed.

Lemma followed_snoc pre l l' new :
  followed (pre ++ [l]) -> followingObstacleCreated l' = true ->
  followed (pre ++ [l'; new]).
Proof.
  intros H Hf. induction pre as [|a pre IH].
  - simpl. auto.
  - destruct pre as [|b pre].
    + simpl in *. tauto.
    + simpl in H |- *. destruct H as [H1 H2]. split; [exact H1|].
      now apply IH.
Qed.

(** Right edges grow along a spaced list. *)
Lemma edges_grow a l :
  Forall sound l -> spaced (a :: l) -> Forall (fun b => edge a < edge b) l.
Proof.
  revert a. induction l as [|b l IH]; intros a Hs Hsp; constructor.
  - destruct Hsp as [H _]. apply Forall_inv in Hs as (_ & _ & Hw & _).
    unfold edge in *. lia.
  - destruct Hsp as [H Hsp']. pose proof (Forall_inv Hs) as (_ & _ & Hw & _).
    apply Forall_inv_tail in Hs.
    specialize (IH b Hs Hsp').
    eapply Forall_impl; [exact IH|]. simpl. intros c Hc.
    unfold edge in *. lia.
Qed.

Section Frame.
Variables (deltaTime speed : Q).

(** The pixels that a frame moves the ground by. *)
Definition shift : Z := Math_floor (speed * FPS / 1000 * deltaTime).

Lemma Obstacle_update_sound o :
  sound o ->
  let o' := Obstacle_update deltaTime speed o in
  xPos o' = xPos o - shift /\ width o' = width o /\ gap o' = gap o /\
  typeConfig o' = typeConfig o /\
  followingObstacleCreated o' = followingObstacleCreated o /\
  remove o' = negb (edge o - shift >? 0).
Proof.
  intros (Hr & _ & _ & _ & Ht). cbv zeta.
  unfold Obstacle_update, obstacleSpeed. rewrite Hr, Ht. fold shift.
  assert (E : isVisible (set_xPos (xPos o - shift) o)
              = (edge o - shift >? 0)).
  { unfold isVisible, edge. simpl. f_equal. lia. }
  rewrite E. destruct (edge o - shift >? 0); simpl; rewrite ?Hr; repeat split.
Qed.

(** The obstacles that a frame flags are the first ones. *)
Lemma flagged_first l :
  Forall sound l -> spaced l ->
  exists gone live,
    l = gone ++ live /\
    Forall (fun o => remove o = true)
      (map (Obstacle_update deltaTime speed) gone) /\
    Forall (fun o => shift < edge o) live.
Proof.
  induction l as [|a l IH]; intros Hs Hsp.
  - exists [], []. repeat split; constructor.
  - destruct (Z.le_gt_cases (edge a) shift) as [Hle|Hgt].
    + destruct IH as (gone & live & -> & Hg & Hl).
      * now apply Forall_inv_tail in Hs.
      * destruct l; [exact I | apply Hsp].
      * exists (a :: gone), live. split; [reflexivity|]. split; [|exact Hl].
        simpl. constructor; [|exact Hg].
        destruct (Obstacle_update_sound a (Forall_inv Hs))
          as (_ & _ & _ & _ & _ & ->).
        destruct (Z.gtb_spec (edge a - shift) 0); [lia | reflexivity].
    + exists [], (a :: l). split; [reflexivity|]. split; [constructor|].
      constructor; [lia|].
      pose proof (edges_grow a l (Forall_inv_tail Hs) Hsp) as H.
      eapply Forall_impl; [exact H|]. simpl. intros b Hb. lia.
Qed.

Lemma tidy_moved live :
  tidy live -> Forall (fun o => shift < edge o) live ->
  tidy (map (Obstacle_update deltaTime speed) live)
  /\ Forall (fun o => remove o = false)
       (map (Obstacle_update deltaTime speed) live).
Proof.
  intros (Hs & Hsp & Hf) Hl.
  assert (Hall : Forall (fun o => sound (Obstacle_update deltaTime speed o) /\
                                  remove (Obstacle_update deltaTime speed o)
                                  = false) live).
  { rewrite Forall_forall in Hs, Hl |- *. intros o Ho.
    destruct (Obstacle_update_sound o (Hs o Ho))
      as (Ex & Ew & Eg & Et & _ & Er).
    destruct (Hs o Ho) as (_ & _ & Hw & Hgap & Hty).
    specialize (Hl o Ho).
    assert (Hrm : remove (Obstacle_update deltaTime speed o) = false).
    { rewrite Er. destruct (Z.gtb_spec (edge o - shift) 0); [reflexivity|lia]. }
    split; [|exact Hrm].
    unfold sound, edge in *. rewrite Ex, Ew, Eg, Et.
    repeat split; try assumption; lia. }
  split; [split; [|split]|].
  - apply Forall_fmap. eapply Forall_impl; [exact Hall|]. now intros o [H _].
  - clear Hf Hl Hall. induction live as [|a [|b live] IH]; simpl; auto.
    destruct Hsp as [H Hsp'].
    destruct (Obstacle_update_sound a (Forall_inv Hs)) as (Ax & Aw & _).
    destruct (Obstacle_update_sound b (Forall_inv (Forall_inv_tail Hs)))
      as (Bx & _).
    split.
    + unfold edge in *. rewrite Ax, Aw, Bx. lia.
    + apply IH; [now apply Forall_inv_tail in Hs | exact Hsp'].
  - clear Hsp Hl Hall. induction live as [|a [|b live] IH]; simpl; auto.
    destruct Hf as [H Hf'].
    destruct (Obstacle_update_sound a (Forall_inv Hs))
      as (_ & _ & _ & _ & Af & _).
    split; [now rewrite Af|].
    apply IH; [now apply Forall_inv_tail in Hs | exact Hf'].
  - apply Forall_fmap. eapply Forall_impl; [exact Hall|]. now intros o [_ H].
Qed.

(** What survives a frame on a tidy horizon: the obstacles still on the
    screen, moved. *)
Lemma survivors_tidy l :
  tidy l ->
  exists gone live,
    l = gone ++ live /\
    survivors deltaTime speed l = map (Obstacle_update deltaTime speed) live /\
    tidy (survivors deltaTime speed l).
Proof.
  intros (Hs & Hsp & Hf).
  destruct (flagged_first l Hs Hsp) as (gone & live & -> & Hg & Hl).
  assert (Ht : tidy live).
  { split; [|split].
    - now apply Forall_app in Hs as [_ H].
    - now apply spaced_app_r in Hsp.
    - now apply followed_app_r in Hf. }
  destruct (tidy_moved live Ht Hl) as [Ht' Hr].
  exists gone, live. split; [reflexivity|].
  assert (E : survivors deltaTime speed (gone ++ live)
              = map (Obstacle_update deltaTime speed) live).
  { unfold survivors. rewrite map_app.
    rewrite (filter_flagged_prefix _ _ Hg Hr). apply drop_app_length. }
  split; [exact E|]. now rewrite E.
Qed.

End Frame.

(** The obstacle that the spawner adds, under the assumptions of a real
    run: draws in [0, 1), a speed that is not negative and holds back the
    types with an offset, a table of types with widths and gaps that are
    not negative. *)
Lemma addNewObstacle_sound env h s rs h' rest :
  Forall unit_draw rs -> (0 <= s)%Q -> 1 <= MAX_OBSTACLE_LENGTH env ->
  Forall sane_type (Obstacle_types env) ->
  (0 <= horizon_gapCoefficient h)%Q -> 0 < dimensions_WIDTH h ->
  offsets_held_back env s ->
  addNewObstacle env h s rs = Done h' rest ->
  exists new,
    obstacles h' = obstacles h ++ [new] /\ sound new /\
    dimensions_WIDTH h <= xPos new /\ followingObstacleCreated new = false.
Proof.
  intros Hrs Hs Hmax Hsane Hc HW Hoff H.
  apply addNewObstacle_Done in H
    as (n & ty & used & rs1 & _ & Hty & Hrej & -> & Hp).
  apply placeObstacle_Done in Hp as (o & Ho & Hobs & _).
  exists o. split; [exact Hobs|].
  destruct (new_Obstacle_fresh _ _ _ _ _ _ _ _ _ Ho) as [Hr Hf].
  apply new_Obstacle_Done in Ho
    as (r1 & u & r2 & -> & Et & Egc & Esz & Ew & Ex & Eg).
  cbv zeta in Eg.
  rewrite Forall_forall in Hsane. destruct (Hsane ty Hty) as [Htw Hmg].
  apply Forall_app in Hrs as [_ Hrs].
  pose proof (Forall_inv Hrs) as Hr1.
  apply Forall_inv_tail in Hrs. apply Forall_app in Hrs as [_ Hrs].
  pose proof (Forall_inv Hrs) as Hr2.
  assert (Hsize : 1 <= size o).
  { rewrite Esz. cbv zeta. destruct (_ && _); [lia|].
    apply (randomNumOf_range r1 1 (MAX_OBSTACLE_LENGTH env) Hr1 Hmax). }
  assert (Hw : 0 <= width o) by (rewrite Ew; nia).
  assert (Hgc : (0 <= gapCoefficient o)%Q).
  { rewrite Egc. destruct (slowDown env); [|exact Hc].
    apply Qmult_le_0_compat; [exact Hc | discriminate]. }
  assert (Hm : 0 <= minGap_of (width o) ty (gapCoefficient o) s).
  { unfold minGap_of. apply GapFacts.Math_round_nonneg.
    apply (Qplus_le_compat 0 _ 0 _).
    - apply Qmult_le_0_compat; [|exact Hs]. now rewrite <- (Zle_Qle 0).
    - now apply Qmult_le_0_compat. }
  assert (Hg : 0 <= gap o).
  { pose proof (randomNumOf_range r2 _ _ Hr2 (maxGap_of_ge _ Hm)) as Hrange.
    rewrite Eg. destruct (audioCues env); lia. }
  assert (Hoffset : Qeq_bool (type_speedOffset ty) 0 = true).
  { destruct (Qeq_bool (type_speedOffset ty) 0) eqn:E; [reflexivity|].
    exfalso. unfold offsets_held_back in Hoff.
    rewrite Forall_forall in Hoff. specialize (Hoff ty Hty E).
    apply RetryFacts.Qltb_lt in Hoff.
    unfold rejected in Hrej. rewrite Hoff in Hrej.
    now rewrite orb_true_r in Hrej. }
  split; [|split; [lia | exact Hf]].
  unfold sound, edge. rewrite Et. repeat split; try assumption. lia.
Qed.

(** X24.  As long as the speed holds back every obstacle type that has
    a speed offset (in the original table: below 8.5, the pterodactyl's
    [minSpeed]), [updateObstacles] keeps the horizon in order: no obstacle
    left in the array is flagged [remove], each is on the screen and ends
    left of where the next begins, and every one but the last has had its
    follower created.  The obstacles that the frame drops are the first
    ones of the array, exactly those whose right edge the frame moves to 0
    or beyond.  [removeFirstObstacle] and [reset] keep that order too. *)
Theorem horizon_stays_tidy (env : Env) (dt s : Q) (h : Horizon)
  (rs : list Q) (h' : Horizon) (rest : list Q) :
  Forall unit_draw rs -> (0 <= s)%Q -> 1 <= MAX_OBSTACLE_LENGTH env ->
  Forall sane_type (Obstacle_types env) ->
  (0 <= horizon_gapCoefficient h)%Q -> 0 < dimensions_WIDTH h ->
  offsets_held_back env s ->
  tidy (obstacles h) ->
  updateObstacles env dt s h rs = Done h' rest ->
  tidy (obstacles h')
  /\ (exists gone live,
        obstacles h = gone ++ live /\
        survivors dt s (obstacles h) = map (Obstacle_update dt s) live /\
        Forall (fun o => edge o <= shift dt s) gone /\
        Forall (fun o => shift dt s < edge o) live)
  /\ tidy (obstacles (removeFirstObstacle h'))
  /\ tidy (obstacles (Horizon_reset h')).
Proof.
  intros Hrs Hs Hmax Hsane Hc HW Hoff Ht H.
  assert (T : tidy (obstacles h')).
  { destruct (survivors_tidy dt s (obstacles h) Ht) as (gone & live & _ & _ & Hk).
    unfold updateObstacles in H. cbv zeta in H.
    set (kept := survivors dt s (obstacles h)) in *.
    destruct (last kept) as [l|] eqn:Hlast.
    - change (wants_follower (set_obstacles kept h) l)
        with (wants_follower h l) in H.
      destruct (wants_follower h l) eqn:Hw.
      + apply bind_Done in H as (h2 & rs2 & Hadd & [<- _]%ret_Done).
        apply addNewObstacle_sound in Hadd
          as (new & Hobs & Hnew & Hx & Hnf); try assumption.
        apply last_Some in Hlast as [pre Hpre].
        simpl in Hobs |- *. rewrite Hobs, Hpre, length_app. simpl.
        replace (length pre + 1 - 1)%nat with (length pre + 0)%nat by lia.
        rewrite <- app_assoc, alter_app_r. simpl.
        rewrite Hpre in Hk. destruct Hk as (Ks & Ksp & Kf).
        apply Forall_app in Ks as [Kpre Kl]. apply Forall_inv in Kl.
        unfold wants_follower in Hw.
        apply andb_true_iff in Hw as [_ Hgap]. apply Z.ltb_lt in Hgap.
        destruct Kl as (L1 & L2 & L3 & L4 & L5).
        split; [|split].
        * apply Forall_app. split; [exact Kpre|].
          constructor; [|constructor; [exact Hnew | constructor]].
          unfold sound, edge in *. simpl. repeat split; assumption.
        * apply (spaced_snoc pre l); auto. unfold edge. simpl in Hx. lia.
        * apply (followed_snoc pre l); auto.
      + apply ret_Done in H as [<- _]. exact Hk.
    - assert (kept = []) as Hnil by (destruct kept using rev_ind;
        [reflexivity | rewrite last_snoc in Hlast; discriminate]).
      apply addNewObstacle_sound in H
        as (new & Hobs & Hnew & Hx & Hnf); try assumption.
      simpl in Hobs. rewrite Hobs, Hnil. simpl.
      split; [|split]; simpl; auto. }
  split; [exact T|]. split.
  - destruct Ht as (Hsd & Hsp & Hf).
    destruct (flagged_first dt s (obstacles h) Hsd Hsp)
      as (gone & live & E & Hg & Hl).
    exists gone, live. split; [exact E|].
    assert (Ht : tidy live).
    { rewrite E in Hsd, Hsp, Hf. split; [|split].
      - now apply Forall_app in Hsd as [_ H0].
      - now apply spaced_app_r in Hsp.
      - now apply followed_app_r in Hf. }
    destruct (tidy_moved dt s live Ht Hl) as [_ Hr].
    split; [|split; [|exact Hl]].
    + unfold survivors. rewrite E, map_app.
      rewrite (filter_flagged_prefix _ _ Hg Hr). apply drop_app_length.
    + rewrite E in Hsd. apply Forall_app in Hsd as [Hsg _].
      rewrite Forall_fmap in Hg.
      rewrite Forall_forall in Hsg, Hg |- *. intros o Ho.
      specialize (Hg o Ho). simpl in Hg.
      destruct (Obstacle_update_sound dt s o (Hsg o Ho))
        as (_ & _ & _ & _ & _ & Er).
      rewrite Er in Hg.
      destruct (Z.gtb_spec (edge o - shift dt s) 0); [discriminate | lia].
  - destruct T as (Ts & Tsp & Tf). split.
    + destruct (obstacles h') as [|a l] eqn:E; simpl; rewrite ?E; simpl.
      * split; [constructor | auto].
      * split; [now apply Forall_inv_tail in Ts|].
        split; [destruct l; [exact I | apply Tsp]
               | destruct l; [exact I | apply Tf]].
    + simpl. repeat split. constructor.
Qed.

(** A horizon whose first cactus is about to leave the screen, and what a
    frame of a sixtieth of a second at speed 6 makes of it. *)
Definition cactus (xPos : Z) : Obstacle :=
  mkObstacle CACTUS_SMALL 0.6 1 false xPos 105 17
    (type_collisionBoxes CACTUS_SMALL) 120 0 false.

Definition scene : Horizon :=
  mkHorizon [cactus (-15); cactus 300] ["CACTUS_SMALL"] 0.6 600 false.

Definition scene_draws : list Q := [0; 0; 0.5]%Q.

Definition scene_after : Horizon :=
  match updateObstacles defaultEnv (50 / 3) 6 scene scene_draws with
  | Done h _ => h
  | _ => scene
  end.

Lemma scene_updated :
  updateObstacles defaultEnv (50 / 3) 6 scene scene_draws = Done scene_after [].
Proof. vm_compute. reflexivity. Qed.

Lemma updateObstacles_leaves_an_obstacle_witness :
  obstacles scene_after <> []
  /\ (1 <= length (obstacles scene_after) <= 2)%nat.
Proof.
  pose proof (updateObstacles_leaves_an_obstacle defaultEnv (50 / 3) 6 scene
                scene_draws scene_after [] scene_updated) as H.
  cbv zeta in H. destruct H as (H1 & H2 & _).
  split; [exact H1 | exact H2].
Defined.

Lemma follower_keeps_the_gap_witness :
  exists pre l new,
    obstacles scene_after = pre ++ [l; new]
    /\ followingObstacleCreated l = true
    /\ followingObstacleCreated new = false
    /\ 0 < xPos l + width l
    /\ xPos new = dimensions_WIDTH scene + type_width (typeConfig new)
    /\ xPos new - (xPos l + width l) > gap l + type_width (typeConfig new).
Proof.
  apply (follower_keeps_the_gap defaultEnv (50 / 3) 6 scene scene_draws
           scene_after [] scene_updated).
  - reflexivity.
  - discriminate.
Defined.

Lemma collision_check_after_updateObstacles_witness :
  exists collision,
    collisionOf defaultEnv true
      (mkRunner normalConfig 6 0 (50 / 3) 0 None true false false scene_after
         (mkTrex 50 93 Trex_config false))
    = inr collision.
Proof.
  apply (collision_check_after_updateObstacles defaultEnv (50 / 3) 6 scene
           scene_draws scene_after [] _ true scene_updated).
  reflexivity.
Defined.

Lemma survivors_drop_the_flagged_witness :
  survivors (50 / 3) 6 (obstacles scene)
  = [Obstacle_update (50 / 3) 6 (cactus 300)]
  /\ Forall (fun o => 0 < xPos o + width o)
       [Obstacle_update (50 / 3) 6 (cactus 300)].
Proof.
  apply (survivors_drop_the_flagged (50 / 3) 6 (obstacles scene)
           [Obstacle_update (50 / 3) 6 (cactus (-15))]
           [Obstacle_update (50 / 3) 6 (cactus 300)]).
  - reflexivity.
  - repeat constructor.
  - repeat constructor.
Defined.

(** The same horizon with the first cactus already followed. *)
Definition trail : Horizon :=
  mkHorizon [set_followingObstacleCreated (cactus (-15)); cactus 300]
    ["CACTUS_SMALL"] 0.6 600 false.

Definition trail_after : Horizon :=
  match updateObstacles defaultEnv (50 / 3) 6 trail scene_draws with
  | Done h _ => h
  | _ => trail
  end.

Lemma trail_updated :
  updateObstacles defaultEnv (50 / 3) 6 trail scene_draws = Done trail_after [].
Proof. vm_compute. reflexivity. Qed.

Lemma horizon_stays_tidy_witness :
  tidy (obstacles trail_after).
Proof.
  refine (proj1 (horizon_stays_tidy defaultEnv (50 / 3) 6 trail scene_draws
                   trail_after [] _ _ _ _ _ _ _ _ _)).
  - repeat (constructor; [split; [discriminate | reflexivity]|]). constructor.
  - discriminate.
  - simpl. lia.
  - repeat (constructor; [split; [simpl; lia | discriminate]|]). constructor.
  - discriminate.
  - reflexivity.
  - repeat (constructor; [simpl; intros E; try discriminate E; reflexivity|]).
    constructor.
  - split; [|split].
    + repeat (constructor; [repeat split; try discriminate; reflexivity|]).
      constructor.
    + simpl. split; [reflexivity | exact I].
    + simpl. split; [reflexivity | exact I].
  - exact trail_updated.
Defined.

End HorizonMoreFacts.

(** ** The jump *)

Module TrexJumpFacts.
Import JS TrexJump RandomFacts.

Ltac break_if :=
  match goal with
  | |- context [if ?b then _ else _] => destruct b eqn:?; simpl
  end.

Section Methods.
Variable config : Config.

(** What [reset] leaves: the player on the ground, not jumping, and
    ducking exactly when a speed drop was on. *)
Lemma reset_spec t :
  let t' := reset config t in
  yPos t' = groundYPos t /\ groundYPos t' = groundYPos t /\
  jumping t' = false /\ jumpVelocity t' = 0%Q /\ speedDrop t' = false /\
  jumpCount t' = 0 /\ ducking t' = speedDrop t /\
  status t' = (if speedDrop t then DUCKING else RUNNING) /\
  minJumpHeight t' = minJumpHeight t.
Proof.
  destruct t as [x y xi g m st j d v rm sd jc pi].
  unfold reset, update, update_status, setDuck_over. simpl.
  destruct (pi && (xi <? START_X_POS config)); simpl;
    rewrite Z.eqb_refl; destruct sd; simpl; repeat break_if;
    repeat split; reflexivity.
Qed.

Hypothesis upright : INVERT_JUMP config = None.

(** The frames that [deltaTime] amounts to, and the step that
    [updateJump] adds to [yPos], when the jump is not inverted. *)
Definition framesElapsed (deltaTime : Q) (t : Trex) : Q :=
  (deltaTime / animFrames_msPerFrame (status t))%Q.

Definition fall (deltaTime : Q) (t : Trex) : Z :=
  if speedDrop t
  then Math_round (jumpVelocity t * SPEED_DROP_COEFFICIENT config
                   * framesElapsed deltaTime t)
  else Math_round (jumpVelocity t * framesElapsed deltaTime t).

(** [updateJump] in four stages: move, note the minimum height, cap the
    rise, land. *)
Definition stepped (dt : Q) (t : Trex) : Trex :=
  set_jumpVelocity (jumpVelocity t + GRAVITY config * framesElapsed dt t)%Q
    (set_yPos (yPos t + fall dt t) t).

Definition marked (t : Trex) : Trex :=
  if TRex.Qltb (inject_Z (yPos t)) (minJumpHeight t) || speedDrop t
  then set_reachedMinHeight true t else t.

Definition capped (t : Trex) : Trex :=
  if TRex.Qltb (inject_Z (yPos t)) (MAX_JUMP_HEIGHT config) || speedDrop t
  then endJump config t else t.

Definition landed (t : Trex) : Trex :=
  if yPos t >? groundYPos t
  then set_jumpCount (jumpCount (reset config t) + 1) (reset config t)
  else t.

Lemma updateJump_stages dt t :
  updateJump config dt t = landed (capped (marked (stepped dt t))).
Proof.
  unfold updateJump, below_inverted, below_ground. rewrite upright.
  destruct (speedDrop t) eqn:E; unfold stepped, fall, framesElapsed;
    rewrite E; reflexivity.
Qed.

(** What the first three stages keep and change. *)
Definition same_pose (t t' : Trex) : Prop :=
  groundYPos t' = groundYPos t /\ jumping t' = jumping t /\
  status t' = status t /\ speedDrop t' = speedDrop t /\
  ducking t' = ducking t /\ jumpCount t' = jumpCount t /\
  minJumpHeight t' = minJumpHeight t /\ xPos t' = xPos t /\
  xInitialPos t' = xInitialPos t /\ playingIntro t' = playingIntro t.

Lemma same_pose_refl t : same_pose t t.
Proof. repeat split. Qed.

Lemma same_pose_trans t1 t2 t3 :
  same_pose t1 t2 -> same_pose t2 t3 -> same_pose t1 t3.
Proof.
  unfold same_pose. intros (?&?&?&?&?&?&?&?&?&?) (?&?&?&?&?&?&?&?&?&?).
  repeat split; congruence.
Qed.

Lemma marked_spec t :
  same_pose t (marked t) /\ yPos (marked t) = yPos t /\
  jumpVelocity (marked t) = jumpVelocity t /\
  (speedDrop t = true -> reachedMinHeight (marked t) = true).
Proof.
  unfold marked. destruct (_ || speedDrop t) eqn:E; simpl;
    repeat split; try reflexivity.
  intros Hs. rewrite Hs in E. now rewrite orb_true_r in E.
Qed.

Lemma endJump_spec t :
  same_pose t (endJump config t) /\ yPos (endJump config t) = yPos t /\
  (jumpVelocity t <= jumpVelocity (endJump config t))%Q /\
  (reachedMinHeight t = true ->
   (DROP_VELOCITY config <= jumpVelocity (endJump config t))%Q).
Proof.
  unfold endJump. destruct (reachedMinHeight t && _) eqn:E; simpl.
  - apply andb_true_iff in E as [_ E]. apply RetryFacts.Qltb_lt in E.
    repeat split; try reflexivity.
    + now apply Qlt_le_weak.
    + intros _. apply Qle_refl.
  - repeat split; try reflexivity; [apply Qle_refl|].
    intros Hr. rewrite Hr in E. simpl in E.
    destruct (Qlt_le_dec (jumpVelocity t) (DROP_VELOCITY config)) as [Hlt|Hle];
      [|exact Hle].
    apply RetryFacts.Qltb_lt in Hlt. congruence.
Qed.

Lemma capped_spec t :
  same_pose t (capped t) /\ yPos (capped t) = yPos t /\
  (jumpVelocity t <= jumpVelocity (capped t))%Q /\
  (speedDrop t = true -> reachedMinHeight t = true ->
   (DROP_VELOCITY config <= jumpVelocity (capped t))%Q).
Proof.
  unfold capped. destruct (_ || speedDrop t) eqn:E.
  - destruct (endJump_spec t) as (H1 & H2 & H3 & H4).
    repeat split; try apply H1; try assumption. intros _. exact H4.
  - repeat split; try reflexivity; [apply Qle_refl|].
    intros Hs. rewrite Hs in E. now rewrite orb_true_r in E.
Qed.

(** One call of [updateJump]: either the step has taken the player below
    the ground and it is put back on it, or the step is taken as it is. *)
Lemma stepped_fields dt t :
  same_pose t (stepped dt t) /\ yPos (stepped dt t) = yPos t + fall dt t /\
  jumpVelocity (stepped dt t)
  = (jumpVelocity t + GRAVITY config * framesElapsed dt t)%Q.
Proof. repeat split. Qed.

Lemma set_jumpCount_fields n t :
  yPos (set_jumpCount n t) = yPos t /\
  groundYPos (set_jumpCount n t) = groundYPos t /\
  jumping (set_jumpCount n t) = jumping t /\
  jumpVelocity (set_jumpCount n t) = jumpVelocity t /\
  jumpCount (set_jumpCount n t) = n /\
  speedDrop (set_jumpCount n t) = speedDrop t /\
  ducking (set_jumpCount n t) = ducking t /\
  status (set_jumpCount n t) = status t.
Proof. repeat split. Qed.

(** One call of [updateJump]: either the step has taken the player below
    the ground and it is put back on it, or the step is taken as it is. *)
Lemma updateJump_step dt t :
  let y1 := yPos t + fall dt t in
  let t' := updateJump config dt t in
  groundYPos t' = groundYPos t
  /\ (groundYPos t < y1 ->
      yPos t' = groundYPos t /\ jumping t' = false /\
      jumpVelocity t' = 0%Q /\ jumpCount t' = 1 /\ speedDrop t' = false /\
      ducking t' = speedDrop t /\
      status t' = (if speedDrop t then DUCKING else RUNNING))
  /\ (y1 <= groundYPos t ->
      yPos t' = y1 /\ jumping t' = jumping t /\ status t' = status t /\
      speedDrop t' = speedDrop t /\ ducking t' = ducking t /\
      jumpCount t' = jumpCount t /\
      (jumpVelocity t + GRAVITY config * framesElapsed dt t
       <= jumpVelocity t')%Q /\
      (speedDrop t = true -> (DROP_VELOCITY config <= jumpVelocity t')%Q)).
Proof.
  cbv zeta. rewrite updateJump_stages.
  destruct (stepped_fields dt t) as (S1 & S2 & S3).
  destruct (marked_spec (stepped dt t)) as (M1 & M2 & M3 & M4).
  destruct (capped_spec (marked (stepped dt t))) as (C1 & C2 & C3 & C4).
  assert (P : same_pose t (capped (marked (stepped dt t)))).
  { eapply same_pose_trans; [|exact C1].
    eapply same_pose_trans; [|exact M1]. exact S1. }
  rewrite M2, S2 in C2. rewrite M3, S3 in C3.
  assert (C5 : speedDrop t = true ->
               (DROP_VELOCITY config
                <= jumpVelocity (capped (marked (stepped dt t))))%Q).
  { intros Hs.
    assert (Hs1 : speedDrop (stepped dt t) = true)
      by (destruct S1 as (_ & _ & _ & -> & _); exact Hs).
    apply C4; [|now apply M4].
    destruct M1 as (_ & _ & _ & -> & _). exact Hs1. }
  clear C4 M4 M1 M2 M3 C1 S1 S2 S3.
  generalize dependent (capped (marked (stepped dt t))). intros t4 C2 C3 P C5.
  destruct P as (Pg & Pj & Pst & Psd & Pd & Pjc & _).
  unfold landed. rewrite C2, Pg.
  destruct (Z.gtb_spec (yPos t + fall dt t) (groundYPos t)) as [Hgt|Hle].
  - pose proof (reset_spec t4) as R. cbv zeta in R.
    destruct R as (Ry & Rg & Rj & Rv & Rsd & Rjc & Rd & Rst & _).
    destruct (set_jumpCount_fields (jumpCount (reset config t4) + 1)
                (reset config t4))
      as (J1 & J2 & J3 & J4 & J5 & J6 & J7 & J8).
    rewrite J1, J2, J3, J4, J5, J6, J7, J8.
    rewrite Rg, Pg. split; [reflexivity|]. split; [|lia].
    intros _. rewrite Ry, Rj, Rv, Rjc, Rsd, Rd, Rst, Pg, Psd.
    repeat split; reflexivity.
  - split; [exact Pg|]. split; [lia|]. intros _.
    repeat split; assumption.
Qed.

Lemma msPerFrame_pos st : (0 < animFrames_msPerFrame st)%Q.
Proof. destruct st; reflexivity. Qed.

Lemma framesElapsed_nonneg dt t : (0 <= dt)%Q -> (0 <= framesElapsed dt t)%Q.
Proof.
  intros Hdt. unfold framesElapsed, Qdiv.
  apply Qmult_le_0_compat; [exact Hdt|].
  apply Qlt_le_weak, Qinv_lt_0_compat, msPerFrame_pos.
Qed.

Lemma Math_round_nonpos q : (q <= 0)%Q -> Math_round q <= 0.
Proof.
  intros Hq. unfold Math_round.
  assert (H : (q + (1 # 2) <= 1 # 2)%Q) by lra.
  apply Qfloor_resp_le in H. exact H.
Qed.

(** The step of a jump goes the way of the velocity. *)
Lemma fall_sign dt t :
  (0 <= dt)%Q -> (0 <= SPEED_DROP_COEFFICIENT config)%Q ->
  ((0 <= jumpVelocity t)%Q -> 0 <= fall dt t)
  /\ ((jumpVelocity t <= 0)%Q -> fall dt t <= 0).
Proof.
  intros Hdt Hc. pose proof (framesElapsed_nonneg dt t Hdt) as Hf.
  unfold fall. split; intros Hv.
  - destruct (speedDrop t); apply GapFacts.Math_round_nonneg.
    + apply Qmult_le_0_compat; [|exact Hf]. now apply Qmult_le_0_compat.
    + now apply Qmult_le_0_compat.
  - destruct (speedDrop t); apply Math_round_nonpos.
    + assert (H : (0 <= (- jumpVelocity t) * SPEED_DROP_COEFFICIENT config
                         * framesElapsed dt t)%Q).
      { apply Qmult_le_0_compat; [|exact Hf].
        apply Qmult_le_0_compat; [lra | exact Hc]. }
      lra.
    + assert (H : (0 <= (- jumpVelocity t) * framesElapsed dt t)%Q).
      { apply Qmult_le_0_compat; [lra | exact Hf]. }
      lra.
Qed.

(** X13.  With [INVERT_JUMP] unset, [updateJump] never leaves the player
    below the ground, and it leaves the ground where it is.  A call that
    ends the jump has put the player exactly on the ground, with velocity 0
    and [jumpCount = 1], and ducking exactly when a speed drop was on.  A
    call that does not end it keeps status, speed drop and [jumpCount];
    for a frame time that is not negative it moves the player the way of
    the velocity (up or not at all while the velocity is negative or zero,
    down or not at all while it is positive or zero), and with a gravity
    that is not negative the velocity does not decrease. *)
Theorem updateJump_never_ends_below_ground (dt : Q) (t : Trex) :
  let t' := updateJump config dt t in
  yPos t' <= groundYPos t'
  /\ groundYPos t' = groundYPos t
  /\ (jumping t = true -> jumping t' = false ->
      yPos t' = groundYPos t /\ jumpVelocity t' = 0%Q /\ jumpCount t' = 1 /\
      speedDrop t' = false /\ ducking t' = speedDrop t /\
      status t' = (if speedDrop t then DUCKING else RUNNING))
  /\ (jumping t' = true ->
      status t' = status t /\ jumpCount t' = jumpCount t /\
      speedDrop t' = speedDrop t /\
      ((0 <= dt)%Q -> (0 <= SPEED_DROP_COEFFICIENT config)%Q ->
       ((jumpVelocity t <= 0)%Q -> yPos t' <= yPos t) /\
       ((0 <= jumpVelocity t)%Q -> yPos t <= yPos t')) /\
      ((0 <= dt)%Q -> (0 <= GRAVITY config)%Q ->
       (jumpVelocity t <= jumpVelocity t')%Q)).
Proof.
  pose proof (updateJump_step dt t) as S. cbv zeta in S |- *.
  destruct S as (Sg & Sland & Sair).
  destruct (Z.lt_ge_cases (groundYPos t) (yPos t + fall dt t)) as [Hlt|Hge].
  - destruct (Sland Hlt) as (Ly & Lj & Lv & Ljc & Lsd & Ld & Lst).
    split; [lia|]. split; [exact Sg|]. split.
    + intros _ _. repeat split; assumption.
    + congruence.
  - destruct (Sair Hge) as (Ay & Aj & Ast & Asd & Ad & Ajc & Av & _).
    split; [lia|]. split; [exact Sg|]. split; [congruence|].
    intros _. split; [exact Ast|]. split; [exact Ajc|]. split; [exact Asd|].
    split.
    + intros Hdt Hc. destruct (fall_sign dt t Hdt Hc) as [Hup Hdown].
      rewrite Ay. split; intros Hv; [specialize (Hdown Hv) | specialize (Hup Hv)];
        lia.
    + intros Hdt Hg. pose proof (framesElapsed_nonneg dt t Hdt) as Hf.
      assert (H : (0 <= GRAVITY config * framesElapsed dt t)%Q)
        by now apply Qmult_le_0_compat.
      lra.
Qed.

Lemma Math_round_ge_1 q : (1 <= q)%Q -> 1 <= Math_round q.
Proof.
  intros Hq. unfold Math_round.
  assert (H : (1%Q <= q + (1 # 2))%Q) by lra.
  apply Qfloor_resp_le in H. exact H.
Qed.

(** [update] leaves the height and the jump alone. *)
Lemma update_status_keeps dt st t :
  let t' := update_status config dt st t in
  yPos t' = yPos t /\ groundYPos t' = groundYPos t /\
  jumping t' = jumping t /\ jumpVelocity t' = jumpVelocity t /\
  jumpCount t' = jumpCount t.
Proof.
  unfold update_status. cbv zeta.
  destruct st as [s|]; destruct (playingIntro _ && _); repeat split.
Qed.

Lemma update_keeps dt st t :
  let t' := update config dt st t in
  yPos t' = yPos t /\ groundYPos t' = groundYPos t /\
  jumping t' = jumping t /\ jumpVelocity t' = jumpVelocity t /\
  jumpCount t' = jumpCount t.
Proof.
  cbv zeta. unfold update.
  destruct (update_status_keeps dt st t) as (Ky & Kg & Kj & Kv & Kc).
  set (u := update_status config dt st t) in *. clearbody u.
  destruct (speedDrop u && _); [|repeat split; assumption].
  unfold setDuck_over.
  destruct (true && _).
  - destruct (update_status_keeps 0 (Some DUCKING) (set_speedDrop false u))
      as (K1 & K2 & K3 & K4 & K5).
    cbn [set_ducking yPos groundYPos jumping jumpVelocity jumpCount].
    rewrite K1, K2, K3, K4, K5. repeat split; assumption.
  - destruct (Status_eqb _ _); [|repeat split; assumption].
    destruct (update_status_keeps 0 (Some RUNNING) (set_speedDrop false u))
      as (K1 & K2 & K3 & K4 & K5).
    cbn [set_ducking yPos groundYPos jumping jumpVelocity jumpCount].
    rewrite K1, K2, K3, K4, K5. repeat split; assumption.
Qed.

Section Frames.
Variable dt : Q.
Hypothesis dt_pos : (0 < dt)%Q.
Hypothesis gravity : (0 < GRAVITY config)%Q.
Hypothesis coefficient : (1 <= SPEED_DROP_COEFFICIENT config)%Q.

(** The frames that [dt] amounts to in the slowest animation, the one of
    [WAITING]: every status counts at least as many. *)
Definition fewest : Q := (dt / (1000 / 3))%Q.

Lemma fewest_pos : (0 < fewest)%Q.
Proof.
  unfold fewest, Qdiv. apply Qmult_lt_0_compat; [exact dt_pos | reflexivity].
Qed.

Lemma fewest_least t : (fewest <= framesElapsed dt t)%Q.
Proof.
  unfold fewest, framesElapsed, Qdiv. rewrite !(Qmult_comm dt).
  apply Qmult_le_compat_r; [|now apply Qlt_le_weak].
  destruct (status t); discriminate.
Qed.

Lemma framesElapsed_pos t : (0 < framesElapsed dt t)%Q.
Proof.
  eapply Qlt_le_trans; [apply fewest_pos | apply fewest_least].
Qed.

(** The player is back on the ground of [t0] after a landing. *)
Definition down (t0 t : Trex) : Prop :=
  jumping t = false /\ yPos t = groundYPos t0 /\ jumpCount t = 1.

(** The player of [t0] is still in the air. *)
Definition airborne (t0 t : Trex) : Prop :=
  jumping t = true /\ groundYPos t = groundYPos t0.

Lemma playerFrame_down t0 t : down t0 t -> down t0 (playerFrame config dt t).
Proof.
  intros (Hj & Hy & Hc). unfold playerFrame, jumpFrame. rewrite Hj.
  destruct (update_keeps dt None t) as (Ky & _ & Kj & _ & Kc).
  unfold down. now rewrite Ky, Kj, Kc.
Qed.

(** One frame in the air. *)
Lemma playerFrame_airborne t0 t :
  airborne t0 t ->
  let t' := playerFrame config dt t in
  down t0 t'
  \/ (airborne t0 t' /\
      yPos t' = yPos t + fall dt t /\ yPos t' <= groundYPos t0 /\
      (jumpVelocity t + GRAVITY config * fewest <= jumpVelocity t')%Q).
Proof.
  intros (Hj & Hg). cbv zeta. unfold playerFrame, jumpFrame. rewrite Hj.
  destruct (update_keeps dt None (updateJump config dt t))
    as (Ky & Kg & Kj & Kv & Kc).
  pose proof (updateJump_step dt t) as S. cbv zeta in S.
  destruct S as (Sg & Sland & Sair).
  destruct (Z.lt_ge_cases (groundYPos t) (yPos t + fall dt t)) as [Hlt|Hge].
  - left. destruct (Sland Hlt) as (Hy & Hj' & _ & Hjc & _).
    unfold down. rewrite Ky, Kj, Kc. repeat split; congruence.
  - right. destruct (Sair Hge) as (Hy & Hj' & _ & _ & _ & _ & Hv & _).
    unfold airborne. rewrite Ky, Kg, Kj, Kv.
    repeat split; try congruence; try lia.
    eapply Qle_trans; [|exact Hv].
    assert (GRAVITY config * fewest
            <= GRAVITY config * framesElapsed dt t)%Q.
    { rewrite !(Qmult_comm (GRAVITY config)).
      apply Qmult_le_compat_r; [apply fewest_least | now apply Qlt_le_weak]. }
    lra.
Qed.

(** The speed grows by gravity in every frame spent in the air. *)
Lemma frames_gain_speed t0 (n : nat) :
  jumping t0 = true ->
  let t := Nat.iter n (playerFrame config dt) t0 in
  down t0 t
  \/ (airborne t0 t /\
      (jumpVelocity t0 + inject_Z (Z.of_nat n) * (GRAVITY config * fewest)
       <= jumpVelocity t)%Q).
Proof.
  intros Hj. induction n as [|n IH]; cbv zeta.
  - right. split; [split; [assumption | reflexivity]|].
    change (Nat.iter 0 (playerFrame config dt) t0) with t0.
    change (inject_Z (Z.of_nat 0)) with 0%Q.
    rewrite Qmult_0_l, Qplus_0_r. apply Qle_refl.
  - change (Nat.iter (S n) (playerFrame config dt) t0)
      with (playerFrame config dt (Nat.iter n (playerFrame config dt) t0)).
    cbv zeta in IH. destruct IH as [D | [A Hv]].
    + left. now apply playerFrame_down.
    + destruct (playerFrame_airborne _ _ A) as [D | (A' & _ & _ & Hv')];
        [now left | right].
      split; [exact A'|].
      rewrite Nat2Z.inj_succ. unfold Z.succ. rewrite inject_Z_plus.
      change (inject_Z 1) with 1%Q. lra.
Qed.

(** Falling at one pixel a frame or faster, whatever the animation. *)
Definition falling (t : Trex) : Prop := (1 <= jumpVelocity t * fewest)%Q.

Lemma falling_fall t : falling t -> 1 <= fall dt t.
Proof.
  unfold falling. intros H.
  pose proof fewest_pos as Hp. pose proof (fewest_least t) as Hl.
  assert (Hv : (0 < jumpVelocity t)%Q).
  { destruct (Qlt_le_dec 0 (jumpVelocity t)) as [Hv|Hv]; [exact Hv|].
    exfalso.
    assert (jumpVelocity t * fewest <= 0 * fewest)%Q
      by (apply Qmult_le_compat_r; lra).
    lra. }
  assert (H1 : (1 <= jumpVelocity t * framesElapsed dt t)%Q).
  { eapply Qle_trans; [exact H|].
    rewrite !(Qmult_comm (jumpVelocity t)).
    apply Qmult_le_compat_r; lra. }
  unfold fall. destruct (speedDrop t).
  - apply Math_round_ge_1.
    setoid_replace (jumpVelocity t * SPEED_DROP_COEFFICIENT config
                    * framesElapsed dt t)%Q
      with (SPEED_DROP_COEFFICIENT config
            * (jumpVelocity t * framesElapsed dt t))%Q
      using relation Qeq by ring.
    apply Qle_trans with (1 * (jumpVelocity t * framesElapsed dt t))%Q;
      [lra|].
    apply Qmult_le_compat_r; [exact coefficient | lra].
  - now apply Math_round_ge_1.
Qed.

Lemma frames_come_down t0 (n : nat) :
  jumping t0 = true -> falling t0 ->
  let t := Nat.iter n (playerFrame config dt) t0 in
  down t0 t
  \/ (airborne t0 t /\ falling t /\ yPos t0 + Z.of_nat n <= yPos t /\
      ((0 < n)%nat -> yPos t <= groundYPos t0)).
Proof.
  intros Hj Hfast. induction n as [|n IH]; cbv zeta.
  - right. split; [split; [assumption | reflexivity]|]. simpl.
    split; [exact Hfast|]. split; lia.
  - change (Nat.iter (S n) (playerFrame config dt) t0)
      with (playerFrame config dt (Nat.iter n (playerFrame config dt) t0)).
    cbv zeta in IH. destruct IH as [D | (A & F & Hy & _)].
    + left. now apply playerFrame_down.
    + destruct (playerFrame_airborne _ _ A) as [D | (A' & Hy' & Hg' & Hv')];
        [now left | right].
      pose proof (falling_fall _ F) as Hfall.
      split; [exact A'|]. split; [|split; [lia|intros _; exact Hg']].
      unfold falling in *. pose proof fewest_pos as Hp.
      set (v := jumpVelocity (Nat.iter n (playerFrame config dt) t0)) in *.
      set (v' := jumpVelocity (playerFrame config dt
                                 (Nat.iter n (playerFrame config dt) t0))) in *.
      apply Qle_trans with (v * fewest)%Q; [exact F|].
      apply Qmult_le_compat_r; [|lra].
      assert (0 <= GRAVITY config * fewest)%Q
        by (apply Qmult_le_0_compat; lra).
      lra.
Qed.

(** Gravity makes any speed a falling one after enough frames. *)
Lemma enough_frames (v0 g f : Q) :
  (0 < g)%Q -> (0 < f)%Q ->
  exists K : nat, (1 <= (v0 + inject_Z (Z.of_nat K) * (g * f)) * f)%Q.
Proof.
  intros Hg Hf.
  assert (Hgf : (0 < g * f)%Q) by now apply Qmult_lt_0_compat.
  set (q := ((1 / f - v0) / (g * f))%Q).
  exists (Z.to_nat (Qceiling q)).
  assert (HK : (q <= inject_Z (Z.of_nat (Z.to_nat (Qceiling q))))%Q).
  { apply Qle_trans with (inject_Z (Qceiling q)); [apply Qle_ceiling|].
    rewrite <- Zle_Qle. lia. }
  set (K := inject_Z (Z.of_nat (Z.to_nat (Qceiling q)))) in *.
  assert (H1 : (q * (g * f) <= K * (g * f))%Q)
    by (apply Qmult_le_compat_r; [exact HK | lra]).
  assert (H2 : (q * (g * f) == 1 / f - v0)%Q)
    by (unfold q; field; split; lra).
  assert (H3 : (1 / f <= v0 + K * (g * f))%Q) by lra.
  assert (H4 : (1 / f * f <= (v0 + K * (g * f)) * f)%Q)
    by (apply Qmult_le_compat_r; [exact H3 | lra]).
  assert (H5 : (1 / f * f == 1)%Q) by (field; lra).
  lra.
Qed.

(** X14.  With [INVERT_JUMP] unset, positive gravity, a speed-drop
    coefficient of at least 1 and frames of a fixed positive length, every
    jump ends: after some number of frames of play (the jump step, then
    the player's [update]) the player is no longer jumping, and it is then
    on the ground with [jumpCount = 1]. *)
Theorem every_jump_lands (t : Trex) :
  exists n : nat,
    let tn := Nat.iter n (playerFrame config dt) t in
    jumping tn = false
    /\ (jumping t = true -> yPos tn = groundYPos t /\ jumpCount tn = 1).
Proof.
  destruct (jumping t) eqn:Hj; [|exists 0%nat; split; [exact Hj | discriminate]].
  destruct (enough_frames (jumpVelocity t) (GRAVITY config) fewest
              gravity fewest_pos) as [K HK].
  destruct (frames_gain_speed t K Hj) as [D | [A Hv]].
  { exists K. destruct D as (D1 & D2 & D3). cbv zeta. auto. }
  set (tK := Nat.iter K (playerFrame config dt) t) in *.
  assert (F : falling tK).
  { unfold falling. eapply Qle_trans; [exact HK|].
    apply Qmult_le_compat_r; [exact Hv|].
    apply Qlt_le_weak, fewest_pos. }
  destruct A as (AJ & Ag).
  set (m := S (Z.to_nat (groundYPos t - yPos tK))).
  destruct (frames_come_down tK m AJ F) as [D | (A' & _ & Hy & Hg)].
  - exists (m + K)%nat. rewrite Nat.iter_add. fold tK.
    destruct D as (D1 & D2 & D3). cbv zeta. rewrite Ag in D2. auto.
  - exfalso. specialize (Hg ltac:(lia)). rewrite Ag in Hg.
    assert (Hm : groundYPos t - yPos tK < Z.of_nat m) by (unfold m; lia).
    lia.
Qed.

(** X15.  After [setSpeedDrop] in the air the player never rises again
    during that jump: in every later frame of play [yPos] stays or grows,
    up to the ground; the velocity is at least 1 as long as the jump
    lasts, and once it has ended the player is on the ground. *)
Theorem speed_drop_only_falls (t : Trex) (n : nat) :
  jumping t = true -> yPos t <= groundYPos t ->
  let tn := Nat.iter n (playerFrame config dt) (setSpeedDrop t) in
  yPos tn <= yPos (playerFrame config dt tn) <= groundYPos t
  /\ (jumping tn = true -> (1 <= jumpVelocity tn)%Q)
  /\ (jumping tn = false -> yPos tn = groundYPos t).
Proof.
  intros Hj Hy. cbv zeta.
  assert (Frame : forall u,
            groundYPos u = groundYPos t -> yPos u <= groundYPos t ->
            (jumping u = false /\ yPos u = groundYPos t
             \/ jumping u = true /\ (1 <= jumpVelocity u)%Q) ->
            let u' := playerFrame config dt u in
            groundYPos u' = groundYPos t /\ yPos u <= yPos u' <= groundYPos t /\
            (jumping u' = false /\ yPos u' = groundYPos t
             \/ jumping u' = true /\ (1 <= jumpVelocity u')%Q)).
  { intros u Hg Hyu Hu. cbv zeta. unfold playerFrame, jumpFrame.
    destruct Hu as [(Dj & Dy) | (Aj & Av)].
    - rewrite Dj.
      destruct (update_keeps dt None u) as (Ky & Kg & Kj & _).
      rewrite Ky, Kg, Kj. split; [exact Hg|]. split; [lia|]. now left.
    - rewrite Aj.
      destruct (update_keeps dt None (updateJump config dt u))
        as (Ky & Kg & Kj & Kv & _).
      rewrite Ky, Kg, Kj, Kv.
      pose proof (updateJump_step dt u) as S. cbv zeta in S.
      destruct S as (Sg & Sland & Sair).
      destruct (Z.lt_ge_cases (groundYPos u) (yPos u + fall dt u))
        as [Hlt|Hge].
      + destruct (Sland Hlt) as (Ly & Lj & _).
        split; [congruence|]. split; [lia|]. left. split; congruence.
      + destruct (Sair Hge) as (Ay & Aj' & _ & _ & _ & _ & Av' & _).
        pose proof (framesElapsed_pos u) as Hp.
        assert (F : 0 <= fall dt u).
        { unfold fall. destruct (speedDrop u);
            apply GapFacts.Math_round_nonneg.
          - apply Qmult_le_0_compat; [|lra].
            apply Qmult_le_0_compat; lra.
          - apply Qmult_le_0_compat; lra. }
        split; [congruence|]. split; [lia|]. right.
        split; [congruence|].
        assert (0 <= GRAVITY config * framesElapsed dt u)%Q
          by (apply Qmult_le_0_compat; lra).
        lra. }
  assert (I : let tn := Nat.iter n (playerFrame config dt) (setSpeedDrop t) in
              groundYPos tn = groundYPos t /\ yPos tn <= groundYPos t /\
              (jumping tn = false /\ yPos tn = groundYPos t
               \/ jumping tn = true /\ (1 <= jumpVelocity tn)%Q)).
  { induction n as [|n IH]; cbv zeta.
    - simpl. split; [reflexivity|]. split; [exact Hy|]. right.
      split; [exact Hj | apply Qle_refl].
    - change (Nat.iter (S n) (playerFrame config dt) (setSpeedDrop t))
        with (playerFrame config dt
                (Nat.iter n (playerFrame config dt) (setSpeedDrop t))).
      cbv zeta in IH. destruct IH as (Hg & Hyn & Hu).
      destruct (Frame _ Hg Hyn Hu) as (F1 & F2 & F3).
      split; [exact F1|]. split; [lia | exact F3]. }
  cbv zeta in I. destruct I as (Hg & Hyn & Hu).
  destruct (Frame _ Hg Hyn Hu) as (_ & F2 & _).
  split; [exact F2|].
  destruct Hu as [(Dj & Dy) | (Aj & Av)]; split; congruence.
Qed.

End Frames.

(** *** What the player keeps through any play *)

Definition steady (t : Trex) : Prop :=
  yPos t <= groundYPos t
  /\ (jumping t = false -> yPos t = groundYPos t /\ speedDrop t = false)
  /\ (status t = DUCKING -> ducking t = true)
  /\ (jumpCount t = 0 \/ jumpCount t = 1).

Lemma Status_eqb_eq a b : Status_eqb a b = true <-> a = b.
Proof. destruct a, b; split; (reflexivity || discriminate). Qed.

Lemma update_status_fields dt st t :
  let t' := update_status config dt st t in
  status t' = match st with Some s => s | None => status t end /\
  ducking t' = ducking t /\ speedDrop t' = speedDrop t.
Proof.
  unfold update_status. cbv zeta.
  destruct st as [s|]; destruct (playingIntro _ && _); repeat split.
Qed.

(** Without a speed drop [update] is [update_status]. *)
Lemma update_off dt st t :
  speedDrop t = false -> update config dt st t = update_status config dt st t.
Proof.
  intros Hs. unfold update.
  destruct (update_status_fields dt st t) as (_ & _ & E).
  now rewrite E, Hs.
Qed.

(** The last clause of [update] sets the flag with the status. *)
Lemma update_duck dt st t :
  (match st with Some s => s | None => status t end = DUCKING ->
   ducking t = true) ->
  let t' := update config dt st t in
  (status t' = DUCKING -> ducking t' = true)
  /\ (speedDrop t = false -> speedDrop t' = false).
Proof.
  intros H. cbv zeta. unfold update.
  destruct (update_status_fields dt st t) as (Est & Ed & Es).
  set (u := update_status config dt st t) in *. clearbody u.
  rewrite <- Est, <- Ed in H. clear Est Ed.
  destruct (speedDrop u && (yPos u =? groundYPos u)) eqn:Hc.
  - unfold setDuck_over.
    change (status (set_speedDrop false u)) with (status u).
    destruct (Status_eqb (status u) DUCKING) eqn:Hd; cbn [andb negb].
    + destruct (update_status_fields 0 (Some RUNNING) (set_speedDrop false u))
        as (E1 & _ & E3).
      cbn [set_ducking ducking status speedDrop]. rewrite E1.
      split; [discriminate | intros _; exact E3].
    + destruct (update_status_fields 0 (Some DUCKING) (set_speedDrop false u))
        as (E1 & _ & E3).
      cbn [set_ducking ducking status speedDrop].
      split; [reflexivity | intros _; exact E3].
  - split; [exact H | congruence].
Qed.

Lemma steady_update dt st t :
  st <> Some DUCKING -> steady t -> steady (update config dt st t).
Proof.
  intros Hst (H1 & H2 & H3 & H4).
  destruct (update_keeps dt st t) as (Ky & Kg & Kj & _ & Kc).
  assert (H3' : match st with Some s => s | None => status t end = DUCKING ->
                ducking t = true).
  { destruct st as [s|]; [intros ->; congruence | exact H3]. }
  destruct (update_duck dt st t H3') as (I3 & I2).
  unfold steady. rewrite Ky, Kg, Kj, Kc.
  split; [exact H1|]. split; [|split; [exact I3 | exact H4]].
  intros Hj. destruct (H2 Hj) as [Hy Hs]. auto.
Qed.

Lemma steady_reset t : steady (reset config t).
Proof.
  pose proof (reset_spec t) as R. cbv zeta in R.
  destruct R as (Ry & Rg & Rj & Rv & Rsd & Rjc & Rd & Rst & _).
  unfold steady. rewrite Ry, Rg, Rsd, Rjc, Rd, Rst.
  split; [lia|]. split; [auto|]. split; [|now left].
  destruct (speedDrop t); [reflexivity | discriminate].
Qed.

Lemma steady_updateJump dt t :
  steady t -> jumping t = true -> steady (updateJump config dt t).
Proof.
  intros (H1 & H2 & H3 & H4) Hj.
  pose proof (updateJump_step dt t) as S. cbv zeta in S.
  destruct S as (Sg & Sland & Sair).
  unfold steady. rewrite Sg.
  destruct (Z.lt_ge_cases (groundYPos t) (yPos t + fall dt t)) as [Hlt|Hge].
  - destruct (Sland Hlt) as (Ly & Lj & _ & Ljc & Lsd & Ld & Lst).
    rewrite Ly, Lsd, Ljc, Ld, Lst.
    split; [lia|]. split; [auto|]. split; [|now right].
    destruct (speedDrop t); [reflexivity | discriminate].
  - destruct (Sair Hge) as (Ay & Aj & Ast & Asd & Ad & Ajc & _).
    rewrite Ay, Aj, Ast, Ad, Ajc.
    split; [lia|]. split; [congruence|]. split; assumption.
Qed.

Lemma steady_jumpFrame dt t : steady t -> steady (jumpFrame config dt t).
Proof.
  intros St. unfold jumpFrame. destruct (jumping t) eqn:Hj; [|exact St].
  now apply steady_updateJump.
Qed.

Lemma steady_handle e t : steady t -> steady (handle config e t).
Proof.
  intros St. pose proof St as (H1 & H2 & H3 & H4).
  destruct e as [speed| | | | |dt|dt|dt| | |b]; cbn [handle].
  - (* the jump key goes down *)
    destruct (jumping t) eqn:Hj; [exact St|].
    destruct (ducking t) eqn:Hd; [exact St|]. cbn [negb andb].
    destruct (H2 eq_refl) as [Hy Hs].
    unfold startJump. rewrite Hj. cbn [negb].
    rewrite (update_off 0 (Some JUMPING) t Hs).
    destruct (update_status_keeps 0 (Some JUMPING) t) as (Ky & Kg & _ & _ & Kc).
    destruct (update_status_fields 0 (Some JUMPING) t) as (Est & Ed & _).
    unfold steady. cbn [yPos groundYPos jumping speedDrop ducking status jumpCount].
    rewrite Ky, Kg, Kc, Est.
    split; [exact H1|]. split; [discriminate|]. split; [discriminate|exact H4].
  - (* the duck key goes down *)
    destruct (jumping t) eqn:Hj.
    + unfold steady, setSpeedDrop.
      cbn [set_jumpVelocity set_speedDrop yPos groundYPos jumping speedDrop
           ducking status jumpCount].
      rewrite Hj. split; [exact H1|]. split; [discriminate|]. split; assumption.
    + destruct (ducking t) eqn:Hd; [exact St|]. cbn [negb andb].
      destruct (H2 eq_refl) as [Hy Hs].
      assert (Hst : Status_eqb (status t) DUCKING = false).
      { apply not_true_iff_false. rewrite Status_eqb_eq. intros E.
        apply H3 in E. congruence. }
      unfold setDuck, setDuck_over. rewrite Hst. cbn [negb andb].
      rewrite (update_off 0 (Some DUCKING) t Hs).
      destruct (update_status_keeps 0 (Some DUCKING) t)
        as (Ky & Kg & Kj & _ & Kc).
      destruct (update_status_fields 0 (Some DUCKING) t) as (Est & _ & Es).
      unfold steady.
      cbn [set_ducking yPos groundYPos jumping speedDrop ducking status
           jumpCount].
      rewrite Ky, Kg, Kj, Kc, Es, Hj, Hs.
      split; [exact H1|]. split; [auto|]. split; [reflexivity | exact H4].
  - (* the jump key goes up *)
    destruct (endJump_spec t) as (P & Ey & _).
    destruct P as (Pg & Pj & Pst & Psd & Pd & Pjc & _).
    unfold steady. rewrite Ey, Pg, Pj, Pst, Psd, Pd, Pjc. exact St.
  - (* the duck key goes up *)
    unfold setDuck, setDuck_over. cbn [andb].
    change (status (set_speedDrop false t)) with (status t).
    destruct (Status_eqb (status t) DUCKING) eqn:Hst.
    + rewrite (update_off 0 (Some RUNNING) (set_speedDrop false t) eq_refl).
      destruct (update_status_keeps 0 (Some RUNNING) (set_speedDrop false t))
        as (Ky & Kg & Kj & _ & Kc).
      destruct (update_status_fields 0 (Some RUNNING) (set_speedDrop false t))
        as (Est & _ & Es).
      unfold steady.
      cbn [set_ducking yPos groundYPos jumping speedDrop ducking status
           jumpCount].
      rewrite Ky, Kg, Kj, Kc, Est, Es.
      cbn [set_speedDrop yPos groundYPos jumping speedDrop jumpCount].
      split; [exact H1|]. split.
      * intros Hj. destruct (H2 Hj). auto.
      * split; [discriminate | exact H4].
    + unfold steady.
      cbn [set_speedDrop yPos groundYPos jumping speedDrop ducking status
           jumpCount].
      split; [exact H1|]. split.
      * intros Hj. destruct (H2 Hj). auto.
      * split; assumption.
  - (* the game is resumed *)
    apply steady_update; [discriminate | apply steady_reset].
  - (* a frame *)
    unfold playerFrame. apply steady_update; [discriminate|].
    now apply steady_jumpFrame.
  - (* the jump of a frame *)
    now apply steady_jumpFrame.
  - (* the update of a frame *)
    now apply steady_update.
  - (* the game is over *)
    now apply steady_update.
  - (* the game is restarted *)
    apply steady_reset.
  - (* the intro begins or ends *)
    exact St.
Qed.

Lemma steady_play events t : steady t -> steady (play config events t).
Proof.
  revert t. unfold play.
  induction events as [|e events IH]; intros t St; simpl; [exact St|].
  apply IH. now apply steady_handle.
Qed.

Lemma steady_initial : steady initial.
Proof.
  unfold steady, initial. simpl. split; [lia|]. split; [auto|].
  split; [discriminate | now left].
Qed.

(** X23.  With [INVERT_JUMP] unset, whatever calls the runner makes on the
    player after [init()] (key events, frames, resume, game over, restart,
    intro), in any order: the player is never below the ground; when it is
    not jumping it stands on the ground and no speed drop is on; whenever
    the status is [DUCKING] the flag [ducking] is set; and [jumpCount] is 0
    or 1.  The flag can be set without the status: a resume during a speed
    drop does that. *)
Theorem play_keeps_the_player_steady (events : list Event) :
  let t := play config events initial in
  yPos t <= groundYPos t
  /\ (jumping t = false -> yPos t = groundYPos t /\ speedDrop t = false)
  /\ (status t = DUCKING -> ducking t = true)
  /\ (jumpCount t = 0 \/ jumpCount t = 1).
Proof.
  exact (steady_play events initial steady_initial).
Qed.

End Methods.

(** *** A resume during a speed drop *)

Section Stuck.
Variable config : Config.

(** The events that reset the player or end the game. *)
Definition resets (e : Event) : bool :=
  match e with
  | Resume | Restart | GameOver => true
  | _ => false
  end.

(** The flag [ducking] set on a player that runs. *)
Definition stuck (ground : Z) (t : Trex) : Prop :=
  ducking t = true /\ status t = RUNNING /\ jumping t = false
  /\ speedDrop t = false /\ yPos t = ground /\ groundYPos t = ground.

Lemma stuck_resume t :
  speedDrop t = true -> stuck (groundYPos t) (handle config Resume t).
Proof.
  intros Hs. cbn [handle].
  pose proof (reset_spec config t) as R. cbv zeta in R.
  destruct R as (Ry & Rg & Rj & _ & Rsd & _ & Rd & _).
  rewrite Hs in Rd.
  rewrite (update_off config 0 (Some RUNNING) _ Rsd).
  destruct (update_status_keeps config 0 (Some RUNNING) (reset config t))
    as (Ky & Kg & Kj & _).
  destruct (update_status_fields config 0 (Some RUNNING) (reset config t))
    as (Est & Ed & Es).
  unfold stuck. rewrite Ky, Kg, Kj, Est, Ed, Es.
  repeat split; assumption.
Qed.

Lemma stuck_handle ground e t :
  resets e = false -> stuck ground t -> stuck ground (handle config e t).
Proof.
  intros He St. pose proof St as (Hd & Hst & Hj & Hs & Hy & Hg).
  destruct e as [speed| | | | |dt|dt|dt| | |b]; try discriminate He;
    cbn [handle].
  - (* the jump key goes down: the guard fails *)
    rewrite Hj, Hd. exact St.
  - (* the duck key goes down: both guards fail *)
    rewrite Hj, Hd. exact St.
  - (* the jump key goes up *)
    destruct (endJump_spec config t) as (P & Ey & _).
    destruct P as (Pg & Pj & Pst & Psd & Pd & _).
    unfold stuck. rewrite Ey, Pg, Pj, Pst, Psd, Pd. exact St.
  - (* the duck key goes up: the status is not DUCKING *)
    unfold setDuck, setDuck_over. cbn [andb].
    change (status (set_speedDrop false t)) with (status t).
    rewrite Hst. cbn [Status_eqb].
    unfold stuck.
    cbn [set_speedDrop yPos groundYPos jumping speedDrop ducking status].
    repeat split; assumption.
  - (* a frame *)
    unfold playerFrame, jumpFrame. rewrite Hj.
    rewrite (update_off config dt None t Hs).
    destruct (update_status_keeps config dt None t) as (Ky & Kg & Kj & _).
    destruct (update_status_fields config dt None t) as (Est & Ed & Es).
    unfold stuck. rewrite Ky, Kg, Kj, Est, Ed, Es. exact St.
  - (* the jump of a frame *)
    unfold jumpFrame. rewrite Hj. exact St.
  - (* the update of a frame *)
    rewrite (update_off config dt None t Hs).
    destruct (update_status_keeps config dt None t) as (Ky & Kg & Kj & _).
    destruct (update_status_fields config dt None t) as (Est & Ed & Es).
    unfold stuck. rewrite Ky, Kg, Kj, Est, Ed, Es. exact St.
  - (* the intro begins or ends *)
    exact St.
Qed.

Lemma stuck_play ground events t :
  Forall (fun e => resets e = false) events ->
  stuck ground t -> stuck ground (play config events t).
Proof.
  revert t. unfold play.
  induction events as [|e events IH]; intros t He St; simpl; [exact St|].
  apply IH; [now apply Forall_inv_tail in He|].
  apply stuck_handle; [now apply Forall_inv in He | exact St].
Qed.

(** X25.  A game that is resumed while a speed drop is on (the down key
    held through the pause) leaves the player on the ground with the flag
    [ducking] set and the status [RUNNING].  From then on no key event and
    no frame changes that: the jump key and the duck key are ignored, since
    both handlers ask for [!ducking], and releasing the duck key does not
    clear the flag, since [setDuck(false)] asks for the status [DUCKING].
    This holds for every event but a resume, a restart and the game
    over. *)
Theorem resume_in_a_speed_drop_sticks (t : Trex) (events : list Event) :
  speedDrop t = true ->
  Forall (fun e => resets e = false) events ->
  let t' := play config events (handle config Resume t) in
  ducking t' = true /\ status t' = RUNNING /\ jumping t' = false
  /\ yPos t' = groundYPos t /\ speedDrop t' = false.
Proof.
  intros Hs He. cbv zeta.
  destruct (stuck_play (groundYPos t) events _ He (stuck_resume t Hs))
    as (Hd & Hst & Hj & Hsd & Hy & _).
  repeat split; assumption.
Qed.

(** The same events on a player that is ducking for real end the duck. *)
Lemma duck_key_up_ends_a_duck t :
  status t = DUCKING ->
  ducking (handle config DuckKeyUp t) = false
  /\ status (handle config DuckKeyUp t) = RUNNING.
Proof.
  intros Hst. cbn [handle]. unfold setDuck, setDuck_over. cbn [andb].
  change (status (set_speedDrop false t)) with (status t).
  rewrite Hst. cbn [Status_eqb].
  rewrite (update_off config 0 (Some RUNNING) (set_speedDrop false t) eq_refl).
  destruct (update_status_fields config 0 (Some RUNNING) (set_speedDrop false t))
    as (Est & _).
  cbn [set_ducking ducking status]. rewrite Est. split; reflexivity.
Qed.

End Stuck.

(** A player that runs, and one that has just left the ground at speed 6. *)
Definition running : Trex := reset normalConfig initial.
Definition leaping : Trex := startJump normalConfig 6 running.

Lemma updateJump_never_ends_below_ground_witness :
  INVERT_JUMP normalConfig = None
  /\ yPos (updateJump normalConfig (50 / 3) leaping) = 82
  /\ 82 <= groundYPos leaping.
Proof.
  split; [reflexivity|].
  pose proof (updateJump_never_ends_below_ground normalConfig eq_refl
                (50 / 3) leaping) as H.
  cbv zeta in H. destruct H as (Hy & Hg & _ & _).
  split; [reflexivity|]. rewrite <- Hg.
  change 82 with (yPos (updateJump normalConfig (50 / 3) leaping)).
  exact Hy.
Defined.

Lemma every_jump_lands_witness :
  exists n : nat,
    let tn := Nat.iter n (playerFrame normalConfig (50 / 3)) leaping in
    jumping tn = false
    /\ (jumping leaping = true -> yPos tn = groundYPos leaping /\ jumpCount tn = 1).
Proof.
  apply (every_jump_lands normalConfig eq_refl (50 / 3)).
  - reflexivity.
  - reflexivity.
  - unfold Qle. simpl. lia.
Defined.

(** The player five frames into that jump. *)
Definition midair : Trex :=
  Nat.iter 5 (playerFrame normalConfig (50 / 3)) leaping.

Lemma speed_drop_only_falls_witness :
  yPos (Nat.iter 7 (playerFrame normalConfig (50 / 3)) (setSpeedDrop midair))
  = groundYPos midair.
Proof.
  assert (Hj : jumping midair = true) by (vm_compute; reflexivity).
  assert (Hy : yPos midair <= groundYPos midair)
    by (vm_compute; discriminate).
  assert (Hc : (1 <= SPEED_DROP_COEFFICIENT normalConfig)%Q)
    by (vm_compute; discriminate).
  pose proof (speed_drop_only_falls normalConfig eq_refl (50 / 3) eq_refl
                eq_refl Hc midair 7 Hj Hy) as H.
  cbv zeta in H. destruct H as (_ & _ & H). apply H.
  vm_compute. reflexivity.
Defined.

Lemma play_keeps_the_player_steady_witness :
  yPos (play normalConfig
          [JumpKeyDown 6; Frame (50 / 3); DuckKeyDown; Frame (50 / 3);
           DuckKeyUp] initial)
  <= groundYPos
       (play normalConfig
          [JumpKeyDown 6; Frame (50 / 3); DuckKeyDown; Frame (50 / 3);
           DuckKeyUp] initial).
Proof.
  exact (proj1 (play_keeps_the_player_steady normalConfig eq_refl
                  [JumpKeyDown 6; Frame (50 / 3); DuckKeyDown;
                   Frame (50 / 3); DuckKeyUp])).
Defined.

Lemma resume_in_a_speed_drop_sticks_witness :
  let t' := play normalConfig [DuckKeyUp; JumpKeyDown 6; Frame (50 / 3)]
              (handle normalConfig Resume (setSpeedDrop midair)) in
  ducking t' = true /\ status t' = RUNNING /\ jumping t' = false
  /\ yPos t' = groundYPos (setSpeedDrop midair) /\ speedDrop t' = false.
Proof.
  refine (resume_in_a_speed_drop_sticks normalConfig (setSpeedDrop midair)
            [DuckKeyUp; JumpKeyDown 6; Frame (50 / 3)] _ _).
  - reflexivity.
  - repeat constructor.
Defined.

End TrexJumpFacts.

(** ** Snake: what every game keeps *)

Module SnakePlayFacts.
Import JS Snake SnakePlay RandomFacts SnakeFacts.

Section Grid.
Variable T : Z.

Lemma loadGame_gameOver g rs : loadGame T rs = gameOver T g rs.
Proof. reflexivity. Qed.

(** The state that a tick leaves when it goes on to draw. *)
Lemma drawGame_Drawn g rs g' rest :
  drawGame T g rs = Done (Drawn g') rest ->
  exists snake0 tl,
    snake g = snake0 :: tl /\
    let head := next_head g snake0 in
    outside T head = false /\ some_at (obstacles g) head = false /\
    ((eats g head = false /\ g' = moved g head /\ rest = rs /\
      some_at (removelast (snake g)) head = false)
     \/ (eats g head = true /\ some_at (snake g) head = false /\
         exists food1, placeFood T g head rs = Done food1 rest /\
                       g' = fed g head food1)).
Proof.
  destruct (snake g) as [|snake0 tl] eqn:Hs.
  { unfold drawGame. rewrite Hs. discriminate. }
  intros H. exists snake0, tl. split; [reflexivity|]. cbv zeta.
  destruct (outside T (next_head g snake0)) eqn:Hout.
  { rewrite (drawGame_wall T g snake0 tl rs Hs Hout) in H.
    destruct (isWrapAround g); [discriminate|].
    apply ends_in_gameOver_Done in H as (g'' & [=] & _). }
  split; [reflexivity|].
  destruct (some_at (obstacles g) (next_head g snake0)) eqn:Hobs.
  { exfalso. unfold drawGame in H. rewrite Hs in H.
    fold (next_head g snake0) in H. unfold outside in Hout.
    rewrite Hout, Hobs in H.
    change (ends_in_gameOver T g rs = Done (Drawn g') rest) in H.
    apply ends_in_gameOver_Done in H as (g'' & [=] & _). }
  split; [reflexivity|].
  destruct (eats g (next_head g snake0)) eqn:Heat.
  - right. split; [reflexivity|].
    rewrite (drawGame_inside_eats T g snake0 tl rs Hs Hout Heat Hobs) in H.
    apply bind_Done in H as (food1 & rs1 & Hfood & H).
    rewrite <- Hs.
    destruct (some_at (snake g) (next_head g snake0)) eqn:Hself.
    + apply ends_in_gameOver_Done in H as (g'' & [=] & _).
    + split; [reflexivity|]. apply ret_Done in H as [[= <-] <-]. eauto.
  - left. split; [reflexivity|].
    rewrite (drawGame_inside T g snake0 tl rs Hs Hout Heat) in H.
    rewrite Hobs in H.
    assert (E : hits_self (next_head g snake0)
                  (snake (moved g (next_head g snake0)))
                = some_at (removelast (snake g)) (next_head g snake0)).
    { unfold hits_self, moved. simpl snake. rewrite Hs. reflexivity. }
    rewrite E in H. rewrite <- Hs.
    destruct (some_at (removelast (snake g)) (next_head g snake0)).
    + apply ends_in_gameOver_Done in H as (g'' & [=] & _).
    + injection H as <- <-. auto.
Qed.

(** The state that a tick leaves when it ends the game. *)
Lemma drawGame_GameOver g rs g' rest :
  drawGame T g rs = Done (GameOver g') rest ->
  exists g1 rs1, gameOver T g1 rs1 = Done g' rest.
Proof.
  destruct (snake g) as [|snake0 tl] eqn:Hs.
  { unfold drawGame. rewrite Hs. discriminate. }
  intros H.
  destruct (outside T (next_head g snake0)) eqn:Hout.
  { rewrite (drawGame_wall T g snake0 tl rs Hs Hout) in H.
    destruct (isWrapAround g); [discriminate|].
    apply ends_in_gameOver_Done in H as (g'' & [= <-] & H). eauto. }
  destruct (some_at (obstacles g) (next_head g snake0)) eqn:Hobs.
  { unfold drawGame in H. rewrite Hs in H.
    fold (next_head g snake0) in H. unfold outside in Hout.
    rewrite Hout, Hobs in H.
    change (ends_in_gameOver T g rs = Done (GameOver g') rest) in H.
    apply ends_in_gameOver_Done in H as (g'' & [= <-] & H). eauto. }
  destruct (eats g (next_head g snake0)) eqn:Heat.
  - rewrite (drawGame_inside_eats T g snake0 tl rs Hs Hout Heat Hobs) in H.
    apply bind_Done in H as (food1 & rs1 & Hfood & H).
    destruct (some_at (snake g) (next_head g snake0)) eqn:Hself.
    + apply ends_in_gameOver_Done in H as (g'' & [= <-] & H). eauto.
    + apply ret_Done in H as [[=] _].
  - rewrite (drawGame_inside T g snake0 tl rs Hs Hout Heat) in H.
    rewrite Hobs in H.
    destruct (hits_self _ _).
    + apply ends_in_gameOver_Done in H as (g'' & [= <-] & H). eauto.
    + discriminate.
Qed.

Lemma removelast_elem (l : list Cell) c : c ∈ removelast l -> c ∈ l.
Proof.
  destruct l as [|a l] using rev_ind; [intros H; inversion H|].
  rewrite removelast_last. intros H. apply elem_of_app. now left.
Qed.

Lemma removelast_NoDup (l : list Cell) : NoDup l -> NoDup (removelast l).
Proof.
  destruct l as [|a l] using rev_ind; [intros _; constructor|].
  rewrite removelast_last. now intros [H _]%NoDup_app.
Qed.

Lemma removelast_length (l : list Cell) :
  l <> [] -> S (length (removelast l)) = length l.
Proof.
  destruct l as [|a l] using rev_ind; [congruence|]. intros _.
  rewrite removelast_last, length_app. simpl. lia.
Qed.

Lemma outside_false c : outside T c = false <-> in_grid T c.
Proof.
  unfold outside, in_grid. rewrite !orb_false_iff.
  rewrite !Z.ltb_ge, !Z.geb_leb, !Z.leb_gt. lia.
Qed.

Lemma well_formed_gameOver g rs g' rest :
  gameOver T g rs = Done g' rest -> well_formed T g'.
Proof.
  unfold gameOver.
  intros (fd & rs1 & _ & H)%bind_Done.
  apply bind_Done in H as (obs & rs2 & Hobs & [<- _]%ret_Done).
  apply generateObstacles_free in Hobs as (Hfree & Hnd & Hlen).
  unfold well_formed. simpl.
  split; [discriminate|]. split; [apply NoDup_singleton|].
  split; [exact Hnd|]. split; [exact Hlen|]. split; [exact Hfree|].
  split; [reflexivity|]. split; [reflexivity|]. split; [reflexivity|].
  split; [now left|]. split; [reflexivity|].
  intros HT. constructor; [|constructor]. unfold in_grid. simpl. lia.
Qed.

(** What a key event does to the score and the modes. *)
Lemma changeDirection_modes keyCode g :
  let g' := changeDirection keyCode g in
  score g' = score g /\
  ((isFastMode g' = isFastMode g /\ isSlowMode g' = isSlowMode g /\
    gameSpeed g' = gameSpeed g)
   \/ (gameSpeed g' = modeSpeed g' /\ isFastMode g' && isSlowMode g' = false)).
Proof.
  destruct g as [sn fd obs dx0 dy0 sc sp fast slow wrap].
  unfold changeDirection. cbv zeta. simpl.
  destruct ((keyCode =? 37) && _), ((keyCode =? 38) && _),
           ((keyCode =? 39) && _), ((keyCode =? 40) && _);
    simpl;
    destruct (keyCode =? 84), (keyCode =? 83), (keyCode =? 87), (keyCode =? 81);
    simpl; (split; [reflexivity|]);
    first [ left; repeat split; reflexivity
          | right; unfold modeSpeed; simpl; destruct fast, slow; simpl;
            split; reflexivity ].
Qed.

Lemma well_formed_key keyCode g :
  well_formed T g -> well_formed T (changeDirection keyCode g).
Proof.
  intros (Hne & Hnd & Hond & Holen & Hfree & Hsc & Hsp & Hex & Hst & Hz & Hin).
  destruct (changeDirection_direction keyCode g) as (Es & Ef & Eo & Hd).
  destruct (changeDirection_modes keyCode g) as (Esc & Hm).
  cbv zeta in *. unfold well_formed.
  rewrite Es, Ef, Eo, Esc.
  repeat (split; [assumption|]).
  split; [|split; [|split; [|split]]].
  - destruct Hm as [(E1 & E2 & E3) | [E _]]; [|exact E].
    unfold modeSpeed. now rewrite E1, E2, E3.
  - destruct Hm as [(E1 & E2 & E3) | [_ E]]; [|exact E]. now rewrite E1, E2.
  - unfold step.
    destruct Hd as [E | [(_ & _ & E) | [(_ & _ & E) | [(_ & _ & E) | (_ & _ & E)]]]];
      rewrite E; auto 10.
  - intros E0.
    destruct Hd as [E | [(_ & _ & E) | [(_ & _ & E) | [(_ & _ & E) | (_ & _ & E)]]]];
      rewrite E in E0; try discriminate. now apply Hz.
  - exact Hin.
Qed.

Lemma well_formed_drawn g rs g' rest :
  well_formed T g -> drawGame T g rs = Done (Drawn g') rest ->
  well_formed T g'.
Proof.
  intros (Hne & Hnd & Hond & Holen & Hfree & Hsc & Hsp & Hex & Hst & Hz & Hin).
  intros (snake0 & tl & Hs & H)%drawGame_Drawn. cbv zeta in H.
  destruct H as (Hout & Hobs & H).
  apply outside_false in Hout. apply some_at_false in Hobs.
  set (head := next_head g snake0) in *.
  destruct H as [(Heat & -> & _ & Hself) | (Heat & Hself & food1 & Hfood & ->)].
  - apply some_at_false in Hself.
    assert (Hsn : snake (moved g head) = head :: removelast (snake g))
      by (unfold moved; simpl; now rewrite Hs).
    unfold well_formed. rewrite Hsn.
    change (obstacles (moved g head)) with (obstacles g).
    change (food (moved g head)) with (food g).
    change (score (moved g head)) with (score g).
    change (gameSpeed (moved g head)) with (gameSpeed g).
    change (modeSpeed (moved g head)) with (modeSpeed g).
    change (isFastMode (moved g head)) with (isFastMode g).
    change (isSlowMode (moved g head)) with (isSlowMode g).
    change (dx (moved g head)) with (dx g).
    change (dy (moved g head)) with (dy g).
    pose proof (removelast_length (snake g) Hne) as Hlen.
    split; [discriminate|].
    split; [constructor; [exact Hself | now apply removelast_NoDup]|].
    split; [exact Hond|]. split; [exact Holen|].
    split.
    { intros o Ho. destruct (Hfree o Ho) as [Hos Hof]. split; [|exact Hof].
      intros [->|Hin']%elem_of_cons; [contradiction|].
      apply Hos. now apply removelast_elem. }
    split; [simpl length; lia|].
    split; [exact Hsp|]. split; [exact Hex|]. split; [exact Hst|].
    split; [intros E; specialize (Hz E); simpl length; lia|].
    intros HT. constructor; [exact Hout|].
    specialize (Hin HT). rewrite Forall_forall in Hin |- *.
    intros c Hc. apply Hin. now apply removelast_elem.
  - apply some_at_false in Hself.
    unfold placeFood in Hfood.
    apply bind_Done in Hfood as (f & rs1 & _ & Hfood).
    apply redrawFood_free in Hfood as [Hfs Hfo].
    unfold well_formed, fed, updateGameSpeed, modeSpeed. simpl.
    split; [discriminate|].
    split; [constructor; assumption|].
    split; [exact Hond|]. split; [exact Holen|].
    split.
    { intros o Ho. destruct (Hfree o Ho) as [Hos Hof]. split.
      - intros [->|Hin']%elem_of_cons; contradiction.
      - intros ->. contradiction. }
    split; [lia|]. split; [reflexivity|]. split; [exact Hex|].
    split; [exact Hst|].
    split.
    { intros [= E1 E2]. exfalso. apply Hself. rewrite Hs.
      unfold head, next_head. rewrite E1, E2, !Z.add_0_r.
      destruct snake0. apply list_elem_of_here. }
    intros HT. constructor; [exact Hout | now apply Hin].
Qed.

(** X16.  In every state that a game of Snake reaches from the loading
    of the page by key events and ticks, the snake is not empty and has no
    cell twice, there are five distinct obstacles, none of them on the
    snake or on the food, the score is ten times the number of segments
    gained, the interval is the one of the mode flags (50, 200 or 100, so
    the factor 0.95 applied on eating never lasts), fast and slow mode are
    not both on, the direction is zero or a unit step and zero only for a
    snake of one cell, and, on a grid wider than 10, the snake is inside
    the grid. *)
Theorem reachable_games_are_well_formed (g : Game) :
  reachable T g -> well_formed T g.
Proof.
  induction 1 as [rs g rest H | keyCode g _ IH | g rs g' rest _ IH H
                 | g rs g' rest _ IH H].
  - rewrite (loadGame_gameOver g) in H. now apply well_formed_gameOver in H.
  - now apply well_formed_key.
  - now apply (well_formed_drawn g rs g' rest).
  - apply drawGame_GameOver in H as (g1 & rs1 & H).
    now apply well_formed_gameOver in H.
Qed.

(** Nothing that [gameOver] calls throws. *)
Lemma quiet_randomCell rs : quiet (randomCell T rs).
Proof. destruct rs as [|r1 [|r2 rs]]; exact I. Qed.

Lemma quiet_drawObstacle sn fd obs rs : quiet (drawObstacle T sn fd obs rs).
Proof.
  remember (length rs) as n eqn:Hn. revert rs Hn.
  induction n as [n IH] using lt_wf_ind. intros rs Hn.
  destruct rs as [|rx [|ry rs']]; simpl; try exact I.
  destruct (obstacle_clash _ _ _ _); [|exact I].
  apply (IH (length rs')); [simpl in Hn; lia | reflexivity].
Qed.

Lemma quiet_generateObstacles_from n sn fd obs rs :
  quiet (generateObstacles_from T n sn fd obs rs).
Proof.
  revert obs rs. induction n as [|n IH]; intros obs rs; simpl; [exact I|].
  apply RetryFacts.quiet_bind; [apply quiet_drawObstacle | intros; apply IH].
Qed.

Lemma quiet_redrawFood sn obs fd rs : quiet (redrawFood T sn obs fd rs).
Proof.
  remember (length rs) as n eqn:Hn. revert rs fd Hn.
  induction n as [n IH] using lt_wf_ind. intros rs fd Hn.
  destruct rs as [|rx [|ry rs']]; simpl;
    destruct (food_clash sn obs fd); try exact I.
  apply (IH (length rs')); [simpl in Hn; lia | reflexivity].
Qed.

Lemma quiet_ends_in_gameOver g rs : quiet (ends_in_gameOver T g rs).
Proof.
  unfold ends_in_gameOver, gameOver.
  apply RetryFacts.quiet_bind; [|intros; exact I].
  apply RetryFacts.quiet_bind; [apply quiet_randomCell|]. intros fd rs1 _.
  apply RetryFacts.quiet_bind; [|intros; exact I].
  apply quiet_generateObstacles_from.
Qed.

(** X17.  A tick of a game with a snake throws in one situation only:
    wraparound is on and the new head is outside the grid; the exception
    is the [TypeError] of the assignment to the constant [head]. *)
Theorem drawGame_throws_only_when_wrapping (g : Game) (rs : list Q) (e : exn) :
  drawGame T g rs = Raised e ->
  snake g <> [] ->
  exists snake0 tl,
    snake g = snake0 :: tl /\ isWrapAround g = true /\
    outside T (next_head g snake0) = true /\
    e = TypeError "Assignment to constant variable.".
Proof.
  intros H Hne. destruct (snake g) as [|snake0 tl] eqn:Hs; [congruence|].
  exists snake0, tl. split; [reflexivity|].
  destruct (outside T (next_head g snake0)) eqn:Hout.
  - rewrite (drawGame_wall T g snake0 tl rs Hs Hout) in H.
    destruct (isWrapAround g).
    + injection H as <-. auto.
    + pose proof (quiet_ends_in_gameOver g rs) as Q. rewrite H in Q.
      contradiction.
  - exfalso.
    destruct (some_at (obstacles g) (next_head g snake0)) eqn:Hobs.
    { unfold drawGame in H. rewrite Hs in H.
      fold (next_head g snake0) in H. unfold outside in Hout.
      rewrite Hout, Hobs in H.
      change (ends_in_gameOver T g rs = Raised e) in H.
      pose proof (quiet_ends_in_gameOver g rs) as Q. now rewrite H in Q. }
    destruct (eats g (next_head g snake0)) eqn:Heat.
    + rewrite (drawGame_inside_eats T g snake0 tl rs Hs Hout Heat Hobs) in H.
      assert (Q : quiet ((food1 ← placeFood T g (next_head g snake0);
                          if some_at (snake g) (next_head g snake0)
                          then ends_in_gameOver T
                                 (fed g (next_head g snake0) food1)
                          else mret (Drawn (fed g (next_head g snake0) food1)))
                           rs)).
      { apply RetryFacts.quiet_bind.
        - unfold placeFood. apply RetryFacts.quiet_bind;
            [apply quiet_randomCell | intros; apply quiet_redrawFood].
        - intros food1 rs1 _. destruct (some_at _ _);
            [apply quiet_ends_in_gameOver | exact I]. }
      now rewrite H in Q.
    + rewrite (drawGame_inside T g snake0 tl rs Hs Hout Heat) in H.
      rewrite Hobs in H. destruct (hits_self _ _); [|discriminate].
      pose proof (quiet_ends_in_gameOver
                    (moved g (next_head g snake0)) rs) as Q.
      now rewrite H in Q.
Qed.

(** X18.  A tick that goes on to draw has put the new head inside the
    grid and off every obstacle, and has left obstacles, direction and
    modes as they were.  If the head is not on the food, the snake has
    moved: the head is added, the last cell dropped, and score, food and
    interval are unchanged.  If it is, the snake has grown by the head, the
    score by 10, the new food is on neither the snake nor an obstacle, and
    the interval is the one of the mode flags. *)
Theorem drawn_tick_moves_or_grows (g : Game) (rs : list Q) (g' : Game)
  (rest : list Q) (snake0 : Cell) (tl : list Cell) :
  drawGame T g rs = Done (Drawn g') rest ->
  snake g = snake0 :: tl ->
  let head := next_head g snake0 in
  in_grid T head /\ (head ∉ obstacles g)
  /\ obstacles g' = obstacles g
  /\ (dx g', dy g') = (dx g, dy g)
  /\ (isFastMode g', isSlowMode g', isWrapAround g')
     = (isFastMode g, isSlowMode g, isWrapAround g)
  /\ (eats g head = false ->
      snake g' = head :: removelast (snake g) /\ score g' = score g /\
      food g' = food g /\ gameSpeed g' = gameSpeed g /\ rest = rs /\
      (head ∉ removelast (snake g)))
  /\ (eats g head = true ->
      snake g' = head :: snake g /\ score g' = score g + 10 /\
      (food g' ∉ snake g') /\ (food g' ∉ obstacles g') /\
      gameSpeed g' = modeSpeed g /\ (head ∉ snake g)).
Proof.
  intros (s0 & tl' & Hs' & H)%drawGame_Drawn Hs.
  rewrite Hs in Hs'. injection Hs' as <- <-. cbv zeta in H |- *.
  destruct H as (Hout & Hobs & H).
  apply outside_false in Hout. apply some_at_false in Hobs.
  split; [exact Hout|]. split; [exact Hobs|].
  destruct H as [(Heat & -> & -> & Hself) | (Heat & Hself & food1 & Hfood & ->)].
  - apply some_at_false in Hself.
    split; [reflexivity|]. split; [reflexivity|]. split; [reflexivity|].
    split; [|congruence]. intros _.
    unfold moved. simpl. rewrite Hs. repeat split; try reflexivity.
    now rewrite Hs in Hself.
  - apply some_at_false in Hself.
    split; [reflexivity|]. split; [reflexivity|]. split; [reflexivity|].
    split; [congruence|]. intros _.
    unfold placeFood in Hfood.
    apply bind_Done in Hfood as (f & rs1 & _ & Hfood).
    apply redrawFood_free in Hfood as [Hfs Hfo].
    unfold fed, updateGameSpeed, modeSpeed. simpl.
    repeat split; try reflexivity; assumption.
Qed.

End Grid.

(** A game on a 20 x 20 grid, one tick after the right arrow. *)
Definition first_step : Game :=
  mkGame [mkCell 11 10] (mkCell 10 10)
    [mkCell 0 0; mkCell 1 0; mkCell 2 0; mkCell 3 0; mkCell 4 0]
    1 0 0 100 false false false.

Lemma first_step_reachable : reachable 20 first_step.
Proof.
  apply (reach_drawn 20 (changeDirection 39 SnakeExamples.after_reset) []
           first_step []); [|reflexivity].
  apply reach_key.
  apply (reach_load 20 SnakeExamples.reset_draws SnakeExamples.after_reset []).
  vm_compute. reflexivity.
Qed.

Lemma reachable_games_are_well_formed_witness : well_formed 20 first_step.
Proof.
  apply (reachable_games_are_well_formed 20 first_step).
  exact first_step_reachable.
Defined.

Lemma drawGame_throws_only_when_wrapping_witness :
  exists snake0 tl,
    snake (SnakeExamples.at_the_wall true) = snake0 :: tl /\
    isWrapAround (SnakeExamples.at_the_wall true) = true /\
    outside 20 (next_head (SnakeExamples.at_the_wall true) snake0) = true.
Proof.
  destruct (drawGame_throws_only_when_wrapping 20
              (SnakeExamples.at_the_wall true) SnakeExamples.reset_draws
              (TypeError "Assignment to constant variable.") eq_refl
              ltac:(discriminate))
    as (snake0 & tl & H1 & H2 & H3 & _).
  exists snake0, tl. auto.
Defined.

Lemma drawn_tick_moves_or_grows_witness :
  snake first_step = [mkCell 11 10] /\ score first_step = 0.
Proof.
  pose proof (drawn_tick_moves_or_grows 20
                (changeDirection 39 SnakeExamples.after_reset) [] first_step []
                (mkCell 10 10) [] eq_refl eq_refl) as H.
  cbv zeta in H. destruct H as (_ & _ & _ & _ & _ & H & _).
  destruct (H eq_refl) as (H1 & H2 & _). split; [exact H1 | exact H2].
Defined.

End SnakePlayFacts.

(** ** The distance meter *)

Module MeterFacts.
Import JS Meter RandomFacts.

Lemma getActualDistance_fortieth (distance : Q) (n : Z) :
  (getActualDistance distance = n <->
   (inject_Z (40 * n - 20) <= distance /\ distance < inject_Z (40 * n + 20))%Q)
  /\ (forall distance', (distance <= distance')%Q ->
        getActualDistance distance <= getActualDistance distance').
Proof.
  assert (E : forall d, getActualDistance d = Math_round (d * COEFFICIENT)).
  { intros d. unfold getActualDistance.
    destruct (Qeq_bool d 0) eqn:Hd; [|reflexivity].
    apply Qeq_bool_iff in Hd. unfold Math_round.
    assert (H0 : (d * COEFFICIENT + (1 # 2) == 1 # 2)%Q)
      by (rewrite Hd; reflexivity).
    now rewrite H0. }
  split.
  - rewrite E. unfold Math_round. rewrite Qfloor_spec.
    assert (A : (inject_Z (40 * n - 20) == 40 * inject_Z n - 20)%Q).
    { unfold Z.sub. rewrite inject_Z_plus, inject_Z_mult. reflexivity. }
    assert (B : (inject_Z (40 * n + 20) == 40 * inject_Z n + 20)%Q).
    { rewrite inject_Z_plus, inject_Z_mult. reflexivity. }
    assert (C : (inject_Z (n + 1) == inject_Z n + 1)%Q).
    { rewrite inject_Z_plus. reflexivity. }
    rewrite A, B, C. unfold COEFFICIENT.
    split; intros [H1 H2]; split; lra.
  - intros d' Hle. rewrite !E. unfold Math_round. apply Qfloor_resp_le.
    unfold COEFFICIENT. lra.
Qed.

(** Whether the meter is at an achievement: a positive multiple of a
    hundred. *)
Definition milestone (distance : Q) : bool :=
  (getActualDistance distance >? 0)
  && (Z.rem (getActualDistance distance) ACHIEVEMENT_DISTANCE =? 0).

Lemma update_running dt d m :
  achievement m = false ->
  playSound (snd (update dt d m)) = milestone d /\
  achievement (fst (update dt d m)) = milestone d /\
  paint (snd (update dt d m)) = true /\
  (milestone d = true -> flashTimer (fst (update dt d m)) = 0%Q) /\
  flashIterations (fst (update dt d m)) = flashIterations m.
Proof.
  intros Ha. unfold update, milestone. rewrite Ha. cbn [negb].
  destruct ((getActualDistance d >? maxScore m) && _);
    destruct ((getActualDistance d >? 0) && _); simpl;
    repeat split; auto; discriminate.
Qed.

Lemma update_flashing dt d m :
  achievement m = true ->
  update dt d m = update dt 0 m /\
  playSound (snd (update dt d m)) = false /\
  maxScore (fst (update dt d m)) = maxScore m /\
  maxScoreUnits (fst (update dt d m)) = maxScoreUnits m.
Proof.
  intros Ha. unfold update. rewrite Ha. cbn [negb].
  destruct (flashIterations m <=? FLASH_ITERATIONS); [|repeat split].
  destruct (TRex.Qltb _ _); [repeat split|].
  destruct (TRex.Qgtb _ _); repeat split.
Qed.

(** X19.  [DistanceMeter.update] asks for the achievement sound exactly
    when the meter is not flashing and the pixel distance lies within
    20 below and 20 above a positive multiple of 4000 (a positive multiple
    of 100 on the meter).  It then starts flashing, with the timer at 0.
    The digits are left unpainted only while the meter is flashing. *)
Theorem achievement_sound (deltaTime distance : Q) (this : DistanceMeter) :
  let this' := fst (update deltaTime distance this) in
  let report := snd (update deltaTime distance this) in
  (playSound report = true <->
   achievement this = false /\
   exists k, 0 < k /\
     (inject_Z (4000 * k - 20) <= distance
      /\ distance < inject_Z (4000 * k + 20))%Q)
  /\ (playSound report = true ->
      achievement this' = true /\ flashTimer this' = 0%Q /\
      paint report = true)
  /\ (paint report = false -> achievement this = true).
Proof.
  cbv zeta.
  assert (M : milestone distance = true <->
              exists k, 0 < k /\
                (inject_Z (4000 * k - 20) <= distance
                 /\ distance < inject_Z (4000 * k + 20))%Q).
  { unfold milestone, ACHIEVEMENT_DISTANCE.
    rewrite andb_true_iff, Z.eqb_eq.
    split.
    - intros [Hpos Hrem]. apply Z.gtb_gt in Hpos.
      exists (getActualDistance distance / 100).
      rewrite Z.rem_mod_nonneg in Hrem by lia.
      assert (E : getActualDistance distance
                  = 100 * (getActualDistance distance / 100))
        by (pose proof (Z.div_mod (getActualDistance distance) 100); lia).
      split; [lia|].
      pose proof (proj1 (proj1 (getActualDistance_fortieth distance
                                  (getActualDistance distance))) eq_refl) as H.
      replace (4000 * (getActualDistance distance / 100) - 20)
        with (40 * getActualDistance distance - 20) by lia.
      replace (4000 * (getActualDistance distance / 100) + 20)
        with (40 * getActualDistance distance + 20) by lia.
      exact H.
    - intros (k & Hk & H).
      replace (4000 * k - 20) with (40 * (100 * k) - 20) in H by lia.
      replace (4000 * k + 20) with (40 * (100 * k) + 20) in H by lia.
      apply (proj1 (getActualDistance_fortieth distance (100 * k))) in H.
      rewrite H. split; [apply Z.gtb_gt; lia|].
      rewrite Z.rem_mod_nonneg by lia.
      rewrite Z.mul_comm. apply Z.mod_mul. lia. }
  destruct (achievement this) eqn:Ha.
  - destruct (update_flashing deltaTime distance this Ha) as (_ & Hs & _).
    rewrite Hs. split; [|split].
    + split; [discriminate | intros [? _]; discriminate].
    + discriminate.
    + reflexivity.
  - destruct (update_running deltaTime distance this Ha) as (Hs & Hach & Hp & Ht & _).
    rewrite Hs, Hach, Hp. split; [|split].
    + rewrite M. tauto.
    + intros Hm. auto.
    + discriminate.
Qed.

(** X20.  Whatever frames a new meter is updated with, it has five digits
    and a maximum of 99999, or six digits and a maximum of 999999: it grows
    once and never again.  [reset] keeps the digits and the maximum and
    ends the flashing. *)
Theorem meter_shows_five_or_six_digits (frames : list (Q * Q)) :
  let this := fst (updates frames new_DistanceMeter) in
  ((maxScoreUnits this = 5 /\ maxScore this = 99999)
   \/ (maxScoreUnits this = 6 /\ maxScore this = 999999))
  /\ maxScoreUnits (reset this) = maxScoreUnits this
  /\ maxScore (reset this) = maxScore this
  /\ achievement (reset this) = false.
Proof.
  cbv zeta.
  assert (Step : forall dt d m,
            (maxScoreUnits m = 5 /\ maxScore m = 99999)
            \/ (maxScoreUnits m = 6 /\ maxScore m = 999999) ->
            let m' := fst (update dt d m) in
            (maxScoreUnits m' = 5 /\ maxScore m' = 99999)
            \/ (maxScoreUnits m' = 6 /\ maxScore m' = 999999)).
  { intros dt d m Hm. cbv zeta. destruct (achievement m) eqn:Ha.
    - destruct (update_flashing dt d m Ha) as (_ & _ & -> & ->). exact Hm.
    - destruct m as [ms mu a ft fi]. simpl in Ha, Hm. subst a.
      unfold update, MAX_DISTANCE_UNITS.
      cbn [negb achievement maxScore maxScoreUnits].
      destruct Hm as [[-> ->] | [-> ->]];
        [change (5 =? 5) with true | change (6 =? 5) with false];
        rewrite ?andb_false_r, ?andb_true_r;
        repeat match goal with
               | |- context [if ?b then _ else _] => destruct b; simpl
               end; auto. }
  assert (Inv : forall frames m,
            (maxScoreUnits m = 5 /\ maxScore m = 99999)
            \/ (maxScoreUnits m = 6 /\ maxScore m = 999999) ->
            let m' := fst (updates frames m) in
            (maxScoreUnits m' = 5 /\ maxScore m' = 99999)
            \/ (maxScoreUnits m' = 6 /\ maxScore m' = 999999)).
  { clear frames. induction frames as [|[dt d] frames IH]; intros m Hm; cbv zeta.
    - exact Hm.
    - simpl. pose proof (Step dt d m Hm) as H1. cbv zeta in H1.
      destruct (update dt d m) as [m1 r1]. simpl in H1.
      specialize (IH m1 H1). cbv zeta in IH.
      destruct (updates frames m1) as [m2 rs2]. exact IH. }
  pose proof (Inv frames new_DistanceMeter (or_introl (conj eq_refl eq_refl)))
    as H. cbv zeta in H.
  set (this := fst (updates frames new_DistanceMeter)) in *.
  split; [exact H|]. clearbody this.
  destruct this as [ms mu a ft fi]. simpl in H.
  unfold reset, update. cbn [negb achievement maxScore maxScoreUnits].
  change (getActualDistance 0) with 0.
  assert ((0 >? ms) = false) as ->
    by (destruct H as [[_ ->] | [_ ->]]; reflexivity).
  destruct a; simpl;
    repeat match goal with
           | |- context [if ?b then _ else _] => destruct b; simpl
           end; auto.
Qed.

Lemma updates_app frames1 frames2 m :
  updates (frames1 ++ frames2) m =
    (fst (updates frames2 (fst (updates frames1 m))),
     snd (updates frames1 m) ++ snd (updates frames2 (fst (updates frames1 m)))).
Proof.
  revert m. induction frames1 as [|[dt d] frames1 IH]; intros m; simpl.
  - now destruct (updates frames2 m).
  - destruct (update dt d m) as [m1 r1]. rewrite IH.
    destruct (updates frames1 m1) as [m2 rs2]. reflexivity.
Qed.

Definition silent (r : Report) : Prop := playSound r = false.

Lemma FLASH_DURATION_eq : (FLASH_DURATION == 250)%Q.
Proof. reflexivity. Qed.

Section Flashing.
Variable dt : Q.
Hypothesis dt_pos : (0 < dt)%Q.

(** The frames of a flashing meter: [deltaTime] is [dt], the distances are
    any. *)
Definition flashes (distances : list Q) : list (Q * Q) :=
  map (fun d => (dt, d)) distances.

(** One round of the flashing: the timer runs past twice the flash
    duration, and the round is counted. *)
Lemma flashing_round (k : nat) (m : DistanceMeter) :
  achievement m = true -> flashIterations m <= FLASH_ITERATIONS ->
  (FLASH_DURATION * 2 - flashTimer m < inject_Z (Z.of_nat k) * dt)%Q ->
  exists j : nat, forall distances, length distances = j ->
    let m' := fst (updates (flashes distances) m) in
    m' = mkDistanceMeter (maxScore m) (maxScoreUnits m) true 0
           (flashIterations m + 1) /\
    Forall silent (snd (updates (flashes distances) m)).
Proof.
  revert m. induction k as [|k IH]; intros m Ha Hit Hk.
  - exists 1%nat. intros [|d [|d' ds]]; try discriminate. intros _.
    cbv zeta. simpl. unfold update. rewrite Ha. cbn [negb].
    apply Z.leb_le in Hit. rewrite Hit.
    change (inject_Z (Z.of_nat 0)) with 0%Q in Hk.
    assert (H1 : TRex.Qltb (flashTimer m + dt) FLASH_DURATION = false).
    { apply not_true_iff_false. rewrite RetryFacts.Qltb_lt.
      pose proof FLASH_DURATION_eq. lra. }
    assert (H2 : TRex.Qgtb (flashTimer m + dt) (FLASH_DURATION * 2) = true).
    { unfold TRex.Qgtb. apply RetryFacts.Qltb_lt. pose proof FLASH_DURATION_eq. lra. }
    rewrite H1, H2. simpl. split; [reflexivity | repeat constructor].
  - destruct (TRex.Qgtb (flashTimer m + dt) (FLASH_DURATION * 2)) eqn:H2.
    + exists 1%nat. intros [|d [|d' ds]]; try discriminate. intros _.
      cbv zeta. simpl. unfold update. rewrite Ha. cbn [negb].
      apply Z.leb_le in Hit. rewrite Hit.
      assert (H1 : TRex.Qltb (flashTimer m + dt) FLASH_DURATION = false).
      { apply not_true_iff_false. rewrite RetryFacts.Qltb_lt.
        unfold TRex.Qgtb in H2. apply RetryFacts.Qltb_lt in H2.
        pose proof FLASH_DURATION_eq. lra. }
      rewrite H1, H2. simpl. split; [reflexivity | repeat constructor].
    + set (m1 := mkDistanceMeter (maxScore m) (maxScoreUnits m) true
                   (flashTimer m + dt) (flashIterations m)).
      assert (E : forall d, update dt d m
                    = (m1, mkReport false
                             (negb (TRex.Qltb (flashTimer m + dt) FLASH_DURATION)))).
      { intros d. unfold update. rewrite Ha. cbn [negb].
        pose proof Hit as Hit'. apply Z.leb_le in Hit'. rewrite Hit'.
        rewrite H2. destruct (TRex.Qltb _ _); reflexivity. }
      destruct (IH m1) as [j Hj].
      * reflexivity.
      * exact Hit.
      * simpl. rewrite Nat2Z.inj_succ in Hk. unfold Z.succ in Hk.
        rewrite inject_Z_plus in Hk. change (inject_Z 1) with 1%Q in Hk. lra.
      * exists (S j). intros [|d ds]; [discriminate|]. intros [= Hlen].
        specialize (Hj ds Hlen). cbv zeta in Hj |- *.
        simpl. rewrite E.
        destruct (updates (flashes ds) m1) as [m2 rs2]. simpl in Hj |- *.
        destruct Hj as (J1 & J4).
        split; [exact J1 | constructor; [reflexivity | exact J4]].
Qed.

Lemma enough_flashes (timer : Q) :
  exists k : nat, (FLASH_DURATION * 2 - timer < inject_Z (Z.of_nat k) * dt)%Q.
Proof.
  set (q := ((FLASH_DURATION * 2 - timer) / dt)%Q).
  exists (Z.to_nat (Qceiling q + 1)).
  assert (HK : (q < inject_Z (Z.of_nat (Z.to_nat (Qceiling q + 1))))%Q).
  { apply Qle_lt_trans with (inject_Z (Qceiling q)); [apply Qle_ceiling|].
    rewrite <- Zlt_Qlt. lia. }
  set (K := inject_Z (Z.of_nat (Z.to_nat (Qceiling q + 1)))) in *.
  assert (H1 : (q * dt < K * dt)%Q)
    by (apply Qmult_lt_compat_r; assumption).
  assert (H2 : (q * dt == FLASH_DURATION * 2 - timer)%Q)
    by (unfold q; field; lra).
  lra.
Qed.

Lemma flashing_rounds (p : nat) (m : DistanceMeter) :
  achievement m = true ->
  Z.to_nat (FLASH_ITERATIONS + 1 - flashIterations m) = p ->
  exists n : nat, forall distances, length distances = n ->
    let m' := fst (updates (flashes distances) m) in
    achievement m' = false /\ flashTimer m' = 0%Q /\ flashIterations m' = 0 /\
    maxScore m' = maxScore m /\ maxScoreUnits m' = maxScoreUnits m /\
    Forall silent (snd (updates (flashes distances) m)).
Proof.
  revert m. induction p as [|p IH]; intros m Ha Hp.
  - exists 1%nat. intros [|d [|d' ds]]; try discriminate. intros _.
    cbv zeta. simpl. unfold update. rewrite Ha. cbn [negb].
    assert ((flashIterations m <=? FLASH_ITERATIONS) = false) as ->
      by (apply Z.leb_gt; unfold FLASH_ITERATIONS in *; lia).
    simpl. repeat split. repeat constructor.
  - assert (Hit : flashIterations m <= FLASH_ITERATIONS)
      by (unfold FLASH_ITERATIONS in *; lia).
    destruct (enough_flashes (flashTimer m)) as [k Hk].
    destruct (flashing_round k m Ha Hit Hk) as [j Hj].
    set (m1 := mkDistanceMeter (maxScore m) (maxScoreUnits m) true 0
                 (flashIterations m + 1)) in *.
    destruct (IH m1) as [n Hn]; [reflexivity | simpl; lia |].
    exists (j + n)%nat. intros ds Hlen. cbv zeta.
    rewrite <- (take_drop j ds). unfold flashes. rewrite map_app.
    fold (flashes (take j ds)). fold (flashes (drop j ds)).
    rewrite updates_app. cbn [fst snd].
    assert (Hl1 : length (take j ds) = j) by (rewrite length_take; lia).
    assert (Hl2 : length (drop j ds) = n) by (rewrite length_drop; lia).
    specialize (Hj (take j ds) Hl1). cbv zeta in Hj. destruct Hj as [-> Hs1].
    specialize (Hn (drop j ds) Hl2). cbv zeta in Hn.
    destruct Hn as (N1 & N2 & N3 & N4 & N5 & N6).
    repeat split; try assumption. now apply Forall_app.
Qed.

(** X21.  With frames of a fixed positive length, the flashing of an
    achievement ends after a number of updates that does not depend on the
    distances passed: the meter is then not flashing, timer and iteration
    counter are 0, the digits and the maximum are as before, and none of
    these updates has asked for the sound. *)
Theorem achievement_flashing_ends (this : DistanceMeter) :
  achievement this = true ->
  exists n : nat, forall distances, length distances = n ->
    let this' := fst (updates (flashes distances) this) in
    achievement this' = false /\ flashTimer this' = 0%Q /\
    flashIterations this' = 0 /\
    maxScore this' = maxScore this /\
    maxScoreUnits this' = maxScoreUnits this /\
    Forall silent (snd (updates (flashes distances) this)).
Proof.
  intros Ha.
  exact (flashing_rounds _ this Ha eq_refl).
Qed.

End Flashing.

(** A meter that has just reached a milestone. *)
Definition at_milestone : DistanceMeter := mkDistanceMeter 99999 5 true 0 0.

Lemma achievement_flashing_ends_witness :
  exists n : nat, forall distances, length distances = n ->
    let this' := fst (updates (flashes (50 / 3) distances) at_milestone) in
    achievement this' = false /\ flashTimer this' = 0%Q /\
    flashIterations this' = 0 /\
    maxScore this' = maxScore at_milestone /\
    maxScoreUnits this' = maxScoreUnits at_milestone /\
    Forall silent (snd (updates (flashes (50 / 3) distances) at_milestone)).
Proof.
  apply (achievement_flashing_ends (50 / 3)); reflexivity.
Defined.

(** X22.  [setSpeed(speed)] with a positive speed never sets more than
    [speed].  On a canvas of the default width or wider, or in slow mode,
    it sets [speed]; on a narrower one it sets [speed] exactly when
    [WIDTH * MOBILE_SPEED_COEFFICIENT >= 600], and otherwise
    [speed * WIDTH / 600 * MOBILE_SPEED_COEFFICIENT]. *)
Theorem setSpeed_never_exceeds_the_request (env : TRex.Env)
  (coefficient : Q) (width : Z) (speed currentSpeed : Q) :
  (0 < speed)%Q -> (0 < coefficient)%Q ->
  let s := setSpeed env coefficient width (Some speed) currentSpeed in
  (s <= speed)%Q
  /\ (DEFAULT_WIDTH <= width -> s = speed)
  /\ (TRex.slowDown env = true -> s = speed)
  /\ (TRex.slowDown env = false -> width < DEFAULT_WIDTH ->
      ((s == speed)%Q <->
       (inject_Z DEFAULT_WIDTH <= inject_Z width * coefficient)%Q)
      /\ ((inject_Z width * coefficient < inject_Z DEFAULT_WIDTH)%Q ->
          (s == speed * inject_Z width / inject_Z DEFAULT_WIDTH
                * coefficient)%Q)).
Proof.
  intros Hs Hc. cbv zeta. unfold setSpeed.
  assert (Qeq_bool speed 0 = false) as ->.
  { apply not_true_iff_false. rewrite Qeq_bool_iff. lra. }
  assert (HD : (inject_Z DEFAULT_WIDTH == 600)%Q) by reflexivity.
  set (W := inject_Z width) in *.
  assert (Hm : (speed * W / inject_Z DEFAULT_WIDTH * coefficient
                == speed * (W * coefficient) / 600)%Q)
    by (rewrite HD; field).
  destruct (Z.ltb_spec width DEFAULT_WIDTH) as [Hlt|Hge].
  - destruct (TRex.slowDown env) eqn:Hslow.
    + assert (TRex.Qgtb speed speed = false) as ->.
      { apply not_true_iff_false. unfold TRex.Qgtb.
        rewrite RetryFacts.Qltb_lt. lra. }
      split; [lra|]. split; [lia|]. split; [reflexivity|]. discriminate.
    + destruct (TRex.Qgtb _ speed) eqn:Hgt.
      * unfold TRex.Qgtb in Hgt. apply RetryFacts.Qltb_lt in Hgt.
        rewrite Hm in Hgt.
        assert (H600 : (600 < W * coefficient)%Q).
        { destruct (Qlt_le_dec 600 (W * coefficient)) as [H|H]; [exact H|].
          exfalso.
          assert (speed * (W * coefficient) <= speed * 600)%Q
            by (rewrite !(Qmult_comm speed);
                apply Qmult_le_compat_r; lra).
          assert (speed * (W * coefficient) / 600 <= speed)%Q
            by (apply Qle_shift_div_r; lra).
          lra. }
        split; [lra|]. split; [lia|]. split; [discriminate|].
        intros _ _. split; [|rewrite HD; lra].
        split; [intros _; rewrite HD; lra | reflexivity].
      * apply not_true_iff_false in Hgt. unfold TRex.Qgtb in Hgt.
        rewrite RetryFacts.Qltb_lt in Hgt. apply Qnot_lt_le in Hgt.
        split; [exact Hgt|]. split; [lia|]. split; [discriminate|].
        intros _ _. split; [|reflexivity].
        rewrite Hm in Hgt |- *. rewrite HD.
        assert (Hkey : (speed * (W * coefficient) / 600 == speed
                        <-> 600 <= W * coefficient)%Q).
        { split.
          - intros E.
            assert (E' : (speed * (W * coefficient) == speed * 600)%Q).
            { rewrite <- E at 2. field. }
            apply Qmult_inj_l in E'; lra.
          - intros H600.
            assert (speed * 600 <= speed * (W * coefficient))%Q
              by (rewrite !(Qmult_comm speed);
                  apply Qmult_le_compat_r; lra).
            assert (speed <= speed * (W * coefficient) / 600)%Q
              by (apply Qle_shift_div_l; lra).
            lra. }
        exact Hkey.
  - split; [lra|]. split; [reflexivity|]. split; [reflexivity|]. lia.
Qed.

Lemma setSpeed_never_exceeds_the_request_witness :
  (setSpeed TRex.defaultEnv 1.2 400 (Some 6) 0 <= 6)%Q
  /\ (setSpeed TRex.defaultEnv 1.2 400 (Some 6) 0 == 4.8)%Q.
Proof.
  pose proof (setSpeed_never_exceeds_the_request TRex.defaultEnv 1.2 400 6 0
                eq_refl eq_refl) as H.
  cbv zeta in H. destruct H as (H1 & _ & _ & H4).
  split; [exact H1|].
  destruct (H4 eq_refl eq_refl) as [_ H5].
  rewrite (H5 eq_refl). reflexivity.
Defined.

End MeterFacts.
